(** * CachingProjectLoader: a shallow embedding and its properties

    The development follows [lib/api-helper/project/CachingProjectLoader.ts].
    The class keeps two private fields (the cache and the [deleteOnExit]
    list) and talks to four collaborators: the delegate [ProjectLoader],
    the file system ([fs-extra]), the Node.js timer queue and the
    lifecycle handle of the handler context.  All of them are made
    explicit in one state record that every method threads through.

    The methods are [async].  A request to the file system takes effect,
    and gets its answer, when it is issued; the code that follows the
    [await] runs when the call is resumed.  A call that its caller awaits
    is resumed at that [await], so an awaited call runs to its end there.
    A call that nobody awaits (the eviction callback of the cache) runs up
    to its first [await]; what is left of it is kept in the state as a call
    in flight.  No method of the loader resumes such a call: the runtime
    does ([resumeAt], [settle]), and the model places that moment between
    two requests, so the delegate and the action of a request see storage
    on which the calls in flight have removed nothing yet.  The calls
    handed to [Promise.all] are all started before any of them is resumed.
    Two requests are served one after the other: interleavings of
    concurrent calls of [doWithProject] are outside this model. *)

From stdpp Require Import gmap strings list fin_maps sorting.
From Stdlib Require Import ZArith.

Open Scope Z_scope.
Open Scope string_scope.
Open Scope list_scope.
Open Scope nat_scope.

(** ** JavaScript values and objects *)

(** Leaves of a plain options object. *)
Inductive Prim :=
| PUndefined
| PBool (b : bool)
| PNum (n : Z)
| PStr (s : string).

#[global] Instance Prim_eq_dec : EqDecision Prim.
Proof. solve_decision. Defined.

(** The identity of a repository together with its revision designator;
    [sha] holds either a commit hash or a branch name. *)
Record RemoteRepoRef := {
  owner : string;
  repo : string;
  sha : string
}.

#[global] Instance RemoteRepoRef_eq_dec : EqDecision RemoteRepoRef.
Proof. solve_decision. Defined.

(** [params.context]: only its [lifecycle] member is read by the loader.
    A lifecycle handle is a host object, known by its identity. *)
Record HandlerContext := {
  lifecycle : option nat
}.

#[global] Instance HandlerContext_eq_dec : EqDecision HandlerContext.
Proof. solve_decision. Defined.

(** What a property of a project or of the request parameters can hold. *)
Inductive Value :=
| VPrim (p : Prim)
| VRepoRef (r : RemoteRepoRef)
| VCloneOptions (o : gmap string Prim)
| VContext (c : HandlerContext)
| VFunction (name : string).

#[global] Instance Value_eq_dec : EqDecision Value.
Proof. solve_decision. Defined.

Definition undefined : Value := VPrim PUndefined.

(** An object as the loader sees it: [baseDir] is the one property whose
    value the loader uses as a path ([GitProject.baseDir : string]); [own]
    are the remaining own enumerable properties; [inherited] are the
    properties reached through the prototype chain (the methods of the
    project class). *)
Record JsObject := {
  baseDir : string;
  own : gmap string Value;
  inherited : gmap string Value
}.

#[global] Instance JsObject_eq_dec : EqDecision JsObject.
Proof. solve_decision. Defined.

(** Property read [o.k]: own properties shadow inherited ones, a missing
    property reads as [undefined]. *)
Definition getProp (o : JsObject) (k : string) : Value :=
  if decide (k = "baseDir") then VPrim (PStr (baseDir o))
  else match own o !! k with
       | Some v => v
       | None => default undefined (inherited o !! k)
       end.

(** Modelled from the spec: the declaration of [ProjectLoadingParameters]
    (lib/spi/project/ProjectLoader.ts) is missing.  Section 6 gives the
    caller contract as a repository reference, the [readOnly] flag, the
    clone options and an optional lifecycle handle; the field names are the
    ones [CachingProjectLoader.ts] reads.
    The two optional keys are either left out of the object ([None]) or
    written out, possibly with the value [undefined] ([Some None]). *)
Record ProjectLoadingParameters := {
  id : RemoteRepoRef;
  readOnly : bool;
  cloneOptionsKey : option (option (gmap string Prim));
  contextKey : option (option HandlerContext)
}.

#[global] Instance ProjectLoadingParameters_eq_dec :
  EqDecision ProjectLoadingParameters.
Proof. solve_decision. Defined.

(** The reads [params.cloneOptions] and [params.context]: a key that is
    left out reads like a key that holds [undefined]. *)
Definition cloneOptions (params : ProjectLoadingParameters)
  : option (gmap string Prim) :=
  match cloneOptionsKey params with Some v => v | None => None end.

Definition context (params : ProjectLoadingParameters) : option HandlerContext :=
  match contextKey params with Some v => v | None => None end.

(** The same reads as values. *)
Definition cloneOptionsValue (params : ProjectLoadingParameters) : Value :=
  from_option VCloneOptions undefined (cloneOptions params).

Definition contextValue (params : ProjectLoadingParameters) : Value :=
  from_option VContext undefined (context params).

(** The own enumerable properties of a parameters object: [id] and
    [readOnly], and each optional key that is written out. *)
Definition paramsProps (params : ProjectLoadingParameters) : gmap string Value :=
  <["id" := VRepoRef (id params)]>
  (<["readOnly" := VPrim (PBool (readOnly params))]>
  (from_option
     (λ v, <["cloneOptions" := from_option VCloneOptions undefined v]>) (λ m, m)
     (cloneOptionsKey params)
  (from_option
     (λ v, <["context" := from_option VContext undefined v]>) (λ m, m)
     (contextKey params) ∅))).

(** The clone options an object holds as an own property; [undefined] when
    it holds none. *)
Definition ownCloneOptions (o : JsObject) : Value :=
  default undefined (own o !! "cloneOptions").

Definition ownContext (o : JsObject) : Value :=
  default undefined (own o !! "context").

(** [{...project, ...params}]: a fresh plain object that receives the own
    enumerable properties of [project], then those of [params] (later
    spreads win, a key that [params] leaves out keeps the value it has in
    [project]).  Nothing is copied from the prototype of [project], and
    [params] declares no [baseDir]. *)
Definition spread (project : JsObject) (params : ProjectLoadingParameters)
  : JsObject :=
  {| baseDir := baseDir project;
     own := paramsProps params ∪ own project;
     inherited := ∅ |}.

(** [_.isEqual]: deep comparison by value.  Values are finite trees whose
    object nodes are extensional maps, so two values are deep-equal exactly
    when they are the same tree. *)
Definition isEqual (a b : Value) : bool := bool_decide (a = b).

(** ** Storage *)

(** [dirs] are the paths present on storage.  [denied] are paths on which
    [fs.access] is rejected although they are present; [busy] are paths on
    which [fs.remove] is rejected. *)
Record FileSys := {
  dirs : gset string;
  denied : gset string;
  busy : gset string
}.

(** A string is truthy unless it is empty. *)
Definition truthy (s : string) : bool := negb (bool_decide (s = "")).

(** [fs.pathExists(path)] never rejects.  The empty path names nothing. *)
Definition pathExists (fs : FileSys) (path : string) : bool :=
  truthy path && bool_decide (path ∈ dirs fs).

(** [fs.access(path)] resolves iff the path is present and not denied. *)
Definition access (fs : FileSys) (path : string) : bool :=
  pathExists fs path && negb (bool_decide (path ∈ denied fs)).

(** [q] is [path] itself or lies below it. *)
Definition within (path q : string) : bool :=
  bool_decide (q = path) || String.prefix (path +:+ "/") q.

(** [fs.remove(path)]: recursive removal, [None] when it is rejected.
    Removing a path that is not there succeeds. *)
Definition remove (fs : FileSys) (path : string) : option FileSys :=
  if bool_decide (path ∈ busy fs) then None
  else Some {| dirs := filter (λ q, within path q = false) (dirs fs);
               denied := denied fs;
               busy := busy fs |}.

(** ** Outcomes, events and the state *)

Definition Error := string.

(** A settled promise: fulfilled with a value or rejected with an error. *)
Inductive Result (A : Type) :=
| Ok (a : A)
| Throw (e : Error).
Arguments Ok {A} a.
Arguments Throw {A} e.

Inductive Level := debug | warn.

Inductive Reason := timeout | disposal | eviction | shutdown.

#[global] Instance Reason_eq_dec : EqDecision Reason.
Proof. solve_decision. Defined.

(** What the loader does to its collaborators, in order. *)
Inductive Event :=
| Log (level : Level) (message : string)
| Materialize (params : ProjectLoadingParameters)   (* delegate.doWithProject *)
| Invoke (project : JsObject)                       (* action(project) *)
| FsRemove (dir : string) (ok : bool).              (* fs.remove(dir) *)

(** The closure [async () => this.cleanUp(p.baseDir, reason)]: it captures
    the project and reads [baseDir] when it runs. *)
Record Thunk := {
  captured : JsObject;
  reason : Reason
}.

(** A [setTimeout] registration. *)
Record Timer := {
  callback : Thunk;
  delay : Z;
  unrefd : bool
}.

(** Where a call of [cleanUp] that has been started and is not finished
    is waiting: at [await fs.pathExists(dir)], with the answer of the file
    system, or at [await fs.remove(dir)], with the outcome of the removal. *)
Inductive Suspended :=
| AtPathExists (dir : string) (reason : Reason) (found : bool)
| AtRemove (dir : string) (outcome : Result unit).

(** Modelled from the spec: the class [LruCache] (./support/LruCache.ts)
    is missing.  Section 4.2 describes a bounded store with capacity N and
    least-recently-used eviction, and statistics for diagnostics.  [values]
    keeps the entries from least to most recently used. *)
Record LruCache := {
  maxEntries : nat;
  values : list (string * JsObject);
  gets : nat;
  hits : nat
}.

Record State := {
  cache : LruCache;                     (* this.cache *)
  deleteOnExit : list string;           (* this.deleteOnExit *)
  fs : FileSys;
  timers : list Timer;
  disposables : list (nat * Thunk);     (* lifecycle.registerDisposable *)
  inflight : list Suspended;            (* calls of cleanUp nobody awaits *)
  trace : list Event
}.

Definition set_cache (c : LruCache) (st : State) : State :=
  {| cache := c; deleteOnExit := deleteOnExit st; fs := fs st;
     timers := timers st; disposables := disposables st;
     inflight := inflight st; trace := trace st |}.

Definition set_deleteOnExit (l : list string) (st : State) : State :=
  {| cache := cache st; deleteOnExit := l; fs := fs st;
     timers := timers st; disposables := disposables st;
     inflight := inflight st; trace := trace st |}.

Definition set_fs (f : FileSys) (st : State) : State :=
  {| cache := cache st; deleteOnExit := deleteOnExit st; fs := f;
     timers := timers st; disposables := disposables st;
     inflight := inflight st; trace := trace st |}.

Definition set_timers (t : list Timer) (st : State) : State :=
  {| cache := cache st; deleteOnExit := deleteOnExit st; fs := fs st;
     timers := t; disposables := disposables st;
     inflight := inflight st; trace := trace st |}.

Definition set_disposables (d : list (nat * Thunk)) (st : State) : State :=
  {| cache := cache st; deleteOnExit := deleteOnExit st; fs := fs st;
     timers := timers st; disposables := d;
     inflight := inflight st; trace := trace st |}.

Definition set_inflight (q : list Suspended) (st : State) : State :=
  {| cache := cache st; deleteOnExit := deleteOnExit st; fs := fs st;
     timers := timers st; disposables := disposables st;
     inflight := q; trace := trace st |}.

Definition emit (e : Event) (st : State) : State :=
  {| cache := cache st; deleteOnExit := deleteOnExit st; fs := fs st;
     timers := timers st; disposables := disposables st;
     inflight := inflight st; trace := trace st ++ [e] |}.

(** ** The monad of asynchronous methods *)

Definition M (A : Type) : Type := State → Result A * State.

Definition ret {A} (a : A) : M A := λ st, (Ok a, st).

Definition bind {A B} (m : M A) (k : A → M B) : M B := λ st,
  match m st with
  | (Ok a, st') => k a st'
  | (Throw e, st') => (Throw e, st')
  end.

Definition modify (f : State → State) : M unit := λ st, (Ok tt, f st).

Definition read {A} (f : State → A) : M A := λ st, (Ok (f st), st).

(** [try { m } catch (err) { h err }] *)
Definition try_catch {A} (m : M A) (h : Error → M A) : M A := λ st,
  match m st with
  | (Ok a, st') => (Ok a, st')
  | (Throw e, st') => h e st'
  end.

(** The outcome of [m] as a value: what [await] hands to the code around
    it. *)
Definition attempt {A} (m : M A) : M (Result A) := λ st,
  let '(r, st') := m st in (Ok r, st').

#[global] Instance M_ret : MRet M := @ret.
#[global] Instance M_bind : MBind M := λ A B k m, bind m k.

Definition logger (level : Level) (message : string) : M unit :=
  modify (emit (Log level message)).

(** ** The cache store *)

(** Modelled from the spec: the operations [get], [put] and [evict] of
    the missing class [LruCache].  Section 4.2:
    [get(key)] returns the entry or nothing; [put(key, entry)] stores the
    entry as the most recently used one, and when this insertion exceeds
    the capacity the least recently used entry (by last [get] or [put]) is
    evicted, which at capacity 0 is the entry just put;
    eviction calls the injected callback on the entry, a failing callback
    is logged and not retried; evicting an absent key does nothing.  The
    store does not wait for what the callback has started. *)
Fixpoint entryOf (key : string) (vs : list (string * JsObject))
  : option JsObject :=
  match vs with
  | [] => None
  | (k, v) :: vs' => if decide (k = key) then Some v else entryOf key vs'
  end.

Definition without (key : string) (vs : list (string * JsObject))
  : list (string * JsObject) :=
  filter (λ kv, kv.1 ≠ key) vs.

Definition set_values (vs : list (string * JsObject)) (c : LruCache)
  : LruCache :=
  {| maxEntries := maxEntries c; values := vs; gets := gets c; hits := hits c |}.

Definition count_get (hit : bool) (c : LruCache) : LruCache :=
  {| maxEntries := maxEntries c; values := values c; gets := S (gets c);
     hits := if hit then S (hits c) else hits c |}.

Definition update_cache (f : LruCache → LruCache) : M unit :=
  modify (λ st, set_cache (f (cache st)) st).

Definition cache_get (key : string) : M (option JsObject) :=
  c ← read cache;
  match entryOf key (values c) with
  | Some e =>
      update_cache (λ c, set_values (without key (values c) ++ [(key, e)])
                                    (count_get true c));;
      mret (Some e)
  | None =>
      update_cache (count_get false);;
      mret None
  end.

Definition cache_evict (evictCallback : JsObject → M unit) (key : string)
  : M unit :=
  c ← read cache;
  match entryOf key (values c) with
  | Some e =>
      try_catch (evictCallback e) (λ err, logger warn err);;
      update_cache (λ c, set_values (without key (values c)) c)
  | None => mret tt
  end.

Definition cache_put (evictCallback : JsObject → M unit) (key : string)
    (entry : JsObject) : M unit :=
  update_cache (λ c, set_values (without key (values c) ++ [(key, entry)]) c);;
  c ← read cache;
  if decide (maxEntries c < length (values c)) then
    match values c with
    | (lru, _) :: _ => cache_evict evictCallback lru
    | [] => mret tt
    end
  else mret tt.

(** ** Arrays *)

(** [Array.prototype.indexOf]: the first index of [x], or -1. *)
Fixpoint indexOf (x : string) (l : list string) : Z :=
  match l with
  | [] => (-1)%Z
  | y :: l' =>
      if decide (y = x) then 0%Z
      else let i := indexOf x l' in
           if (i <? 0)%Z then (-1)%Z else (i + 1)%Z
  end.

(** [Array.prototype.slice(start, end)]: a copy of the elements from
    [start] up to, not including, [end]; negative indices count from the
    end.  The array itself is left as it is. *)
Definition clampIndex (n : nat) (i : Z) : nat :=
  if (i <? 0)%Z then Z.to_nat (Z.max (Z.of_nat n + i) 0)
  else Nat.min (Z.to_nat i) n.

Definition slice (l : list string) (start stop : Z) : list string :=
  let s := clampIndex (length l) start in
  let e := clampIndex (length l) stop in
  take (e - s) (drop s l).

(** ** The loader *)

(** A [ProjectLoader] used as delegate: it fails, or produces a project
    and hands it to the callback of [save].  It may change storage. *)
Definition Materializer : Type :=
  ProjectLoadingParameters → FileSys → Result JsObject * FileSys.

(** [WithLoadedProject<T>]: the caller's action; it may change storage. *)
Definition WithLoadedProject (T : Type) : Type :=
  JsObject → FileSys → Result T * FileSys.

(** [save(pl, params)] *)
Definition save (pl : Materializer) (params : ProjectLoadingParameters)
  : M JsObject := λ st,
  let st1 := emit (Materialize params) st in
  let '(r, fs') := pl params (fs st1) in
  (r, set_fs fs' st1).

(** [action(project)] *)
Definition invoke {T} (action : WithLoadedProject T) (project : JsObject)
  : M T := λ st,
  let st1 := emit (Invoke project) st in
  let '(r, fs') := action project (fs st1) in
  (r, set_fs fs' st1).

(** [await fs.remove(dir)] *)
Definition fs_remove (dir : string) : M unit := λ st,
  match remove (fs st) dir with
  | Some fs' => (Ok tt, emit (FsRemove dir true) (set_fs fs' st))
  | None => (Throw "EBUSY", emit (FsRemove dir false) st)
  end.

(** [await promisify(fs.access)(path)] *)
Definition fs_access (path : string) : M unit := λ st,
  if access (fs st) path then (Ok tt, st) else (Throw "EACCES", st).

(** [cleanUp(dir, reason)] *)
Definition cleanUp (dir : string) (reason : Reason) : M unit :=
  fsys ← read fs;
  if truthy dir && pathExists fsys dir then
    (if decide (reason = timeout)
     then logger debug "Deleting project '%s' because a timeout passed"
     else logger debug "Deleting project '%s' because %s was triggered");;
    try_catch
      (fs_remove dir;;
       l ← read deleteOnExit;
       let ix := indexOf dir l in
       if (0 <=? ix)%Z
       then (let _ := slice l ix 1 in mret tt)
       else mret tt)
      (λ err, logger warn err)
  else mret tt.

(** The same method in the pieces between its suspension points.
    [cleanUpStart] is the call up to [await fs.pathExists(dir)]: an empty
    [dir] ends the call at once, otherwise the file system is asked and the
    call waits with the answer. *)
Definition cleanUpStart (dir : string) (reason : Reason)
  : M (option Suspended) :=
  if truthy dir then
    fsys ← read fs;
    mret (Some (AtPathExists dir reason (pathExists fsys dir)))
  else mret None.

(** [resume] runs a waiting call up to its next suspension point, or to
    its end. *)
Definition resume (s : Suspended) : M (option Suspended) :=
  match s with
  | AtPathExists dir reason found =>
      if found then
        (if decide (reason = timeout)
         then logger debug "Deleting project '%s' because a timeout passed"
         else logger debug "Deleting project '%s' because %s was triggered");;
        outcome ← attempt (fs_remove dir);
        mret (Some (AtRemove dir outcome))
      else mret None
  | AtRemove dir (Ok _) =>
      l ← read deleteOnExit;
      let ix := indexOf dir l in
      (if (0 <=? ix)%Z
       then (let _ := slice l ix 1 in mret tt)
       else mret tt);;
      mret None
  | AtRemove dir (Throw err) =>
      logger warn err;;
      mret None
  end.

Fixpoint startAll (calls : list (M (option Suspended))) : M (list Suspended) :=
  match calls with
  | [] => mret []
  | call :: rest =>
      s ← call;
      l ← startAll rest;
      mret (option_list s ++ l)
  end.

Fixpoint resumeAll (waiting : list Suspended) : M (list Suspended) :=
  match waiting with
  | [] => mret []
  | s :: rest =>
      s' ← resume s;
      l ← resumeAll rest;
      mret (option_list s' ++ l)
  end.

(** [await Promise.all(l.map(f))], where every [f(x)] is a call of
    [cleanUp]: the calls are started in the order of the array, each up to
    its first [await]; then the waiting calls are resumed, in that order,
    until all of them have ended. *)
Definition awaitAll (calls : list (M (option Suspended))) : M unit :=
  started ← startAll calls;
  removing ← resumeAll started;
  resumeAll removing;;
  mret tt.

(** [for (const x of l) { await f(x); }]: each call has ended before the
    next one starts. *)
Fixpoint inTurn {A} (f : A → M unit) (l : list A) : M unit :=
  match l with
  | [] => mret tt
  | x :: l' => f x;; inTurn f l'
  end.

(** The callbacks handed to the timer queue and to the lifecycle handle:
    as a whole, and up to their first suspension point. *)
Definition runThunk (t : Thunk) : M unit :=
  cleanUp (baseDir (captured t)) (reason t).

Definition startThunk (t : Thunk) : M (option Suspended) :=
  cleanUpStart (baseDir (captured t)) (reason t).

(** The runtime resumes the call in flight at position [i]; a call that
    suspends again goes to the end of the queue. *)
Definition resumeAt (i : nat) : M unit :=
  q ← read inflight;
  match q !! i with
  | Some s =>
      modify (set_inflight (delete i q));;
      s' ← resume s;
      modify (λ st, set_inflight (inflight st ++ option_list s') st)
  | None => mret tt
  end.

(** The runtime resumes every call in flight, in the order in which they
    were started, until all of them have ended. *)
Definition settle : M unit :=
  q ← read inflight;
  modify (set_inflight []);;
  removing ← resumeAll q;
  resumeAll removing;;
  mret tt.

Section CachingProjectLoader.

(** [private readonly delegate: ProjectLoader] *)
Variable delegate : Materializer.

(** [cacheKeyForSha] (./support/cacheKey.ts) and the test
    [sha({exact: true}).test] of the package sha-regex are missing; the
    loader is read for any key function and any hash test. *)
Variable cacheKeyForSha : RemoteRepoRef → string.
Variable shaExact : string → bool.

(** The eviction callback given to the cache by the constructor:
    [p => this.cleanUp(p.baseDir, "eviction")].  The cache calls it and
    does not wait: the call is started and stays in flight. *)
Definition evictCallback (p : JsObject) : M unit :=
  s ← cleanUpStart (baseDir p) eviction;
  modify (λ st, set_inflight (inflight st ++ option_list s) st).

(** [cachedProjectIsValid(project, params)] *)
Definition cachedProjectIsValid (project : JsObject)
    (params : ProjectLoadingParameters) : M bool :=
  if negb (isEqual (getProp project "cloneOptions") (cloneOptionsValue params))
  then mret false
  else
    try_catch
      (fs_access (baseDir project);;
       mret true)
      (λ _, mret false).

(** [saveAndRunAction(delegate, params, action)] *)
Definition saveAndRunAction {T} (params : ProjectLoadingParameters)
    (action : WithLoadedProject T) : M T :=
  p ← save delegate params;
  match context params ≫= lifecycle with
  | Some handle =>
      modify (λ st, set_disposables
        (disposables st ++ [(handle, {| captured := p; reason := disposal |})]) st)
  | None =>
      modify (λ st, set_timers
        (timers st ++ [{| callback := {| captured := p; reason := timeout |};
                          delay := 10000; unrefd := true |}]) st);;
      modify (λ st, set_deleteOnExit (deleteOnExit st ++ [baseDir p]) st)
  end;;
  invoke action p.

(** [doWithProject(params, action)] *)
Definition doWithProject {T} (params : ProjectLoadingParameters)
    (action : WithLoadedProject T) : M T :=
  if negb (readOnly params) then
    logger debug "Forcing fresh clone for non readonly use of '%j'";;
    saveAndRunAction params action
  else if negb (shaExact (sha (id params))) then
    logger debug "Forcing fresh clone for branch use of '%j'";;
    saveAndRunAction params action
  else
    logger debug "Attempting to reuse clone for readonly use of '%j'";;
    let key := cacheKeyForSha (id params) in
    cached ← cache_get key;
    project ← match cached return M (option JsObject) with
              | Some entry =>
                  valid ← cachedProjectIsValid entry params;
                  if valid : bool then mret (Some entry)
                  else
                    logger debug "Evicting project '%j' from cache";;
                    cache_evict evictCallback key;;
                    mret None
              | None => mret None
              end;
    project ← match project return M JsObject with
              | Some entry => mret entry
              | None =>
                  fresh ← save delegate params;
                  logger debug "Caching project '%j' at '%s'";;
                  cache_put evictCallback key (spread fresh params);;
                  mret fresh
              end;
    logger debug "About to invoke action. Cache stats: %j";;
    invoke action project.

(** The hook the constructor hands to [registerShutdownHook]. *)
Definition shutdownHook : M Z :=
  l ← read deleteOnExit;
  (if decide (0 < length l) then logger debug "Deleting cached projects"
   else mret tt);;
  awaitAll (map (λ p, cleanUpStart p shutdown) l);;
  mret 0%Z.

End CachingProjectLoader.

(** [maxEntries: number = 20] *)
Definition defaultMaxEntries : nat := 20.

(** The constructor: an empty cache of the given capacity and an empty
    [deleteOnExit] list, in front of the given storage.  The shutdown hook
    is registered with a timeout of 10000 ms. *)
Definition newLoader (maxEntries : option nat) (storage : FileSys) : State :=
  {| cache := {| maxEntries := default defaultMaxEntries maxEntries;
                 values := []; gets := 0; hits := 0 |};
     deleteOnExit := [];
     fs := storage;
     timers := [];
     disposables := [];
     inflight := [];
     trace := [] |}.

Definition shutdownHookTimeout : Z := 10000.

(** ** Concrete collaborators, for running the loader *)

Module Sample.

Definition isHexDigit (c : Ascii.ascii) : bool :=
  let n := Ascii.nat_of_ascii c in
  ((48 <=? n) && (n <=? 57)) || ((97 <=? n) && (n <=? 102)).

Fixpoint allHex (s : string) : bool :=
  match s with
  | EmptyString => true
  | String c s' => isHexDigit c && allHex s'
  end.

(** Modelled from the spec: the exact-hash test of the package sha-regex,
    which is missing.  Section 4.1: a syntactically valid exact commit
    hash is a fixed-length hexadecimal string (40 digits for a git
    commit). *)
Definition shaExact (s : string) : bool :=
  (String.length s =? 40) && allHex s.

(** Modelled from the spec: [cacheKeyForSha] (./support/cacheKey.ts),
    which is missing.  Section 3: the key is a function of the repository
    identity and the exact commit hash. *)
Definition cacheKeyForSha (r : RemoteRepoRef) : string :=
  owner r +:+ "/" +:+ repo r +:+ ":" +:+ sha r.

(** A delegate in the manner of [CloningProjectLoader]: it clones into a
    directory named after the repository and the revision. *)
Definition cloneDir (r : RemoteRepoRef) : string :=
  "/tmp/" +:+ repo r +:+ "-" +:+ sha r.

Definition cloned (params : ProjectLoadingParameters) : JsObject :=
  {| baseDir := cloneDir (id params);
     own := {[ "id" := VRepoRef (id params) ]};
     inherited := {[ "findFile" := VFunction "findFile" ]} |}.

Definition withDir (dir : string) (storage : FileSys) : FileSys :=
  {| dirs := {[ dir ]} ∪ dirs storage;
     denied := denied storage;
     busy := busy storage |}.

Definition delegate : Materializer := λ params storage,
  (Ok (cloned params), withDir (cloneDir (id params)) storage).

(** A delegate that cannot reach the remote. *)
Definition offline : Materializer := λ params storage,
  (Throw "clone failed", storage).

(** A delegate that refuses to clone into a directory that is there. *)
Definition picky : Materializer := λ params storage,
  if pathExists storage (cloneDir (id params))
  then (Throw "destination exists", storage)
  else delegate params storage.

(** A delegate whose checkouts remember the options they were cloned
    with, as a property of their own. *)
Definition clonedShallow (params : ProjectLoadingParameters) : JsObject :=
  {| baseDir := cloneDir (id params);
     own := {[ "id" := VRepoRef (id params);
               "cloneOptions" := VCloneOptions {[ "depth" := PNum 1 ]} ]};
     inherited := {[ "findFile" := VFunction "findFile" ]} |}.

Definition remembering : Materializer := λ params storage,
  (Ok (clonedShallow params), withDir (cloneDir (id params)) storage).

(** An action that reports the path it was given. *)
Definition whereAmI : WithLoadedProject string := λ p storage,
  (Ok (baseDir p), storage).

Definition emptyStorage : FileSys :=
  {| dirs := ∅; denied := ∅; busy := ∅ |}.

Definition hashA : string := "aaaaaaaaaaaaaaaaaaaaaaaaaaaaaaaaaaaaaaaa".
Definition hashB : string := "bbbbbbbbbbbbbbbbbbbbbbbbbbbbbbbbbbbbbbbb".
Definition hashC : string := "cccccccccccccccccccccccccccccccccccccccc".

(** A request that leaves out both optional keys. *)
Definition request (revision : string) (ro : bool) : ProjectLoadingParameters :=
  {| id := {| owner := "o"; repo := "r"; sha := revision |};
     readOnly := ro;
     cloneOptionsKey := None;
     contextKey := None |}.

Definition shallow (params : ProjectLoadingParameters)
  : ProjectLoadingParameters :=
  {| id := id params;
     readOnly := readOnly params;
     cloneOptionsKey := Some (Some {[ "depth" := PNum 1 ]});
     contextKey := contextKey params |}.

(** The same request made on behalf of a handler with lifecycle handle
    [handle]. *)
Definition scoped (handle : nat) (params : ProjectLoadingParameters)
  : ProjectLoadingParameters :=
  {| id := id params;
     readOnly := readOnly params;
     cloneOptionsKey := cloneOptionsKey params;
     contextKey := Some (Some {| lifecycle := Some handle |}) |}.

Definition load {T} := @doWithProject delegate cacheKeyForSha shaExact T.

(** A branch request, a request pinned to a commit, a new loader. *)
Definition main : ProjectLoadingParameters := request "main" true.
Definition pinned : ProjectLoadingParameters := request hashA true.
Definition started : State := newLoader None emptyStorage.

(** Three pinned requests with different hashes. *)
Definition queue : list (ProjectLoadingParameters * WithLoadedProject string) :=
  [(request hashA true, whereAmI);
   (request hashB true, whereAmI);
   (request hashC true, whereAmI)].

(** The loader after a pinned request whose clone directory has then
    been deleted behind its back. *)
Definition deletedOutOfBand : State :=
  set_fs emptyStorage (load pinned whereAmI started).2.

(** Storage on which the clone directory of branch "main" rejects
    removal. *)
Definition stuckStorage : FileSys :=
  {| dirs := ∅; denied := ∅; busy := {[ "/tmp/r-main" ]} |}.

End Sample.

(** ** Reading the trace *)

Definition materializations (t : list Event) : list ProjectLoadingParameters :=
  omap (λ e, match e with Materialize p => Some p | _ => None end) t.

Definition invocations (t : list Event) : list JsObject :=
  omap (λ e, match e with Invoke p => Some p | _ => None end) t.

(** The calls of [fs.remove] on [dir], whatever their outcome. *)
Definition removeCalls (dir : string) (t : list Event) : list bool :=
  omap (λ e, match e with
             | FsRemove d ok => if decide (d = dir) then Some ok else None
             | _ => None
             end) t.

Definition warnings (t : list Event) : list string :=
  omap (λ e, match e with Log warn m => Some m | _ => None end) t.

(** The log lines, whatever their level. *)
Definition logLines (t : list Event) : list string :=
  omap (λ e, match e with Log _ m => Some m | _ => None end) t.

(** ** Closed forms of the state changes *)

(** Storage after [fs.remove(dir)], accepted or rejected. *)
Definition removing (dir : string) (fsys : FileSys) : FileSys :=
  default fsys (remove fsys dir).

(** Storage after a reclamation of [dir] that runs in one piece. *)
Definition reclaim (fsys : FileSys) (dir : string) : FileSys :=
  if truthy dir && pathExists fsys dir
  then default fsys (remove fsys dir)
  else fsys.

Definition cleanUpMessage (r : Reason) : string :=
  if decide (r = timeout)
  then "Deleting project '%s' because a timeout passed"
  else "Deleting project '%s' because %s was triggered".

(** What [cleanUp] leaves behind when it runs in one piece, written out. *)
Definition afterCleanUp (dir : string) (r : Reason) (st : State) : State :=
  if truthy dir && pathExists (fs st) dir then
    let st1 := emit (Log debug (cleanUpMessage r)) st in
    match remove (fs st) dir with
    | Some fs' => emit (FsRemove dir true) (set_fs fs' st1)
    | None => emit (Log warn "EBUSY") (emit (FsRemove dir false) st1)
    end
  else st.

(** What a call of [cleanUp] started on storage [fsys] leaves in flight. *)
Definition leftInFlight (dir : string) (r : Reason) (fsys : FileSys)
  : list Suspended :=
  if truthy dir then [AtPathExists dir r (pathExists fsys dir)] else [].

(** The directories that the calls in flight are going to remove: those
    whose existence check has answered yes. *)
Definition due (q : list Suspended) : list string :=
  omap (λ s, match s with
             | AtPathExists dir _ true => Some dir
             | _ => None
             end) q.

(** Storage after the removals of [dirs], one after the other. *)
Definition removingAll (dirs : list string) (fsys : FileSys) : FileSys :=
  foldl (λ f dir, removing dir f) fsys dirs.

(** What the cache operations leave behind when the eviction callback is
    the loader's. *)
Definition afterGet (key : string) (st : State) : State :=
  match entryOf key (values (cache st)) with
  | Some e =>
      set_cache (set_values (without key (values (cache st)) ++ [(key, e)])
                            (count_get true (cache st))) st
  | None => set_cache (count_get false (cache st)) st
  end.

Definition afterEvict (key : string) (st : State) : State :=
  match entryOf key (values (cache st)) with
  | Some e =>
      let st1 :=
        set_inflight (inflight st ++ leftInFlight (baseDir e) eviction (fs st)) st in
      set_cache (set_values (without key (values (cache st1))) (cache st1)) st1
  | None => st
  end.

Definition afterPut (key : string) (entry : JsObject) (st : State) : State :=
  let st1 :=
    set_cache (set_values (without key (values (cache st)) ++ [(key, entry)])
                          (cache st)) st in
  if decide (maxEntries (cache st1) < length (values (cache st1))) then
    match values (cache st1) with
    | (lru, _) :: _ => afterEvict lru st1
    | [] => st1
    end
  else st1.

(** The outcome of the validity check, as a function of storage. *)
Definition isValid (entry : JsObject) (params : ProjectLoadingParameters)
    (fsys : FileSys) : bool :=
  isEqual (getProp entry "cloneOptions") (cloneOptionsValue params)
  && access fsys (baseDir entry).

(** The registration made by [saveAndRunAction] for the checkout [p]. *)
Definition registered (params : ProjectLoadingParameters) (p : JsObject)
    (st : State) : State :=
  match context params ≫= lifecycle with
  | Some handle =>
      set_disposables
        (disposables st ++ [(handle, {| captured := p; reason := disposal |})]) st
  | None =>
      set_deleteOnExit (deleteOnExit st ++ [baseDir p])
        (set_timers
           (timers st ++ [{| callback := {| captured := p; reason := timeout |};
                             delay := 10000; unrefd := true |}]) st)
  end.

(** The state in which a cacheable request that is not served from the
    cache asks the delegate: the lookup is counted, a stale entry is out
    of the store and the reclamation of its directory is in flight. *)
Definition afterLookup (key : string) (st : State) : State :=
  let st1 := afterGet key (emit (Log debug "Attempting to reuse clone for readonly use of '%j'") st) in
  match entryOf key (values (cache st)) with
  | Some _ =>
      afterEvict key (emit (Log debug "Evicting project '%j' from cache") st1)
  | None => st1
  end.

(** The state in which the action of a cacheable request runs on a fresh
    checkout: the delegate has returned storage [fs1], the merged entry has
    been put. *)
Definition afterStore (key : string) (params : ProjectLoadingParameters)
    (fresh : JsObject) (fs1 : FileSys) (st : State) : State :=
  emit (Log debug "About to invoke action. Cache stats: %j")
    (afterPut key (spread fresh params)
       (emit (Log debug "Caching project '%j' at '%s'")
          (set_fs fs1 (emit (Materialize params) st)))).

(** The two kinds of request. *)
Definition bypass (shaExact : string → bool) (params : ProjectLoadingParameters)
  : Prop :=
  readOnly params = false ∨ shaExact (sha (id params)) = false.

Definition cacheable (shaExact : string → bool)
    (params : ProjectLoadingParameters) : Prop :=
  readOnly params = true ∧ shaExact (sha (id params)) = true.

Definition bypassMessage (params : ProjectLoadingParameters) : string :=
  if readOnly params
  then "Forcing fresh clone for branch use of '%j'"
  else "Forcing fresh clone for non readonly use of '%j'".

(** ** Reclamation triggers *)

(** The four places from which [cleanUp] is called: the idle timer, the
    disposal registered with a lifecycle handle, the eviction callback of
    the cache, and the shutdown hook going through [deleteOnExit]. *)
Inductive Trigger :=
| TimerFires (t : Thunk)
| Disposed (t : Thunk)
| Evicted (entry : JsObject)
| ShutdownFlush (path : string).

Definition pathOf (t : Trigger) : string :=
  match t with
  | TimerFires t => baseDir (captured t)
  | Disposed t => baseDir (captured t)
  | Evicted entry => baseDir entry
  | ShutdownFlush path => path
  end.

Definition reasonOf (t : Trigger) : Reason :=
  match t with
  | TimerFires t => reason t
  | Disposed t => reason t
  | Evicted _ => eviction
  | ShutdownFlush _ => shutdown
  end.

(** The call of [cleanUp] a trigger makes: run to its end, and up to its
    first suspension point. *)
Definition fire (t : Trigger) : M unit :=
  cleanUp (pathOf t) (reasonOf t).

Definition start (t : Trigger) : M (option Suspended) :=
  cleanUpStart (pathOf t) (reasonOf t).

(** The timer queue runs the callbacks whose delay has passed: they are
    started one after the other and resumed until they have ended.  The
    owner of a lifecycle handle runs the disposals registered with it, each
    to its end. *)
Definition fireTimers : M unit :=
  ts ← read timers;
  modify (set_timers []);;
  awaitAll (map (λ t, startThunk (callback t)) ts).

Definition dispose (handle : nat) : M unit :=
  ds ← read disposables;
  modify (set_disposables (filter (λ d, d.1 ≠ handle) ds));;
  inTurn (λ d, runThunk d.2) (filter (λ d, d.1 = handle) ds).

(** What has happened between two states when the runtime has resumed
    some of the calls in flight. *)
Inductive later : State → State → Prop :=
| later_now st : later st st
| later_resumed i st st' : later (resumeAt i st).2 st' → later st st'.

(** A step of cache management: it may change the cache contents and
    storage and may log, but it calls neither the delegate nor an action,
    and it leaves the registrations of the bypass path alone. *)
Definition housekeeping (st st' : State) : Prop :=
  materializations (trace st') = materializations (trace st) ∧
  invocations (trace st') = invocations (trace st) ∧
  deleteOnExit st' = deleteOnExit st ∧
  timers st' = timers st ∧
  disposables st' = disposables st ∧
  maxEntries (cache st') = maxEntries (cache st) ∧
  trace st `prefix_of` trace st'.

(** ** Sequences *)

(** Requests served one after the other; the result of each is handed to
    its caller and plays no part in the next. *)
Fixpoint serveAll (delegate : Materializer)
    (cacheKeyForSha : RemoteRepoRef → string) (shaExact : string → bool)
    {T} (requests : list (ProjectLoadingParameters * WithLoadedProject T))
    (st : State) : State :=
  match requests with
  | [] => st
  | (params, action) :: rest =>
      serveAll delegate cacheKeyForSha shaExact rest
        (doWithProject delegate cacheKeyForSha shaExact params action st).2
  end.

(** The operations of the store, as the loader uses them. *)
Inductive StoreOp :=
| Get (key : string)
| Put (key : string) (entry : JsObject)
| Evict (key : string).

Definition runOp (op : StoreOp) : M unit :=
  match op with
  | Get key => cache_get key;; mret tt
  | Put key entry => cache_put evictCallback key entry
  | Evict key => cache_evict evictCallback key
  end.

Definition runOps (ops : list StoreOp) (st : State) : State :=
  (inTurn runOp ops st).2.

(** The time of the last [get] or [put] of [key] in a sequence of
    operations: the position of that operation counted from 1, or 0 when
    [key] was never used. *)
Definition touches (key : string) (op : StoreOp) : bool :=
  match op with
  | Get k | Put k _ => bool_decide (k = key)
  | Evict _ => false
  end.

Fixpoint lastUse (key : string) (ops : list StoreOp) : nat :=
  match ops with
  | [] => 0
  | op :: ops' =>
      match lastUse key ops' with
      | 0 => if touches key op then 1 else 0
      | S n => S (S n)
      end
  end.

(** [kv1] was last used before [kv2]. *)
Definition usedBefore (ops : list StoreOp) (kv1 kv2 : string * JsObject) : Prop :=
  lastUse kv1.1 ops < lastUse kv2.1 ops.

(** The store holds no more entries than its capacity. *)
Definition bounded (c : LruCache) : Prop :=
  length (values c) ≤ maxEntries c.

(** ** Well-behaved collaborators *)

(** A delegate that always delivers a checkout and does not change which
    paths reject removal. *)
Definition reliable (delegate : Materializer) : Prop :=
  ∀ params fs0, ∃ p fs1, delegate params fs0 = (Ok p, fs1) ∧ busy fs1 = busy fs0.

(** An action that leaves storage as it is. *)
Definition readOnlyAction {T} (action : WithLoadedProject T) : Prop :=
  ∀ p fs0, (action p fs0).2 = fs0.

(** ** Reclamation in the background *)

(** Reclamation in the background: storage only loses paths, the log only
    grows, and nothing else changes. *)
Definition reclaiming (st st' : State) : Prop :=
  cache st' = cache st ∧
  deleteOnExit st' = deleteOnExit st ∧
  timers st' = timers st ∧
  disposables st' = disposables st ∧
  materializations (trace st') = materializations (trace st) ∧
  invocations (trace st') = invocations (trace st) ∧
  trace st `prefix_of` trace st' ∧
  busy (fs st') = busy (fs st) ∧
  denied (fs st') = denied (fs st) ∧
  (∀ q, q ∈ dirs (fs st') → q ∈ dirs (fs st)).

(** Running the callback [cb] reclaims the directory [dir]: unless storage
    rejects the removal, the call succeeds and the directory is not on
    storage afterwards, [fs.remove] being called once when it was. *)
Definition reclaimsDir (cb : Thunk) (dir : string) : Prop :=
  ∀ s, dir ∉ busy (fs s) →
    (runThunk cb s).1 = Ok tt ∧
    pathExists (fs (runThunk cb s).2) dir = false ∧
    (pathExists (fs s) dir = true →
     removeCalls dir (trace (runThunk cb s).2) = removeCalls dir (trace s) ++ [true]).

(** ** Further notions used in the properties of the loader *)

(** An entry as [doWithProject] stores it: it carries the reference of a
    request pinned to an exact commit hash, it sits under the key of that
    reference, it is marked read-only and it is a plain object. *)
Definition fromCacheableRequest (cacheKeyForSha : RemoteRepoRef → string)
    (shaExact : string → bool) (kv : string * JsObject) : Prop :=
  ∃ r, getProp kv.2 "id" = VRepoRef r ∧
       kv.1 = cacheKeyForSha r ∧
       shaExact (sha r) = true ∧
       getProp kv.2 "readOnly" = VPrim (PBool true) ∧
       inherited kv.2 = ∅.

(** The calls of [cleanUp] that the shutdown hook has started for the
    listed paths, each waiting for the answer of its existence check on
    storage [fsys]; and the listed paths that these checks have found. *)
Definition flushing (fsys : FileSys) (l : list string) : list Suspended :=
  omap (λ p, if truthy p then Some (AtPathExists p shutdown (pathExists fsys p))
             else None) l.

Definition found (fsys : FileSys) (l : list string) : list string :=
  filter (λ p, pathExists fsys p = true) l.

(** The state in which the shutdown hook starts its calls. *)
Definition announced (st : State) : State :=
  if decide (0 < length (deleteOnExit st))
  then emit (Log debug "Deleting cached projects") st
  else st.

(** * Properties *)

Ltac unfold_m :=
  unfold logger, update_cache in *;
  unfold mbind, M_bind, bind, mret, M_ret, ret, modify, read, try_catch, attempt in *.

(** ** The reclamation routine *)

Lemma cleanUp_run dir r st : cleanUp dir r st = (Ok tt, afterCleanUp dir r st).
Proof.
  unfold cleanUp, afterCleanUp, cleanUpMessage, fs_remove. unfold_m.
  destruct (truthy dir && pathExists (fs st) dir) eqn:Hguard; [|done].
  destruct (decide (r = timeout)); simpl;
    destruct (remove (fs st) dir) eqn:Hrm; simpl; try done;
    by destruct (0 <=? indexOf dir (deleteOnExit st))%Z.
Qed.

Lemma cleanUp_ok dir r st : (cleanUp dir r st).1 = Ok tt.
Proof. by rewrite cleanUp_run. Qed.

Lemma fire_run t st :
  fire t st = (Ok tt, afterCleanUp (pathOf t) (reasonOf t) st).
Proof. apply cleanUp_run. Qed.

Lemma afterCleanUp_gone dir r st :
  pathExists (fs st) dir = false → afterCleanUp dir r st = st.
Proof. unfold afterCleanUp. intros ->. by rewrite andb_false_r. Qed.

Lemma within_refl path : within path path = true.
Proof. unfold within. by rewrite bool_decide_eq_true_2. Qed.

Lemma pathExists_truthy fsys dir : pathExists fsys dir = true → truthy dir = true.
Proof. unfold pathExists. by intros [? _]%andb_true_iff. Qed.

Lemma remove_gone fsys fs' dir :
  remove fsys dir = Some fs' → pathExists fs' dir = false.
Proof.
  unfold remove, pathExists. case_bool_decide; [done|].
  intros [= <-]. simpl. apply andb_false_intro2.
  apply bool_decide_eq_false_2. rewrite elem_of_filter.
  rewrite within_refl. by intros [? _].
Qed.

Lemma remove_clears_subtree fsys fs' dir q :
  remove fsys dir = Some fs' → within dir q = true → q ∉ dirs fs'.
Proof.
  unfold remove. case_bool_decide; [done|].
  intros [= <-] Hq. simpl. rewrite elem_of_filter, Hq. by intros [? _].
Qed.

Lemma remove_keeps_others fsys fs' dir q :
  remove fsys dir = Some fs' → within dir q = false → q ∈ dirs fs' ↔ q ∈ dirs fsys.
Proof.
  unfold remove. case_bool_decide; [done|].
  intros [= <-] Hq. simpl. rewrite elem_of_filter, Hq. by split; [intros [_ ?]|].
Qed.

Lemma remove_not_busy fsys dir :
  dir ∉ busy fsys → is_Some (remove fsys dir).
Proof. unfold remove. intros H. by rewrite bool_decide_eq_false_2. Qed.

Section StateProjections.

Context (dir : string) (r : Reason) (st : State).

Lemma afterCleanUp_cache : cache (afterCleanUp dir r st) = cache st.
Proof. unfold afterCleanUp. repeat case_match; done. Qed.

Lemma afterCleanUp_deleteOnExit :
  deleteOnExit (afterCleanUp dir r st) = deleteOnExit st.
Proof. unfold afterCleanUp. repeat case_match; done. Qed.

Lemma afterCleanUp_timers : timers (afterCleanUp dir r st) = timers st.
Proof. unfold afterCleanUp. repeat case_match; done. Qed.

Lemma afterCleanUp_disposables :
  disposables (afterCleanUp dir r st) = disposables st.
Proof. unfold afterCleanUp. repeat case_match; done. Qed.

Lemma afterCleanUp_inflight : inflight (afterCleanUp dir r st) = inflight st.
Proof. unfold afterCleanUp. repeat case_match; done. Qed.

Lemma afterCleanUp_fs : fs (afterCleanUp dir r st) = reclaim (fs st) dir.
Proof. unfold afterCleanUp, reclaim. repeat case_match; done. Qed.

Lemma afterCleanUp_materializations :
  materializations (trace (afterCleanUp dir r st)) = materializations (trace st).
Proof.
  unfold afterCleanUp, materializations.
  repeat case_match; simpl; rewrite ?omap_app; simpl; by rewrite ?app_nil_r.
Qed.

Lemma afterCleanUp_invocations :
  invocations (trace (afterCleanUp dir r st)) = invocations (trace st).
Proof.
  unfold afterCleanUp, invocations.
  repeat case_match; simpl; rewrite ?omap_app; simpl; by rewrite ?app_nil_r.
Qed.

End StateProjections.

(** ** Reading a trace that has grown *)

Lemma materializations_app t1 t2 :
  materializations (t1 ++ t2) = materializations t1 ++ materializations t2.
Proof. apply omap_app. Qed.

Lemma invocations_app t1 t2 :
  invocations (t1 ++ t2) = invocations t1 ++ invocations t2.
Proof. apply omap_app. Qed.

Lemma removeCalls_app dir t1 t2 :
  removeCalls dir (t1 ++ t2) = removeCalls dir t1 ++ removeCalls dir t2.
Proof. apply omap_app. Qed.

Lemma warnings_app t1 t2 : warnings (t1 ++ t2) = warnings t1 ++ warnings t2.
Proof. apply omap_app. Qed.

Lemma logLines_app t1 t2 : logLines (t1 ++ t2) = logLines t1 ++ logLines t2.
Proof. apply omap_app. Qed.

(** ** Storage under removals *)

Lemma removing_busy dir fsys : busy (removing dir fsys) = busy fsys.
Proof. unfold removing, remove. by case_bool_decide. Qed.

Lemma removing_denied dir fsys : denied (removing dir fsys) = denied fsys.
Proof. unfold removing, remove. by case_bool_decide. Qed.

Lemma removing_subset dir fsys q : q ∈ dirs (removing dir fsys) → q ∈ dirs fsys.
Proof.
  unfold removing, remove. case_bool_decide; [done|]. simpl.
  rewrite elem_of_filter. tauto.
Qed.

Lemma removing_keeps dir fsys q :
  within dir q = false → q ∈ dirs (removing dir fsys) ↔ q ∈ dirs fsys.
Proof.
  intros Hq. unfold removing, remove. case_bool_decide; [done|]. simpl.
  rewrite elem_of_filter. tauto.
Qed.

Lemma removing_exact dir fsys q :
  dir ∉ busy fsys →
  q ∈ dirs (removing dir fsys) ↔ q ∈ dirs fsys ∧ within dir q = false.
Proof.
  intros Hbusy. unfold removing, remove.
  rewrite bool_decide_eq_false_2 by done. simpl.
  rewrite elem_of_filter. tauto.
Qed.

Lemma removing_gone dir fsys :
  dir ∉ busy fsys → pathExists (removing dir fsys) dir = false.
Proof.
  intros Hbusy. unfold removing.
  destruct (remove_not_busy _ _ Hbusy) as [fs' Hrm]. rewrite Hrm. simpl.
  by eapply remove_gone.
Qed.

Lemma pathExists_false_subset f f' q :
  (∀ x, x ∈ dirs f' → x ∈ dirs f) →
  pathExists f q = false → pathExists f' q = false.
Proof.
  unfold pathExists. intros Hsub H.
  apply andb_false_iff in H as [->|H]; [done|].
  apply bool_decide_eq_false in H.
  rewrite (bool_decide_eq_false_2 (q ∈ dirs f')) by (intros Hin; by apply H, Hsub).
  apply andb_false_r.
Qed.

Lemma removing_stays_gone dir fsys q :
  pathExists fsys q = false → pathExists (removing dir fsys) q = false.
Proof. apply pathExists_false_subset. intros x. apply removing_subset. Qed.

Lemma removingAll_busy l fsys : busy (removingAll l fsys) = busy fsys.
Proof.
  unfold removingAll. revert fsys. induction l as [|d l IH]; intros fsys; [done|].
  simpl. by rewrite IH, removing_busy.
Qed.

Lemma removingAll_denied l fsys : denied (removingAll l fsys) = denied fsys.
Proof.
  unfold removingAll. revert fsys. induction l as [|d l IH]; intros fsys; [done|].
  simpl. by rewrite IH, removing_denied.
Qed.

Lemma removingAll_subset l fsys q :
  q ∈ dirs (removingAll l fsys) → q ∈ dirs fsys.
Proof.
  unfold removingAll. revert fsys. induction l as [|d l IH]; intros fsys; [done|].
  simpl. intros H. by apply (removing_subset d), IH.
Qed.

Lemma removingAll_stays_gone l fsys q :
  pathExists fsys q = false → pathExists (removingAll l fsys) q = false.
Proof. apply pathExists_false_subset. intros x. apply removingAll_subset. Qed.

Lemma removingAll_gone l fsys d :
  d ∈ l → d ∉ busy fsys → pathExists (removingAll l fsys) d = false.
Proof.
  unfold removingAll. revert fsys. induction l as [|d' l IH]; intros fsys Hin Hbusy.
  { by apply elem_of_nil in Hin. }
  simpl. apply elem_of_cons in Hin as [->|Hin].
  - apply (removingAll_stays_gone l). by apply removing_gone.
  - apply IH; [done|]. by rewrite removing_busy.
Qed.

Lemma removingAll_keeps l fsys q :
  Forall (λ d, within d q = false) l →
  q ∈ dirs (removingAll l fsys) ↔ q ∈ dirs fsys.
Proof.
  unfold removingAll. intros Hl. revert fsys.
  induction Hl as [|d l Hd _ IH]; intros fsys; [done|].
  simpl. rewrite IH. by apply removing_keeps.
Qed.

Lemma removingAll_app l1 l2 fsys :
  removingAll (l1 ++ l2) fsys = removingAll l2 (removingAll l1 fsys).
Proof. unfold removingAll. apply foldl_app. Qed.

Lemma reclaim_removing fsys dir :
  reclaim fsys dir = if pathExists fsys dir then removing dir fsys else fsys.
Proof.
  unfold reclaim, removing. destruct (pathExists fsys dir) eqn:Hex.
  - by rewrite (pathExists_truthy _ _ Hex).
  - by rewrite andb_false_r.
Qed.

(** ** A call of [cleanUp] in pieces *)

Lemma cleanUpStart_run dir r st :
  cleanUpStart dir r st
  = (Ok (if truthy dir then Some (AtPathExists dir r (pathExists (fs st) dir))
         else None), st).
Proof. unfold cleanUpStart. unfold_m. by destruct (truthy dir). Qed.

Lemma cleanUpStart_left dir r st :
  option_list (if truthy dir then Some (AtPathExists dir r (pathExists (fs st) dir))
               else None)
  = leftInFlight dir r (fs st).
Proof. unfold leftInFlight. by destruct (truthy dir). Qed.

(** What resuming a waiting call leaves behind, written out. *)
Lemma resume_found dir r st :
  resume (AtPathExists dir r true) st =
  let st1 := emit (Log debug (cleanUpMessage r)) st in
  match remove (fs st) dir with
  | Some fs' => (Ok (Some (AtRemove dir (Ok tt))),
                 emit (FsRemove dir true) (set_fs fs' st1))
  | None => (Ok (Some (AtRemove dir (Throw "EBUSY"))),
             emit (FsRemove dir false) st1)
  end.
Proof.
  unfold resume, cleanUpMessage, fs_remove. unfold_m.
  destruct (decide (r = timeout)); simpl; by destruct (remove (fs st) dir).
Qed.

Lemma resume_not_found dir r st :
  resume (AtPathExists dir r false) st = (Ok None, st).
Proof. done. Qed.

Lemma resume_removed dir u st : resume (AtRemove dir (Ok u)) st = (Ok None, st).
Proof.
  unfold resume. unfold_m. by destruct (0 <=? indexOf dir (deleteOnExit st))%Z.
Qed.

Lemma resume_rejected dir err st :
  resume (AtRemove dir (Throw err)) st = (Ok None, emit (Log warn err) st).
Proof. done. Qed.

(** Run to its end at once, a call does what [cleanUp] as a whole does. *)
Lemma cleanUp_in_pieces dir r st :
  cleanUp dir r st =
  (started ← cleanUpStart dir r;
   match started with
   | Some s =>
       waiting ← resume s;
       match waiting with
       | Some s' => resume s';; mret tt
       | None => mret tt
       end
   | None => mret tt
   end) st.
Proof.
  rewrite cleanUp_run.
  unfold afterCleanUp, cleanUpStart, resume, cleanUpMessage, fs_remove. unfold_m.
  destruct (truthy dir) eqn:Ht; simpl; [|done].
  destruct (pathExists (fs st) dir) eqn:Hex; simpl; [|done].
  destruct (decide (r = timeout)); simpl;
    destruct (remove (fs st) dir) as [fs'|] eqn:Hrm; simpl; try done;
    by destruct (0 <=? indexOf dir (deleteOnExit st))%Z.
Qed.

(** ** What resuming calls in flight can change *)


Lemma reclaiming_refl st : reclaiming st st.
Proof. by repeat split. Qed.

Lemma reclaiming_trans st1 st2 st3 :
  reclaiming st1 st2 → reclaiming st2 st3 → reclaiming st1 st3.
Proof.
  intros (?&?&?&?&?&?&?&?&?&?) (?&?&?&?&?&?&?&?&?&?).
  repeat split; try congruence; [by etrans|auto].
Qed.

Lemma reclaiming_log level message st :
  reclaiming st (emit (Log level message) st).
Proof.
  repeat split; simpl; try done.
  - by rewrite materializations_app, app_nil_r.
  - by rewrite invocations_app, app_nil_r.
  - by apply prefix_app_r.
Qed.

Lemma reclaiming_removal dir ok fs' st :
  busy fs' = busy (fs st) → denied fs' = denied (fs st) →
  (∀ q, q ∈ dirs fs' → q ∈ dirs (fs st)) →
  reclaiming st (emit (FsRemove dir ok) (set_fs fs' st)).
Proof.
  intros Hb Hd Hs. repeat split; simpl; try done.
  - by rewrite materializations_app, app_nil_r.
  - by rewrite invocations_app, app_nil_r.
  - by apply prefix_app_r.
Qed.

Lemma reclaiming_inflight q st : reclaiming st (set_inflight q st).
Proof. by repeat split. Qed.

Lemma resume_spec s st :
  ∃ next st',
    resume s st = (Ok next, st') ∧
    reclaiming st st' ∧
    inflight st' = inflight st ∧
    fs st' = removingAll (due [s]) (fs st) ∧
    due (option_list next) = [].
Proof.
  destruct s as [dir r [|]|dir [u|err]].
  - rewrite resume_found. cbv zeta. unfold removingAll. simpl.
    assert (reclaiming st
              (emit (FsRemove dir (bool_decide (is_Some (remove (fs st) dir))))
                 (set_fs (removing dir (fs st))
                    (emit (Log debug (cleanUpMessage r)) st)))) as Hrec.
    { eapply reclaiming_trans; [apply reclaiming_log|].
      apply reclaiming_removal; simpl.
      - apply removing_busy.
      - apply removing_denied.
      - intros q. apply removing_subset. }
    unfold removing in *.
    destruct (remove (fs st) dir) as [fs'|] eqn:Hrm; eexists _, _;
      (split; [done|]); by split_and!.
  - rewrite resume_not_found. eexists _, _. split; [done|].
    split_and!; first [done|apply reclaiming_refl].
  - rewrite resume_removed. eexists _, _. split; [done|].
    split_and!; first [done|apply reclaiming_refl].
  - rewrite resume_rejected. eexists _, _. split; [done|].
    split_and!; first [done|apply reclaiming_log].
Qed.

Lemma due_app q1 q2 : due (q1 ++ q2) = due q1 ++ due q2.
Proof. apply omap_app. Qed.

Lemma resumeAll_spec q st :
  ∃ next st',
    resumeAll q st = (Ok next, st') ∧
    reclaiming st st' ∧
    inflight st' = inflight st ∧
    fs st' = removingAll (due q) (fs st) ∧
    due next = [].
Proof.
  revert st. induction q as [|s q IH]; intros st.
  { exists [], st. split; [done|]. split_and!; first [done|apply reclaiming_refl]. }
  destruct (resume_spec s st) as (n & st1 & Hr & Hrec & Hq & Hfs & Hdue).
  destruct (IH st1) as (l & st2 & Hr' & Hrec' & Hq' & Hfs' & Hdue').
  exists (option_list n ++ l), st2. split.
  - simpl. unfold_m. by rewrite Hr, Hr'.
  - split_and!.
    + by eapply reclaiming_trans.
    + congruence.
    + rewrite Hfs', Hfs. change (s :: q) with ([s] ++ q).
      by rewrite due_app, removingAll_app.
    + by rewrite due_app, Hdue, Hdue'.
Qed.

Lemma option_list_omap {A B} (f : A → option B) (x : A) :
  omap f [x] = option_list (f x).
Proof. simpl. by destruct (f x). Qed.

(** The runtime, once it has resumed every call in flight: nothing is in
    flight any more, and storage has lost what those calls were to remove. *)
Lemma settle_spec st :
  ∃ st',
    settle st = (Ok tt, st') ∧
    reclaiming st st' ∧
    inflight st' = [] ∧
    fs st' = removingAll (due (inflight st)) (fs st).
Proof.
  unfold settle. unfold_m.
  destruct (resumeAll_spec (inflight st) (set_inflight [] st))
    as (l & st1 & -> & Hrec & Hq & Hfs & Hdue).
  destruct (resumeAll_spec l st1) as (l' & st2 & -> & Hrec' & Hq' & Hfs' & _).
  exists st2. split; [done|]. split_and!.
  - eapply reclaiming_trans; [apply (reclaiming_inflight [])|].
    by eapply reclaiming_trans.
  - by rewrite Hq', Hq.
  - by rewrite Hfs', Hdue, Hfs.
Qed.

Lemma settle_nothing st : inflight st = [] → (settle st).2 = set_inflight [] st.
Proof. unfold settle. unfold_m. by intros ->. Qed.

Lemma resumeAt_spec i st :
  (resumeAt i st).1 = Ok tt ∧ reclaiming st (resumeAt i st).2.
Proof.
  unfold resumeAt. unfold_m.
  destruct (inflight st !! i) as [s|]; [|split; [done|apply reclaiming_refl]].
  destruct (resume_spec s (set_inflight (delete i (inflight st)) st))
    as (n & st1 & -> & Hrec & _). simpl. split; [done|].
  eapply reclaiming_trans; [apply reclaiming_inflight|].
  eapply reclaiming_trans; [exact Hrec|apply reclaiming_inflight].
Qed.

Lemma later_reclaiming st st' : later st st' → reclaiming st st'.
Proof.
  induction 1 as [st|i st st' _ IH]; [apply reclaiming_refl|].
  eapply reclaiming_trans; [apply resumeAt_spec|exact IH].
Qed.

(** ** The cache store *)

Lemma cache_get_run key st :
  cache_get key st = (Ok (entryOf key (values (cache st))), afterGet key st).
Proof.
  unfold cache_get, afterGet. unfold_m.
  by destruct (entryOf key (values (cache st))).
Qed.

Lemma evictCallback_run p st :
  evictCallback p st
  = (Ok tt, set_inflight (inflight st ++ leftInFlight (baseDir p) eviction (fs st)) st).
Proof.
  unfold evictCallback. unfold_m. rewrite cleanUpStart_run.
  by rewrite cleanUpStart_left.
Qed.

Lemma cache_evict_run key st :
  cache_evict evictCallback key st = (Ok tt, afterEvict key st).
Proof.
  unfold cache_evict, afterEvict. unfold_m.
  destruct (entryOf key (values (cache st))); [|done].
  by rewrite evictCallback_run.
Qed.

Lemma cache_put_run key entry st :
  cache_put evictCallback key entry st = (Ok tt, afterPut key entry st).
Proof.
  unfold cache_put, afterPut. unfold_m. cbv zeta.
  set (st1 := set_cache _ st).
  destruct (decide (maxEntries (cache st1) < length (values (cache st1))));
    [|done].
  destruct (values (cache st1)) as [|[lru v] vs] eqn:Hvs; [done|].
  apply cache_evict_run.
Qed.

Lemma afterGet_fs key st : fs (afterGet key st) = fs st.
Proof. unfold afterGet. by case_match. Qed.

Lemma afterGet_trace key st : trace (afterGet key st) = trace st.
Proof. unfold afterGet. by case_match. Qed.

Lemma afterGet_deleteOnExit key st : deleteOnExit (afterGet key st) = deleteOnExit st.
Proof. unfold afterGet. by case_match. Qed.

Lemma afterGet_timers key st : timers (afterGet key st) = timers st.
Proof. unfold afterGet. by case_match. Qed.

Lemma afterGet_disposables key st : disposables (afterGet key st) = disposables st.
Proof. unfold afterGet. by case_match. Qed.


Lemma afterEvict_fs key st : fs (afterEvict key st) = fs st.
Proof. unfold afterEvict. by case_match. Qed.

Lemma afterEvict_trace key st : trace (afterEvict key st) = trace st.
Proof. unfold afterEvict. by case_match. Qed.

Lemma afterEvict_inflight key st :
  inflight (afterEvict key st) =
  inflight st ++
  match entryOf key (values (cache st)) with
  | Some e => leftInFlight (baseDir e) eviction (fs st)
  | None => []
  end.
Proof. unfold afterEvict. case_match; [done|by rewrite app_nil_r]. Qed.

Lemma afterPut_fs key entry st : fs (afterPut key entry st) = fs st.
Proof.
  unfold afterPut. cbv zeta.
  repeat case_match; rewrite ?afterEvict_fs; done.
Qed.

Lemma afterPut_trace key entry st : trace (afterPut key entry st) = trace st.
Proof.
  unfold afterPut. cbv zeta.
  repeat case_match; rewrite ?afterEvict_trace; done.
Qed.

(** ** Cache management is housekeeping *)

Lemma housekeeping_refl st : housekeeping st st.
Proof. by repeat split. Qed.

Lemma housekeeping_trans st1 st2 st3 :
  housekeeping st1 st2 → housekeeping st2 st3 → housekeeping st1 st3.
Proof.
  intros (?&?&?&?&?&?&?) (?&?&?&?&?&?&?).
  repeat split; try congruence. by etrans.
Qed.

Lemma housekeeping_log level message st :
  housekeeping st (emit (Log level message) st).
Proof.
  repeat split; simpl; try done.
  - unfold materializations. rewrite omap_app. simpl. by rewrite app_nil_r.
  - unfold invocations. rewrite omap_app. simpl. by rewrite app_nil_r.
  - by apply prefix_app_r.
Qed.

Lemma housekeeping_reclaiming st st' : reclaiming st st' → housekeeping st st'.
Proof. intros (Hc&?&?&?&?&?&?&_). repeat split; try done. by rewrite Hc. Qed.

Lemma housekeeping_cleanUp dir r st : housekeeping st (afterCleanUp dir r st).
Proof.
  repeat split.
  - apply afterCleanUp_materializations.
  - apply afterCleanUp_invocations.
  - apply afterCleanUp_deleteOnExit.
  - apply afterCleanUp_timers.
  - apply afterCleanUp_disposables.
  - by rewrite afterCleanUp_cache.
  - unfold afterCleanUp. repeat case_match; simpl; try done;
      rewrite <-?(assoc_L (++)); by apply prefix_app_r.
Qed.

Lemma housekeeping_get key st : housekeeping st (afterGet key st).
Proof. unfold afterGet. by case_match. Qed.

Lemma housekeeping_evict key st : housekeeping st (afterEvict key st).
Proof. unfold afterEvict. by case_match. Qed.

Lemma housekeeping_put key entry st : housekeeping st (afterPut key entry st).
Proof.
  unfold afterPut. cbv zeta.
  set (st1 := set_cache _ st).
  assert (housekeeping st st1) as Hst1 by (by repeat split).
  repeat case_match; try done.
  eapply housekeeping_trans; [exact Hst1|apply housekeeping_evict].
Qed.

Lemma housekeeping_lookup key st : housekeeping st (afterLookup key st).
Proof.
  unfold afterLookup.
  assert (housekeeping st
            (afterGet key (emit (Log debug "Attempting to reuse clone for readonly use of '%j'") st))).
  { eapply housekeeping_trans; [apply housekeeping_log|apply housekeeping_get]. }
  case_match; [|done].
  eapply housekeeping_trans; [done|].
  eapply housekeeping_trans; [apply housekeeping_log|apply housekeeping_evict].
Qed.

Lemma housekeeping_store key params fresh fs1 st :
  housekeeping (set_fs fs1 (emit (Materialize params) st))
               (afterStore key params fresh fs1 st).
Proof.
  unfold afterStore.
  eapply housekeeping_trans; [apply housekeeping_log|].
  eapply housekeeping_trans; [apply housekeeping_put|].
  apply housekeeping_log.
Qed.


(** ** Contents of the store *)

Lemma entryOf_app key vs ws :
  entryOf key (vs ++ ws) =
  match entryOf key vs with Some e => Some e | None => entryOf key ws end.
Proof.
  induction vs as [|[k v] vs IH]; simpl; [done|].
  by destruct (decide (k = key)).
Qed.

Lemma entryOf_without_eq key vs : entryOf key (without key vs) = None.
Proof.
  unfold without. induction vs as [|[k v] vs IH]; simpl; [done|].
  rewrite filter_cons. simpl. destruct (decide (k ≠ key)) as [Hne|Heq]; simpl.
  - by rewrite decide_False.
  - done.
Qed.

Lemma entryOf_without_ne key k vs :
  k ≠ key → entryOf key (without k vs) = entryOf key vs.
Proof.
  intros Hne. unfold without. induction vs as [|[k' v] vs IH]; simpl; [done|].
  rewrite filter_cons. simpl. destruct (decide (k' ≠ k)) as [Hne'|Heq]; simpl.
  - by rewrite IH.
  - apply dec_stable in Heq. subst k'. by rewrite decide_False.
Qed.

Lemma entryOf_refreshed key entry vs :
  entryOf key (without key vs ++ [(key, entry)]) = Some entry.
Proof.
  rewrite entryOf_app, entryOf_without_eq. simpl. by rewrite decide_True.
Qed.

Lemma entryOf_refreshed_ne key k entry vs :
  k ≠ key → entryOf key (without k vs ++ [(k, entry)]) = entryOf key vs.
Proof.
  intros Hne. rewrite entryOf_app, entryOf_without_ne by done. simpl.
  rewrite decide_False by done. by destruct (entryOf key vs).
Qed.

Lemma entryOf_None key vs : entryOf key vs = None ↔ key ∉ vs.*1.
Proof.
  induction vs as [|[k v] vs IH]; simpl.
  - split; [intros _; apply not_elem_of_nil|done].
  - rewrite not_elem_of_cons. destruct (decide (k = key)) as [->|Hne].
    + split; [done|by intros [? _]].
    + rewrite IH. split; [by intros ?|by intros [_ ?]].
Qed.

Lemma entryOf_elem key vs entry : entryOf key vs = Some entry → (key, entry) ∈ vs.
Proof.
  induction vs as [|[k v] vs IH]; simpl; [done|].
  destruct (decide (k = key)) as [->|Hne].
  - intros [= ->]. apply elem_of_cons. by left.
  - intros H. apply elem_of_cons. right. by apply IH.
Qed.

Lemma afterGet_entryOf key k st :
  entryOf k (values (cache (afterGet key st))) = entryOf k (values (cache st)).
Proof.
  unfold afterGet. destruct (entryOf key (values (cache st))) as [e|] eqn:He;
    simpl; [|done].
  destruct (decide (key = k)) as [->|Hne].
  - by rewrite entryOf_refreshed.
  - by rewrite entryOf_refreshed_ne.
Qed.

Lemma registered_trace params p st : trace (registered params p st) = trace st.
Proof. unfold registered. by case_match. Qed.

Lemma registered_fs params p st : fs (registered params p st) = fs st.
Proof. unfold registered. by case_match. Qed.

Lemma registered_cache params p st : cache (registered params p st) = cache st.
Proof. unfold registered. by case_match. Qed.

Lemma registered_inflight params p st : inflight (registered params p st) = inflight st.
Proof. unfold registered. by case_match. Qed.

(** ** The size of the store *)

Lemma without_length key vs : length (without key vs) ≤ length vs.
Proof. apply length_filter. Qed.

Lemma without_length_present key vs entry :
  entryOf key vs = Some entry → length (without key vs) < length vs.
Proof.
  unfold without. induction vs as [|[k v] vs IH]; simpl; [done|].
  rewrite filter_cons. simpl. destruct (decide (k = key)) as [->|Hne].
  - intros _. rewrite decide_False by (by intros ?).
    pose proof (length_filter (λ kv : string * JsObject, kv.1 ≠ key) vs). lia.
  - intros H. rewrite decide_True by done. simpl. specialize (IH H). lia.
Qed.

Lemma without_absent key vs :
  entryOf key vs = None → without key vs = vs.
Proof.
  unfold without. induction vs as [|[k v] vs IH]; simpl; [done|].
  rewrite filter_cons. simpl. destruct (decide (k = key)) as [->|Hne]; [done|].
  intros H. rewrite decide_True by done. by rewrite IH.
Qed.

Lemma without_fresh_head lru victim rest :
  lru ∉ rest.*1 → without lru ((lru, victim) :: rest) = rest.
Proof.
  intros Hnotin. unfold without. rewrite filter_cons. simpl.
  rewrite decide_False by (by intros ?).
  apply without_absent. by apply entryOf_None.
Qed.

Lemma afterEvict_values key st :
  values (cache (afterEvict key st)) = without key (values (cache st)).
Proof.
  unfold afterEvict. destruct (entryOf key (values (cache st))) eqn:He; [done|].
  symmetry. by apply without_absent.
Qed.

Lemma afterEvict_maxEntries key st :
  maxEntries (cache (afterEvict key st)) = maxEntries (cache st).
Proof. unfold afterEvict. by case_match. Qed.


Lemma bounded_get key st :
  bounded (cache st) → bounded (cache (afterGet key st)).
Proof.
  unfold bounded, afterGet.
  destruct (entryOf key (values (cache st))) as [e|] eqn:He; simpl; [|done].
  rewrite length_app. simpl.
  pose proof (without_length_present _ _ _ He). lia.
Qed.

Lemma bounded_evict key st :
  bounded (cache st) → bounded (cache (afterEvict key st)).
Proof.
  unfold bounded. rewrite afterEvict_values, afterEvict_maxEntries.
  pose proof (without_length key (values (cache st))). lia.
Qed.

Lemma afterPut_maxEntries key entry st :
  maxEntries (cache (afterPut key entry st)) = maxEntries (cache st).
Proof. by destruct (housekeeping_put key entry st) as (_&_&_&_&_&?&_). Qed.

Lemma afterPut_fits key entry st :
  length (without key (values (cache st))) < maxEntries (cache st) →
  afterPut key entry st =
  set_cache (set_values (without key (values (cache st)) ++ [(key, entry)])
                        (cache st)) st.
Proof.
  intros Hroom. unfold afterPut. cbv zeta.
  rewrite decide_False; [done|].
  cbn [values cache set_cache set_values maxEntries].
  rewrite length_app. simpl. lia.
Qed.

Lemma bounded_put key entry st :
  bounded (cache st) → bounded (cache (afterPut key entry st)).
Proof.
  intros Hb. unfold bounded in *. rewrite afterPut_maxEntries.
  unfold afterPut. cbv zeta.
  set (st1 := set_cache _ st).
  assert (length (values (cache st1)) = S (length (without key (values (cache st)))))
    as Hlen.
  { subst st1. cbn [values cache set_cache set_values].
    rewrite length_app. simpl. lia. }
  assert (maxEntries (cache st1) = maxEntries (cache st)) as Hmax by done.
  pose proof (without_length key (values (cache st))) as Hle.
  destruct (decide (maxEntries (cache st1) < length (values (cache st1))));
    [|lia].
  destruct (values (cache st1)) as [|[lru v] vs] eqn:Hvs; [simpl in *; lia|].
  rewrite afterEvict_values, Hvs.
  assert (length (without lru ((lru, v) :: vs)) < length ((lru, v) :: vs)).
  { eapply without_length_present. simpl. by rewrite decide_True. }
  lia.
Qed.

Lemma afterPut_room key entry st :
  entryOf key (values (cache st)) = None →
  length (values (cache st)) < maxEntries (cache st) →
  afterPut key entry st =
  set_cache (set_values (values (cache st) ++ [(key, entry)]) (cache st)) st.
Proof.
  intros Hnone Hroom.
  rewrite afterPut_fits by (by rewrite without_absent).
  by rewrite without_absent.
Qed.

Lemma afterPut_full key entry st lru victim rest :
  values (cache st) = (lru, victim) :: rest →
  key ∉ (values (cache st)).*1 →
  lru ∉ rest.*1 →
  maxEntries (cache st) = length (values (cache st)) →
  values (cache (afterPut key entry st)) = rest ++ [(key, entry)] ∧
  inflight (afterPut key entry st)
    = inflight st ++ leftInFlight (baseDir victim) eviction (fs st).
Proof.
  intros Hvs Hkey Hlru Hfull. unfold afterPut. cbv zeta.
  rewrite without_absent by (by apply entryOf_None).
  cbn [values cache set_cache set_values maxEntries].
  rewrite decide_True by (rewrite length_app; simpl; lia).
  rewrite Hvs. cbn [app].
  assert (lru ≠ key) as Hne.
  { intros ->. apply Hkey. rewrite Hvs. simpl. apply elem_of_cons. by left. }
  assert (key ∉ rest.*1) as Hkey'.
  { rewrite Hvs in Hkey. simpl in Hkey. by apply not_elem_of_cons in Hkey as [_ ?]. }
  split.
  - rewrite afterEvict_values. cbn [values cache set_cache set_values].
    rewrite without_fresh_head; [done|].
    rewrite fmap_app. simpl. rewrite not_elem_of_app. split; [done|].
    by rewrite list_elem_of_singleton.
  - unfold afterEvict. cbn [values cache set_cache set_values entryOf].
    by rewrite decide_True.
Qed.

(** A store that is within its capacity and can hold at least one entry
    keeps what is put. *)
Lemma afterPut_entryOf key entry st :
  0 < maxEntries (cache st) →
  bounded (cache st) →
  entryOf key (values (cache (afterPut key entry st))) = Some entry.
Proof.
  intros Hpos Hb. unfold afterPut. cbv zeta.
  set (st1 := set_cache _ st).
  assert (entryOf key (values (cache st1)) = Some entry) as Hst1
    by apply entryOf_refreshed.
  destruct (decide (maxEntries (cache st1) < length (values (cache st1))))
    as [Hover|]; [|done].
  assert (without key (values (cache st)) = values (cache st)) as Habs.
  { destruct (entryOf key (values (cache st))) as [e|] eqn:He;
      [|by apply without_absent].
    pose proof (without_length_present _ _ _ He). unfold bounded in Hb.
    subst st1. cbn [values cache set_cache set_values maxEntries] in Hover.
    rewrite length_app in Hover. simpl in Hover. lia. }
  subst st1. cbn [values cache set_cache set_values maxEntries] in *.
  rewrite Habs in *.
  destruct (values (cache st)) as [|[lru v] vs] eqn:Hvs.
  { rewrite length_app in Hover. simpl in Hover. lia. }
  cbn [app]. rewrite afterEvict_values.
  cbn [values cache set_cache set_values].
  rewrite entryOf_without_ne; [exact Hst1|].
  intros ->.
  assert (entryOf key ((key, v) :: vs) = None) as Hnone.
  { apply entryOf_None. intros Hin.
    assert (is_Some (entryOf key ((key, v) :: vs))) as [e He]
      by (simpl; rewrite decide_True by done; by eexists).
    pose proof (without_length_present _ _ _ He). rewrite Habs in *. lia. }
  simpl in Hnone. by rewrite decide_True in Hnone.
Qed.

(** Under any other key, [put] changes nothing unless it has to evict. *)
Lemma afterPut_entryOf_ne key entry st other :
  other ≠ key →
  length (without key (values (cache st))) < maxEntries (cache st) →
  entryOf other (values (cache (afterPut key entry st)))
    = entryOf other (values (cache st)).
Proof.
  intros Hne Hroom. rewrite afterPut_fits by done.
  cbn [values cache set_cache set_values].
  by apply entryOf_refreshed_ne.
Qed.

(** ** The validity check *)

Lemma cachedProjectIsValid_run project params st :
  cachedProjectIsValid project params st = (Ok (isValid project params (fs st)), st).
Proof.
  unfold cachedProjectIsValid, isValid, fs_access. unfold_m.
  destruct (isEqual _ _); simpl; [|done].
  by destruct (access (fs st) (baseDir project)).
Qed.

(** ** The paths through [doWithProject] *)

Section Paths.

Variable delegate : Materializer.
Variable cacheKeyForSha : RemoteRepoRef → string.
Variable shaExact : string → bool.

Local Abbreviation serve := (doWithProject delegate cacheKeyForSha shaExact).
Local Abbreviation bypassing := (saveAndRunAction delegate).

Context {T : Type}.
Implicit Types (params : ProjectLoadingParameters) (action : WithLoadedProject T).

Lemma saveAndRunAction_run params action st :
  bypassing params action st =
  let st1 := emit (Materialize params) st in
  match delegate params (fs st) with
  | (Ok p, fs1) => invoke action p (registered params p (set_fs fs1 st1))
  | (Throw e, fs1) => (Throw e, set_fs fs1 st1)
  end.
Proof.
  unfold saveAndRunAction, save, registered. unfold_m. simpl.
  destruct (delegate params (fs st)) as [[p|e] fs1]; [|done].
  by destruct (context params) as [[[handle|]]|].
Qed.

Lemma doWithProject_bypass params action st :
  bypass shaExact params →
  serve params action st =
  bypassing params action (emit (Log debug (bypassMessage params)) st).
Proof.
  unfold doWithProject, bypassMessage. unfold_m.
  intros [H|H]; rewrite H; simpl; [done|].
  by destruct (readOnly params).
Qed.

Lemma doWithProject_hit params action st entry :
  cacheable shaExact params →
  entryOf (cacheKeyForSha (id params)) (values (cache st)) = Some entry →
  isValid entry params (fs st) = true →
  serve params action st =
  invoke action entry
    (emit (Log debug "About to invoke action. Cache stats: %j")
       (afterGet (cacheKeyForSha (id params))
          (emit (Log debug "Attempting to reuse clone for readonly use of '%j'") st))).
Proof.
  intros [Hro Hsha] Hentry Hvalid.
  unfold doWithProject. rewrite Hro, Hsha. unfold_m. simpl.
  rewrite cache_get_run. simpl. rewrite Hentry.
  rewrite cachedProjectIsValid_run. simpl.
  rewrite afterGet_fs. simpl. by rewrite Hvalid.
Qed.

Lemma doWithProject_refill params action st :
  cacheable shaExact params →
  (∀ entry, entryOf (cacheKeyForSha (id params)) (values (cache st)) = Some entry →
            isValid entry params (fs st) = false) →
  serve params action st =
  let st1 := afterLookup (cacheKeyForSha (id params)) st in
  match delegate params (fs st1) with
  | (Ok fresh, fs1) =>
      invoke action fresh
        (afterStore (cacheKeyForSha (id params)) params fresh fs1 st1)
  | (Throw e, fs1) => (Throw e, set_fs fs1 (emit (Materialize params) st1))
  end.
Proof.
  intros [Hro Hsha] Hstale.
  unfold doWithProject, afterLookup, afterStore. rewrite Hro, Hsha.
  unfold_m. simpl.
  rewrite cache_get_run. simpl.
  destruct (entryOf _ (values (cache st))) as [entry|] eqn:Hentry.
  - rewrite cachedProjectIsValid_run. simpl.
    rewrite afterGet_fs. simpl. rewrite (Hstale entry eq_refl). simpl.
    rewrite cache_evict_run. unfold save. simpl.
    destruct (delegate params _) as [[fresh|e] fs1]; [|done].
    by rewrite cache_put_run.
  - unfold save. simpl.
    destruct (delegate params _) as [[fresh|e] fs1]; [|done].
    by rewrite cache_put_run.
Qed.

End Paths.


(** ** Reclamation *)

Lemma cleanUp_deleteOnExit dir r st :
  deleteOnExit (cleanUp dir r st).2 = deleteOnExit st.
Proof. rewrite cleanUp_run. apply afterCleanUp_deleteOnExit. Qed.

(** What [cleanUp] does, case by case: it never fails; a path that is not
    on storage (or is empty) leaves everything as it was; a path on storage
    is removed with everything below it; a rejected removal leaves storage
    as it was and is logged as a warning. *)
Lemma cleanUp_behaviour dir r st :
  (cleanUp dir r st).1 = Ok tt ∧
  (pathExists (fs st) dir = false → (cleanUp dir r st).2 = st) ∧
  (pathExists (fs st) dir = true → dir ∉ busy (fs st) →
   ∀ q, within dir q = true → q ∉ dirs (fs (cleanUp dir r st).2)) ∧
  (pathExists (fs st) dir = true → dir ∈ busy (fs st) →
   fs (cleanUp dir r st).2 = fs st ∧
   warnings (trace (cleanUp dir r st).2) = warnings (trace st) ++ ["EBUSY"]).
Proof.
  rewrite cleanUp_run. simpl. split_and!; [done|apply afterCleanUp_gone|..].
  - intros Hex Hbusy q Hq. rewrite afterCleanUp_fs. unfold reclaim. rewrite Hex.
    assert (truthy dir = true) as ->.
    { unfold pathExists in Hex. by apply andb_true_iff in Hex as [? _]. }
    destruct (remove_not_busy _ _ Hbusy) as [fs' Hrm]. rewrite Hrm. simpl.
    by eapply remove_clears_subtree.
  - intros Hex Hbusy. rewrite afterCleanUp_fs. unfold reclaim, afterCleanUp.
    rewrite Hex.
    assert (truthy dir = true) as ->.
    { unfold pathExists in Hex. by apply andb_true_iff in Hex as [? _]. }
    unfold remove. rewrite bool_decide_eq_true_2 by done. simpl.
    split; [done|].
    unfold warnings, cleanUpMessage. rewrite !omap_app. simpl.
    by rewrite !app_nil_r.
Qed.

Lemma afterCleanUp_removed dir r st :
  pathExists (fs st) dir = true → dir ∉ busy (fs st) →
  removeCalls dir (trace (afterCleanUp dir r st)) = removeCalls dir (trace st) ++ [true]
  ∧ pathExists (fs (afterCleanUp dir r st)) dir = false.
Proof.
  intros Hex Hbusy. unfold afterCleanUp. rewrite Hex.
  assert (truthy dir = true) as ->.
  { unfold pathExists in Hex. by apply andb_true_iff in Hex as [? _]. }
  destruct (remove_not_busy _ _ Hbusy) as [fs' Hrm]. rewrite Hrm. simpl.
  split; [|by eapply remove_gone].
  unfold removeCalls. rewrite !omap_app. simpl.
  by rewrite decide_True, app_nil_r.
Qed.

(** The callback of a registration reclaims the directory of the checkout
    it has captured. *)
Lemma runThunk_reclaims p r : reclaimsDir {| captured := p; reason := r |} (baseDir p).
Proof.
  intros s Hbusy. unfold runThunk. simpl. rewrite cleanUp_run. simpl.
  split; [done|].
  destruct (pathExists (fs s) (baseDir p)) eqn:Hex.
  - destruct (afterCleanUp_removed _ r s Hex Hbusy) as [Hcalls Hgone].
    split; [done|]. by intros _.
  - rewrite afterCleanUp_gone by done. by split.
Qed.

Lemma inTurn_fire_gone ts st :
  Forall (λ t, pathExists (fs st) (pathOf t) = false) ts →
  inTurn fire ts st = (Ok tt, st).
Proof.
  induction 1 as [|t ts Ht _ IH]; [done|].
  simpl. unfold_m. rewrite fire_run, afterCleanUp_gone by done. apply IH.
Qed.

(** Calls started together for a directory that exists: every one of them
    has seen it. *)
Lemma startAll_same_dir dir ts st :
  Forall (λ t, pathOf t = dir) ts →
  pathExists (fs st) dir = true →
  startAll (map start ts) st
  = (Ok (map (λ t, AtPathExists dir (reasonOf t) true) ts), st).
Proof.
  intros Hts Hex. induction Hts as [|t ts Ht _ IH]; [done|].
  simpl. unfold_m. unfold start at 1. rewrite cleanUpStart_run, Ht.
  rewrite (pathExists_truthy _ _ Hex), Hex. simpl. by rewrite IH.
Qed.

(** Resumed, every one of them calls [fs.remove]. *)
Lemma resumeAll_same_dir dir (rs : list Reason) st :
  dir ∉ busy (fs st) →
  ∃ st',
    resumeAll (map (λ r, AtPathExists dir r true) rs) st
    = (Ok (map (λ _, AtRemove dir (Ok tt)) rs), st') ∧
    removeCalls dir (trace st') = removeCalls dir (trace st) ++ replicate (length rs) true ∧
    busy (fs st') = busy (fs st) ∧
    (rs ≠ [] → pathExists (fs st') dir = false) ∧
    (rs = [] → st' = st).
Proof.
  revert st. induction rs as [|r rs IH]; intros st Hbusy.
  { exists st. simpl. by rewrite app_nil_r. }
  destruct (remove_not_busy _ _ Hbusy) as [fs' Hrm].
  set (st1 := emit (FsRemove dir true)
                (set_fs fs' (emit (Log debug (cleanUpMessage r)) st))).
  assert (busy (fs st1) = busy (fs st)) as Hb1.
  { simpl. unfold remove in Hrm. case_bool_decide; [done|]. by injection Hrm as <-. }
  destruct (IH st1) as (st2 & Hrun & Hcalls & Hb2 & Hgone & Hsame);
    [by rewrite Hb1|].
  exists st2. split_and!.
  - cbn [map resumeAll]. unfold_m. rewrite resume_found. cbv zeta. rewrite Hrm.
    fold st1. by rewrite Hrun.
  - rewrite Hcalls. subst st1. simpl. rewrite !removeCalls_app. simpl.
    rewrite decide_True by done. by rewrite <- !app_assoc.
  - by rewrite Hb2.
  - intros _. destruct rs as [|r' rs].
    + rewrite (Hsame eq_refl). simpl. by eapply remove_gone.
    + by apply Hgone.
  - done.
Qed.

Lemma resumeAll_removed dir {A} (l : list A) st :
  resumeAll (map (λ _, AtRemove dir (Ok tt)) l) st = (Ok [], st).
Proof.
  induction l as [|x l IH]; [done|].
  cbn [map resumeAll]. unfold_m. rewrite resume_removed. simpl. by rewrite IH.
Qed.

(** C9 (amended): when reclamation triggers (idle timer, disposal,
    eviction callback, shutdown flush) for the same path are run one after
    the other, each to its end, the path exists on storage and its removal
    is not rejected, then the recursive removal is performed exactly once,
    by the trigger that runs first: afterwards the path is gone, and the
    existence guard turns every later trigger into a no-op.  When the same
    triggers are started together, as the shutdown hook starts its calls,
    every one of them passes the existence guard before any removal has
    happened, and [fs.remove] is called once by each; the path is gone
    afterwards all the same. *)
Theorem removed_once_by_first_trigger dir t ts st :
  pathOf t = dir →
  Forall (λ t', pathOf t' = dir) ts →
  pathExists (fs st) dir = true →
  dir ∉ busy (fs st) →
  inTurn fire (t :: ts) st = fire t st ∧
  removeCalls dir (trace (fire t st).2) = removeCalls dir (trace st) ++ [true] ∧
  pathExists (fs (fire t st).2) dir = false ∧
  let together := (awaitAll (map start (t :: ts)) st).2 in
  removeCalls dir (trace together)
    = removeCalls dir (trace st) ++ replicate (S (length ts)) true ∧
  pathExists (fs together) dir = false.
Proof.
  intros Ht Hts Hex Hbusy. rewrite fire_run, Ht. simpl.
  destruct (afterCleanUp_removed dir (reasonOf t) st Hex Hbusy) as [Hcalls Hgone].
  split_and!; [|done..| |].
  - unfold_m. rewrite fire_run, Ht.
    apply inTurn_fire_gone.
    eapply Forall_impl; [exact Hts|]. simpl. by intros t' ->.
  - unfold awaitAll. unfold_m.
    rewrite (startAll_same_dir dir (t :: ts)) by first [done|by constructor].
    destruct (resumeAll_same_dir dir (map reasonOf (t :: ts)) st Hbusy)
      as (st' & Hrun & Hrm & _ & _ & _).
    rewrite map_map in Hrun. rewrite Hrun.
    rewrite (resumeAll_removed dir (map reasonOf (t :: ts))). simpl.
    rewrite Hrm. simpl. by rewrite length_map.
  - unfold awaitAll. unfold_m.
    rewrite (startAll_same_dir dir (t :: ts)) by first [done|by constructor].
    destruct (resumeAll_same_dir dir (map reasonOf (t :: ts)) st Hbusy)
      as (st' & Hrun & _ & _ & Hg & _).
    rewrite map_map in Hrun. rewrite Hrun.
    rewrite (resumeAll_removed dir (map reasonOf (t :: ts))). simpl.
    by apply Hg.
Qed.

(** ** Requests that bypass the cache *)

Section Bypass.

Variable delegate : Materializer.
Variable cacheKeyForSha : RemoteRepoRef → string.
Variable shaExact : string → bool.

Local Abbreviation serve := (doWithProject delegate cacheKeyForSha shaExact).

Context {T : Type}.
Implicit Types (params : ProjectLoadingParameters) (action : WithLoadedProject T).

(** C2: a request with [readOnly = false], and likewise a request whose
    revision is not an exact commit hash, is answered on the bypass path.
    The delegate is asked exactly once for a fresh checkout; the cache is
    left as it was (no entry is put, not even a lookup is counted); when
    the delegate delivers a checkout it is registered either with the
    lifecycle handle or with the idle timer and [deleteOnExit], the
    action runs on that checkout, and the result of the call is the
    result of the action.  When the delegate fails, its error is the
    result and nothing is registered. *)
Theorem bypass_request_is_served_fresh params action st :
  bypass shaExact params →
  let out := serve params action st in
  cache out.2 = cache st ∧
  materializations (trace out.2) = materializations (trace st) ++ [params] ∧
  match delegate params (fs st) with
  | (Ok p, fs1) =>
      ((∃ handle, context params ≫= lifecycle = Some handle ∧
          disposables out.2 =
            disposables st ++ [(handle, {| captured := p; reason := disposal |})])
       ∨ (context params ≫= lifecycle = None ∧
          timers out.2 =
            timers st ++ [{| callback := {| captured := p; reason := timeout |};
                             delay := 10000; unrefd := true |}] ∧
          deleteOnExit out.2 = deleteOnExit st ++ [baseDir p])) ∧
      invocations (trace out.2) = invocations (trace st) ++ [p] ∧
      out.1 = (action p fs1).1 ∧
      fs out.2 = (action p fs1).2
  | (Throw e, fs1) =>
      out.1 = Throw e ∧
      invocations (trace out.2) = invocations (trace st) ∧
      disposables out.2 = disposables st ∧
      timers out.2 = timers st ∧
      deleteOnExit out.2 = deleteOnExit st
  end.
Proof.
  intros Hbypass. simpl.
  rewrite doWithProject_bypass, saveAndRunAction_run by done. simpl.
  destruct (delegate params (fs st)) as [[p|e] fs1]; simpl.
  - unfold invoke, registered, materializations, invocations.
    destruct (context params) as [[[handle|]]|]; simpl;
      destruct (action p fs1) as [r fs2]; simpl;
      rewrite !omap_app; simpl; rewrite ?app_nil_r;
      (split_and!; try done); eauto.
  - unfold materializations, invocations.
    rewrite !omap_app; simpl; by rewrite ?app_nil_r.
Qed.

(** C6: on the bypass path exactly one registration is made for the
    checkout.  With a lifecycle handle in the request, a disposal is
    registered with that handle and neither a timer nor a [deleteOnExit]
    entry is created.  Without a handle, a callback is scheduled after
    10000 ms on an unref'd timer and the path is appended to
    [deleteOnExit]; nothing is registered with a handle.  In both cases
    the registered callback reclaims the directory of the checkout:
    whenever it is run, it succeeds and, unless storage rejects the
    removal, the directory is not on storage afterwards, [fs.remove]
    having been called for it if it was there.  The action runs in the
    same call on the storage the delegate left, without waiting for the
    timer, and nothing is removed during the call. *)
Theorem bypass_checkout_registered_once params action st p fs1 :
  bypass shaExact params →
  delegate params (fs st) = (Ok p, fs1) →
  let out := serve params action st in
  match context params ≫= lifecycle with
  | Some handle =>
      ∃ cb,
        disposables out.2 = disposables st ++ [(handle, cb)] ∧
        reclaimsDir cb (baseDir p) ∧
        timers out.2 = timers st ∧
        deleteOnExit out.2 = deleteOnExit st
  | None =>
      ∃ cb,
        timers out.2 =
          timers st ++ [{| callback := cb; delay := 10000; unrefd := true |}] ∧
        reclaimsDir cb (baseDir p) ∧
        deleteOnExit out.2 = deleteOnExit st ++ [baseDir p] ∧
        disposables out.2 = disposables st
  end ∧
  out.1 = (action p fs1).1 ∧
  removeCalls (baseDir p) (trace out.2) = removeCalls (baseDir p) (trace st).
Proof.
  intros Hbypass Hclone. simpl.
  rewrite doWithProject_bypass, saveAndRunAction_run by done. simpl.
  rewrite Hclone. unfold invoke, registered, removeCalls.
  destruct (context params) as [[[handle|]]|]; simpl;
    destruct (action p fs1) as [r fs2]; simpl;
    rewrite !omap_app; simpl; rewrite ?app_nil_r;
    (split_and!; try done); eexists; (split_and!; try done);
    apply runThunk_reclaims.
Qed.

End Bypass.

(** ** Validity of a cached entry *)

Lemma isEqual_cloneOptions (o1 o2 : gmap string Prim) :
  isEqual (VCloneOptions o1) (VCloneOptions o2) = true ↔ ∀ k, o1 !! k = o2 !! k.
Proof.
  unfold isEqual. rewrite bool_decide_eq_true. split.
  - by intros [= ->].
  - intros H. f_equal. by apply map_eq.
Qed.

(** C3: the validity check answers [true] exactly when the clone options
    stored with the entry equal the clone options of the request by value
    and [fs.access] accepts the directory of the entry.  It always answers:
    a rejected [fs.access] gives [false], no error leaves the check, and
    the state is left as it was. *)
Theorem cachedProjectIsValid_spec project params st :
  ∃ answer : bool,
    cachedProjectIsValid project params st = (Ok answer, st) ∧
    (answer = true ↔
       getProp project "cloneOptions" = cloneOptionsValue params ∧
       access (fs st) (baseDir project) = true).
Proof.
  exists (isValid project params (fs st)). split.
  - apply cachedProjectIsValid_run.
  - unfold isValid, isEqual.
    rewrite andb_true_iff, bool_decide_eq_true. done.
Qed.

(** ** The merged entry *)

Lemma paramsProps_lookup params k :
  paramsProps params !! k =
  if decide (k = "id") then Some (VRepoRef (id params))
  else if decide (k = "readOnly") then Some (VPrim (PBool (readOnly params)))
  else if decide (k = "cloneOptions")
       then from_option VCloneOptions undefined <$> cloneOptionsKey params
  else if decide (k = "context")
       then from_option VContext undefined <$> contextKey params
  else None.
Proof.
  unfold paramsProps.
  destruct (cloneOptionsKey params), (contextKey params); simpl;
    repeat (case_decide; [subst; by simplify_map_eq|]);
    by simplify_map_eq.
Qed.

Lemma getProp_spread_params project params k v :
  paramsProps params !! k = Some v → getProp (spread project params) k = v.
Proof.
  intros Hk. unfold getProp, spread. simpl.
  case_decide as Hb.
  - subst k. rewrite paramsProps_lookup in Hk. by repeat case_decide.
  - by erewrite lookup_union_Some_l.
Qed.

Lemma getProp_spread_own project params k :
  paramsProps params !! k = None →
  getProp (spread project params) k =
  if decide (k = "baseDir") then VPrim (PStr (baseDir project))
  else default undefined (own project !! k).
Proof.
  intros Hk. unfold getProp, spread. simpl.
  case_decide; [done|].
  rewrite lookup_union_r by done.
  by destruct (own project !! k).
Qed.

(** What a cached entry answers for [cloneOptions] and [context]: what the
    request wrote under the key, and what the checkout owns when the
    request left the key out. *)
Lemma getProp_spread_cloneOptions project params :
  getProp (spread project params) "cloneOptions" =
  match cloneOptionsKey params with
  | Some v => from_option VCloneOptions undefined v
  | None => ownCloneOptions project
  end.
Proof.
  destruct (cloneOptionsKey params) as [v|] eqn:Hk.
  - apply getProp_spread_params. rewrite paramsProps_lookup. simpl. by rewrite Hk.
  - rewrite getProp_spread_own; [done|]. rewrite paramsProps_lookup. simpl.
    by rewrite Hk.
Qed.

Lemma getProp_spread_context project params :
  getProp (spread project params) "context" =
  match contextKey params with
  | Some v => from_option VContext undefined v
  | None => ownContext project
  end.
Proof.
  destruct (contextKey params) as [v|] eqn:Hk.
  - apply getProp_spread_params. rewrite paramsProps_lookup. simpl. by rewrite Hk.
  - rewrite getProp_spread_own; [done|]. rewrite paramsProps_lookup. simpl.
    by rewrite Hk.
Qed.


(** ** Requests answered through the cache *)

Lemma invoke_spec {T} (action : WithLoadedProject T) p st :
  (invoke action p st).1 = (action p (fs st)).1 ∧
  fs (invoke action p st).2 = (action p (fs st)).2 ∧
  cache (invoke action p st).2 = cache st ∧
  invocations (trace (invoke action p st).2) = invocations (trace st) ++ [p] ∧
  materializations (trace (invoke action p st).2) = materializations (trace st) ∧
  trace st `prefix_of` trace (invoke action p st).2.
Proof.
  unfold invoke. simpl. destruct (action p (fs st)) as [r fs']. simpl.
  unfold invocations, materializations. rewrite !omap_app. simpl.
  rewrite app_nil_r. split_and!; try done. by apply prefix_app_r.
Qed.

Lemma invoke_inflight {T} (action : WithLoadedProject T) p st :
  inflight (invoke action p st).2 = inflight st.
Proof. unfold invoke. simpl. by destruct (action p (fs st)). Qed.

Lemma afterLookup_fs key st : fs (afterLookup key st) = fs st.
Proof.
  unfold afterLookup. cbv zeta.
  case_match; rewrite ?afterEvict_fs; simpl; by rewrite afterGet_fs.
Qed.


Lemma afterLookup_miss key st :
  entryOf key (values (cache st)) = None →
  values (cache (afterLookup key st)) = values (cache st) ∧
  inflight (afterLookup key st) = inflight st.
Proof.
  intros Hentry. unfold afterLookup, afterGet. rewrite Hentry. simpl.
  by rewrite Hentry.
Qed.

Lemma afterStore_spec key params fresh fs1 st :
  materializations (trace (afterStore key params fresh fs1 st))
    = materializations (trace st) ++ [params] ∧
  invocations (trace (afterStore key params fresh fs1 st))
    = invocations (trace st) ∧
  fs (afterStore key params fresh fs1 st) = fs1.
Proof.
  destruct (housekeeping_store key params fresh fs1 st) as (Hm&Hi&_).
  split_and!.
  - rewrite Hm. simpl. unfold materializations. by rewrite omap_app.
  - rewrite Hi. simpl. unfold invocations. rewrite omap_app. simpl.
    by rewrite app_nil_r.
  - unfold afterStore. cbn [fs emit]. by rewrite afterPut_fs.
Qed.

Lemma afterStore_entryOf key params fresh fs1 st :
  0 < maxEntries (cache st) →
  bounded (cache st) →
  entryOf key (values (cache (afterStore key params fresh fs1 st)))
    = Some (spread fresh params).
Proof.
  intros Hpos Hb. unfold afterStore. cbn [cache emit].
  by apply afterPut_entryOf.
Qed.

Lemma bounded_lookup key st :
  bounded (cache st) → bounded (cache (afterLookup key st)).
Proof.
  intros Hb. unfold afterLookup.
  assert (bounded (cache (afterGet key
            (emit (Log debug "Attempting to reuse clone for readonly use of '%j'") st))))
    as Hget by (by apply bounded_get).
  case_match; [|done]. by apply bounded_evict.
Qed.

Lemma bounded_store key params fresh fs1 st :
  bounded (cache st) →
  bounded (cache (afterStore key params fresh fs1 st)).
Proof.
  intros Hb. unfold afterStore.
  exact (bounded_put key (spread fresh params)
           (emit (Log debug "Caching project '%j' at '%s'")
              (set_fs fs1 (emit (Materialize params) st))) Hb).
Qed.

Lemma afterLookup_maxEntries key st :
  maxEntries (cache (afterLookup key st)) = maxEntries (cache st).
Proof. by destruct (housekeeping_lookup key st) as (_&_&_&_&_&?&_). Qed.


Section Cacheable.

Variable delegate : Materializer.
Variable cacheKeyForSha : RemoteRepoRef → string.
Variable shaExact : string → bool.

Local Abbreviation serve := (doWithProject delegate cacheKeyForSha shaExact).

Context {T : Type}.
Implicit Types (params : ProjectLoadingParameters) (action : WithLoadedProject T).


Lemma bypass_or_cacheable params :
  bypass shaExact params ∨ cacheable shaExact params.
Proof.
  unfold bypass, cacheable.
  destruct (readOnly params), (shaExact (sha (id params))); auto.
Qed.

(** A call ends in an error only when the delegate or the action does. *)
Lemma error_is_delegates_or_actions params action st e :
  (serve params action st).1 = Throw e →
  (∃ fs0 fs1, delegate params fs0 = (Throw e, fs1) ∧
              invocations (trace (serve params action st).2)
                = invocations (trace st))
  ∨ (∃ p fs0 fs1, action p fs0 = (Throw e, fs1) ∧
                  invocations (trace (serve params action st).2)
                    = invocations (trace st) ++ [p]).
Proof.
  set (key := cacheKeyForSha (id params)).
  destruct (bypass_or_cacheable params) as [Hb|Hc].
  - rewrite doWithProject_bypass, saveAndRunAction_run by done. cbv zeta.
    simpl fs.
    destruct (delegate params (fs st)) as [[p|e'] fs1] eqn:Hclone.
    + match goal with |- context [invoke action p ?s] =>
        destruct (invoke_spec action p s) as (Hr & _ & _ & Hinv & _)
      end.
      rewrite Hr, Hinv. intros Hthrow. right.
      destruct (action p _) as [r fs2] eqn:Hact. simpl in Hthrow. subst r.
      eexists p, _, fs2. split; [exact Hact|].
      f_equal. rewrite registered_trace. simpl.
      unfold invocations. rewrite !omap_app. simpl. by rewrite !app_nil_r.
    + simpl. intros [= ->]. left. eexists _, fs1. split; [exact Hclone|].
      unfold invocations. rewrite !omap_app. simpl. by rewrite !app_nil_r.
  - destruct (entryOf key (values (cache st))) as [entry|] eqn:He;
      [destruct (isValid entry params (fs st)) eqn:Hv|].
    all: try assert (∀ entry', entryOf key (values (cache st)) = Some entry' →
                               isValid entry' params (fs st) = false) as Hstale
           by (intros entry'; rewrite He; intros [= <-]; done).
    + rewrite (doWithProject_hit _ _ _ _ _ _ entry) by done.
      match goal with |- context [invoke action entry ?s] =>
        destruct (invoke_spec action entry s) as (Hr & _ & _ & Hinv & _);
        assert (housekeeping st s) as (_ & Hi0 & _)
      end.
      { eapply housekeeping_trans; [apply housekeeping_log|].
        eapply housekeeping_trans; [apply housekeeping_get|].
        apply housekeeping_log. }
      rewrite Hr, Hinv, Hi0. intros Hthrow. right.
      destruct (action entry _) as [r fs2] eqn:Hact. simpl in Hthrow. subst r.
      by eexists entry, _, fs2.
    + rewrite doWithProject_refill by done. cbv zeta. fold key.
      destruct (housekeeping_lookup key st) as (_ & Hi0 & _).
      destruct (delegate params (fs (afterLookup key st)))
        as [[fresh|e'] fs1] eqn:Hclone.
      * destruct (invoke_spec action fresh
                    (afterStore key params fresh fs1 (afterLookup key st)))
          as (Hr & _ & _ & Hinv & _).
        destruct (afterStore_spec key params fresh fs1 (afterLookup key st))
          as (_ & Hinv' & _).
        rewrite Hr, Hinv, Hinv', Hi0. intros Hthrow. right.
        destruct (action fresh _) as [r fs2] eqn:Hact. simpl in Hthrow. subst r.
        by eexists fresh, _, fs2.
      * simpl. intros [= ->]. left. eexists _, fs1. split; [exact Hclone|].
        unfold invocations. rewrite omap_app. simpl. rewrite app_nil_r.
        exact Hi0.
    + rewrite doWithProject_refill by done. cbv zeta. fold key.
      destruct (housekeeping_lookup key st) as (_ & Hi0 & _).
      destruct (delegate params (fs (afterLookup key st)))
        as [[fresh|e'] fs1] eqn:Hclone.
      * destruct (invoke_spec action fresh
                    (afterStore key params fresh fs1 (afterLookup key st)))
          as (Hr & _ & _ & Hinv & _).
        destruct (afterStore_spec key params fresh fs1 (afterLookup key st))
          as (_ & Hinv' & _).
        rewrite Hr, Hinv, Hinv', Hi0. intros Hthrow. right.
        destruct (action fresh _) as [r fs2] eqn:Hact. simpl in Hthrow. subst r.
        by eexists fresh, _, fs2.
      * simpl. intros [= ->]. left. eexists _, fs1. split; [exact Hclone|].
        unfold invocations. rewrite omap_app. simpl. rewrite app_nil_r.
        exact Hi0.
Qed.

(** What a request logs when the entry it finds fails the validity
    check, whatever made it fail. *)
Lemma stale_entry_log params action st entry :
  cacheable shaExact params →
  entryOf (cacheKeyForSha (id params)) (values (cache st)) = Some entry →
  isValid entry params (fs st) = false →
  logLines (trace (serve params action st).2) =
  logLines (trace st)
  ++ ["Attempting to reuse clone for readonly use of '%j'";
      "Evicting project '%j' from cache"]
  ++ match delegate params (fs st) with
     | (Ok _, _) => ["Caching project '%j' at '%s'";
                     "About to invoke action. Cache stats: %j"]
     | (Throw _, _) => []
     end.
Proof.
  intros Hc He Hv.
  rewrite doWithProject_refill; [|done|].
  2:{ intros entry'. rewrite He. by intros [= <-]. }
  cbv zeta. set (key := cacheKeyForSha (id params)) in *.
  rewrite afterLookup_fs.
  assert (logLines (trace (afterLookup key st))
          = logLines (trace st)
            ++ ["Attempting to reuse clone for readonly use of '%j'";
                "Evicting project '%j' from cache"]) as Hlook.
  { unfold afterLookup. rewrite He. rewrite afterEvict_trace.
    cbn [trace emit]. rewrite afterGet_trace. cbn [trace emit].
    rewrite !logLines_app. simpl. by rewrite <- app_assoc. }
  destruct (delegate params (fs st)) as [[fresh|e] fs1].
  - unfold invoke. destruct (action fresh _) as [r fs2]. cbn [snd trace emit set_fs].
    unfold afterStore. cbn [trace emit]. rewrite afterPut_trace. cbn [trace emit set_fs].
    rewrite !logLines_app, Hlook. simpl. rewrite !app_nil_r.
    by rewrite <- !app_assoc.
  - cbn [snd trace emit set_fs]. rewrite logLines_app, Hlook. simpl.
    by rewrite !app_nil_r.
Qed.

(** C8 (amended): an error leaves [doWithProject] only when the delegate
    failed to materialize (then the action was never invoked) or when the
    action itself failed; the call yields one result in every case.
    Errors of cache management stay inside, and not all of them are
    logged.  A rejected [fs.access] makes the validity check answer
    [false] and leaves no trace of its own: the check changes nothing, and
    the request logs what it logs for any entry that fails the check.
    [cleanUp] never fails, run in one piece or resumed by the runtime, and
    a rejected [fs.remove] is logged as a warning.  The eviction callback
    of the loader starts [cleanUp] and cannot fail, so neither [evict]
    nor [put] of the store fails or logs a warning. *)
Theorem only_delegate_and_action_errors_surface params action st :
  let key := cacheKeyForSha (id params) in
  let out := serve params action st in
  (∀ e, out.1 = Throw e →
     (∃ fs0 fs1, delegate params fs0 = (Throw e, fs1) ∧
                 invocations (trace out.2) = invocations (trace st))
     ∨ (∃ p fs0 fs1, action p fs0 = (Throw e, fs1) ∧
                     invocations (trace out.2) = invocations (trace st) ++ [p])) ∧
  (∀ entry, cacheable shaExact params →
     entryOf key (values (cache st)) = Some entry →
     access (fs st) (baseDir entry) = false →
     cachedProjectIsValid entry params st = (Ok false, st) ∧
     materializations (trace out.2) = materializations (trace st) ++ [params] ∧
     logLines (trace out.2) =
     logLines (trace st)
     ++ ["Attempting to reuse clone for readonly use of '%j'";
         "Evicting project '%j' from cache"]
     ++ match delegate params (fs st) with
        | (Ok _, _) => ["Caching project '%j' at '%s'";
                        "About to invoke action. Cache stats: %j"]
        | (Throw _, _) => []
        end) ∧
  (∀ dir r s,
     (cleanUp dir r s).1 = Ok tt ∧
     (pathExists (fs s) dir = true → dir ∈ busy (fs s) →
      warnings (trace (cleanUp dir r s).2) = warnings (trace s) ++ ["EBUSY"])) ∧
  (∀ i s, (resumeAt i s).1 = Ok tt) ∧
  (∀ dir r s,
     inflight s = [AtPathExists dir r true] → dir ∈ busy (fs s) →
     (settle s).1 = Ok tt ∧
     warnings (trace (settle s).2) = warnings (trace s) ++ ["EBUSY"]) ∧
  (∀ k entry s,
     (evictCallback entry s).1 = Ok tt ∧
     (cache_evict evictCallback k s).1 = Ok tt ∧
     (cache_put evictCallback k entry s).1 = Ok tt ∧
     warnings (trace (cache_evict evictCallback k s).2) = warnings (trace s) ∧
     warnings (trace (cache_put evictCallback k entry s).2) = warnings (trace s)).
Proof.
  intros key out. split_and!.
  - intros e. apply error_is_delegates_or_actions.
  - (* a rejected access *)
    intros entry Hc He Hacc.
    assert (isValid entry params (fs st) = false) as Hv.
    { unfold isValid. rewrite Hacc. apply andb_false_r. }
    split_and!.
    + by rewrite cachedProjectIsValid_run, Hv.
    + subst out. rewrite doWithProject_refill; [|done|].
      2:{ intros entry'. fold key. rewrite He. by intros [= <-]. }
      cbv zeta. fold key.
      destruct (housekeeping_lookup key st) as (Hm0 & _).
      destruct (delegate params (fs (afterLookup key st))) as [[fresh|e'] fs1].
      * destruct (invoke_spec action fresh
                    (afterStore key params fresh fs1 (afterLookup key st)))
          as (_ & _ & _ & _ & -> & _).
        destruct (afterStore_spec key params fresh fs1 (afterLookup key st))
          as (-> & _). by rewrite Hm0.
      * simpl. by rewrite materializations_app, Hm0.
    + by apply (stale_entry_log params action st entry).
  - (* a rejected removal *)
    intros dir r s. rewrite cleanUp_run. split; [done|].
    intros Hex Hbusy. simpl. unfold afterCleanUp. rewrite Hex.
    rewrite (pathExists_truthy _ _ Hex).
    unfold remove. rewrite bool_decide_eq_true_2 by done. simpl.
    unfold warnings, cleanUpMessage. rewrite !omap_app. simpl.
    by rewrite !app_nil_r.
  - intros i s. apply resumeAt_spec.
  - (* a rejected removal in a call that was in flight *)
    intros dir r s Hq Hbusy. unfold settle. unfold_m. rewrite Hq.
    cbn [resumeAll]. unfold_m. rewrite resume_found. cbv zeta.
    unfold remove. cbn [fs set_inflight].
    rewrite bool_decide_eq_true_2 by done.
    change (option_list (Some (AtRemove dir (Throw "EBUSY"))) ++ [])
      with [AtRemove dir (Throw "EBUSY")].
    cbn [resumeAll]. unfold_m. rewrite resume_rejected. simpl.
    rewrite !warnings_app. simpl. by rewrite !app_nil_r.
  - (* the store *)
    intros k entry s.
    rewrite evictCallback_run, cache_evict_run, cache_put_run. simpl.
    by rewrite afterEvict_trace, afterPut_trace.
Qed.

End Cacheable.


Lemma hit_is_housekeeping key st :
  housekeeping st
    (emit (Log debug "About to invoke action. Cache stats: %j")
       (afterGet key
          (emit (Log debug "Attempting to reuse clone for readonly use of '%j'") st))).
Proof.
  eapply housekeeping_trans; [apply housekeeping_log|].
  eapply housekeeping_trans; [apply housekeeping_get|].
  apply housekeeping_log.
Qed.

Lemma spread_unchanged_iff project params :
  spread project params = project
  ↔ inherited project = ∅ ∧ paramsProps params ⊆ own project.
Proof.
  unfold spread. destruct project as [dir props inh]. simpl. split.
  - intros [= Hown Hinh]. split; [done|].
    rewrite <- Hown. apply map_union_subseteq_l.
  - intros [-> Hsub]. f_equal. by apply map_subseteq_union.
Qed.

Section TwoRequests.

Variable delegate : Materializer.
Variable cacheKeyForSha : RemoteRepoRef → string.
Variable shaExact : string → bool.

Local Abbreviation serve := (doWithProject delegate cacheKeyForSha shaExact).

Context {T1 T2 : Type}.

Lemma request_that_ran_left_entry p1 (a1 : WithLoadedProject T1) st x :
  cacheable shaExact p1 →
  0 < maxEntries (cache st) →
  bounded (cache st) →
  (cloneOptionsKey p1 = None → ownCloneOptions x = undefined) →
  invocations (trace (serve p1 a1 st).2) = invocations (trace st) ++ [x] →
  ∃ entry,
    entryOf (cacheKeyForSha (id p1)) (values (cache (serve p1 a1 st).2)) = Some entry ∧
    baseDir entry = baseDir x ∧
    getProp entry "cloneOptions" = cloneOptionsValue p1 ∧
    length (materializations (trace (serve p1 a1 st).2))
      ≤ length (materializations (trace st)) + 1.
Proof.
  intros Hc Hpos Hb Hopt Hran.
  set (key := cacheKeyForSha (id p1)) in *.
  assert (∀ fresh fs1,
    invocations (trace (invoke a1 fresh
                          (afterStore key p1 fresh fs1 (afterLookup key st))).2)
      = invocations (trace st) ++ [x] →
    ∃ entry,
      entryOf key (values (cache (invoke a1 fresh
                     (afterStore key p1 fresh fs1 (afterLookup key st))).2))
        = Some entry ∧
      baseDir entry = baseDir x ∧
      getProp entry "cloneOptions" = cloneOptionsValue p1 ∧
      length (materializations (trace (invoke a1 fresh
                (afterStore key p1 fresh fs1 (afterLookup key st))).2))
        ≤ length (materializations (trace st)) + 1) as Hrefill.
  { intros fresh fs1 Hran'.
    destruct (housekeeping_lookup key st) as (Hm0 & Hi0 & _).
    destruct (invoke_spec a1 fresh (afterStore key p1 fresh fs1 (afterLookup key st)))
      as (_ & _ & Hcache & Hinv & Hmat & _).
    destruct (afterStore_spec key p1 fresh fs1 (afterLookup key st))
      as (Hmat' & Hinv' & _).
    rewrite Hinv, Hinv', Hi0 in Hran'. apply app_inj_tail in Hran' as [_ ->].
    exists (spread x p1). rewrite Hcache, Hmat, Hmat', Hm0.
    split_and!; [|done| |rewrite length_app; simpl; lia].
    - apply afterStore_entryOf;
        [by rewrite afterLookup_maxEntries|by apply bounded_lookup].
    - rewrite getProp_spread_cloneOptions.
      unfold cloneOptionsValue, cloneOptions.
      destruct (cloneOptionsKey p1); [done|]. by apply Hopt. }
  assert (∀ fs1,
    invocations (trace (set_fs fs1 (emit (Materialize p1) (afterLookup key st))))
      ≠ invocations (trace st) ++ [x]) as Hfailed.
  { intros fs1 Hran'.
    destruct (housekeeping_lookup key st) as (_ & Hi0 & _).
    cbn [trace set_fs emit] in Hran'.
    rewrite invocations_app, Hi0 in Hran'. simpl in Hran'.
    apply (f_equal length) in Hran'. rewrite !length_app in Hran'.
    simpl in Hran'. lia. }
  destruct (entryOf key (values (cache st))) as [e|] eqn:He;
    [destruct (isValid e p1 (fs st)) eqn:Hv|].
  all: try assert (∀ entry, entryOf key (values (cache st)) = Some entry →
                            isValid entry p1 (fs st) = false) as Hstale
         by (intros entry; rewrite He; intros [= <-]; done).
  - (* served from the cache *)
    rewrite (doWithProject_hit _ _ _ _ _ _ e) in Hran |- * by done.
    match goal with |- context [invoke a1 e ?s] =>
      destruct (invoke_spec a1 e s) as (_ & _ & Hcache & Hinv & Hmat & _)
    end.
    destruct (hit_is_housekeeping (cacheKeyForSha (id p1)) st) as (Hm0 & Hi0 & _).
    rewrite Hinv, Hi0 in Hran. apply app_inj_tail in Hran as [_ ->].
    exists x. rewrite Hcache, Hmat, Hm0. simpl.
    rewrite afterGet_entryOf. simpl. split_and!; [done|done| |lia].
    unfold isValid, isEqual in Hv.
    apply andb_true_iff in Hv as [Hv _]. by apply bool_decide_eq_true in Hv.
  - (* stale entry *)
    rewrite doWithProject_refill in Hran |- * by done.
    cbv zeta in *. fold key in Hran |- *.
    destruct (delegate p1 (fs (afterLookup key st))) as [[fresh|err] fs1].
    + by apply Hrefill.
    + by apply Hfailed in Hran.
  - (* miss *)
    rewrite doWithProject_refill in Hran |- * by done.
    cbv zeta in *. fold key in Hran |- *.
    destruct (delegate p1 (fs (afterLookup key st))) as [[fresh|err] fs1].
    + by apply Hrefill.
    + by apply Hfailed in Hran.
Qed.

(** C1 (amended): take two read-only requests with the same repository
    reference (same identity, same exact commit hash) and the same clone
    options, served by a store that can hold at least one entry, where
    the first request got a checkout (its action ran on [x]), the options
    stored with it are the options of the request (the request names its
    [cloneOptions], or the checkout has no [cloneOptions] property of its
    own), and the directory of that checkout is still accessible when the
    second request arrives, whatever reclamations in flight the runtime
    has resumed in between.  Then the delegate is called at most once over
    both requests and not at all by the second one: the second request
    finds the entry stored under the content key and its action receives
    that entry, whose path is the path the first action saw. *)
Theorem second_request_served_from_cache p1 p2
    (a1 : WithLoadedProject T1) (a2 : WithLoadedProject T2) st0 st1' x :
  cacheable shaExact p1 →
  readOnly p2 = true →
  id p2 = id p1 →
  cloneOptions p2 = cloneOptions p1 →
  0 < maxEntries (cache st0) →
  bounded (cache st0) →
  (cloneOptionsKey p1 = None → ownCloneOptions x = undefined) →
  let st1 := (serve p1 a1 st0).2 in
  invocations (trace st1) = invocations (trace st0) ++ [x] →
  later st1 st1' →
  access (fs st1') (baseDir x) = true →
  let st2 := (serve p2 a2 st1').2 in
  ∃ entry,
    entryOf (cacheKeyForSha (id p1)) (values (cache st1')) = Some entry ∧
    baseDir entry = baseDir x ∧
    invocations (trace st2) = invocations (trace st0) ++ [x; entry] ∧
    materializations (trace st2) = materializations (trace st1) ∧
    length (materializations (trace st2))
      ≤ length (materializations (trace st0)) + 1.
Proof.
  intros Hc Hro Hid Hopts Hpos Hb Hopt st1 Hran Hlater Hacc st2.
  destruct (request_that_ran_left_entry p1 a1 st0 x Hc Hpos Hb Hopt Hran)
    as (entry & Hentry & Hdir & Hco & Hlen).
  fold st1 in Hentry, Hlen.
  destruct (later_reclaiming _ _ Hlater) as (Hcache' & _ & _ & _ & Hm' & Hi' & _).
  rewrite <- Hcache' in Hentry.
  assert (cacheable shaExact p2) as Hc2.
  { destruct Hc as [_ Hsha]. split; [done|]. by rewrite Hid. }
  assert (isValid entry p2 (fs st1') = true) as Hvalid.
  { unfold isValid, isEqual, cloneOptionsValue. rewrite Hopts, Hdir, Hacc.
    fold (cloneOptionsValue p1). by rewrite Hco, bool_decide_eq_true_2. }
  exists entry. subst st2.
  rewrite (doWithProject_hit _ _ _ _ _ _ entry) by (by rewrite ?Hid).
  match goal with |- context [invoke a2 entry ?s] =>
    destruct (invoke_spec a2 entry s) as (_ & _ & _ & Hinv & Hmat & _)
  end.
  destruct (hit_is_housekeeping (cacheKeyForSha (id p2)) st1') as (Hm0 & Hi0 & _).
  rewrite Hinv, Hmat, Hi0, Hm0, Hm', Hi', Hran.
  split_and!; try done. by rewrite <- app_assoc.
Qed.

(** C10: when a request misses, the action runs on the checkout the
    delegate delivered, and what the store keeps is the spread of that
    checkout and the parameters of the request.  A later request that
    hits is served this stored object, not the checkout: it reads [id]
    and [readOnly] of the inserting request, and [cloneOptions] and
    [context] of the inserting request when that request names them (a
    key the request leaves out keeps what the checkout owns under it); it
    keeps [baseDir] and the other own properties of the checkout that the
    parameters do not name, and has none of the properties that the
    checkout only inherits from its prototype.  It has the properties of
    the checkout itself only when the checkout inherits nothing and
    already owns every key of the request with the value the request
    gives it. *)
Theorem hit_serves_merged_entry p1 p2
    (a1 : WithLoadedProject T1) (a2 : WithLoadedProject T2) st0 st1' fresh fs1 :
  cacheable shaExact p1 →
  cacheable shaExact p2 →
  cacheKeyForSha (id p2) = cacheKeyForSha (id p1) →
  0 < maxEntries (cache st0) →
  bounded (cache st0) →
  entryOf (cacheKeyForSha (id p1)) (values (cache st0)) = None →
  delegate p1 (fs st0) = (Ok fresh, fs1) →
  let st1 := (serve p1 a1 st0).2 in
  let served := spread fresh p1 in
  later st1 st1' →
  isValid served p2 (fs st1') = true →
  let st2 := (serve p2 a2 st1').2 in
  entryOf (cacheKeyForSha (id p1)) (values (cache st1)) = Some served ∧
  invocations (trace st2) = invocations (trace st0) ++ [fresh; served] ∧
  getProp served "id" = VRepoRef (id p1) ∧
  getProp served "readOnly" = VPrim (PBool (readOnly p1)) ∧
  getProp served "cloneOptions" =
    match cloneOptionsKey p1 with
    | Some v => from_option VCloneOptions undefined v
    | None => ownCloneOptions fresh
    end ∧
  getProp served "context" =
    match contextKey p1 with
    | Some v => from_option VContext undefined v
    | None => ownContext fresh
    end ∧
  getProp served "baseDir" = getProp fresh "baseDir" ∧
  (∀ k v, paramsProps p1 !! k = None → own fresh !! k = Some v →
          getProp served k = getProp fresh k) ∧
  (∀ k, k ≠ "baseDir" → paramsProps p1 !! k = None → own fresh !! k = None →
        getProp served k = undefined) ∧
  inherited served = ∅ ∧
  (served = fresh ↔ inherited fresh = ∅ ∧ paramsProps p1 ⊆ own fresh).
Proof.
  intros Hc1 Hc2 Hkey Hpos Hb Hmiss Hclone st1 served Hlater Hvalid st2.
  set (key := cacheKeyForSha (id p1)) in *.
  assert (∀ entry, entryOf key (values (cache st0)) = Some entry →
                   isValid entry p1 (fs st0) = false) as Hstale
    by (intros entry; by rewrite Hmiss).
  assert (entryOf key (values (cache st1)) = Some served
          ∧ invocations (trace st1) = invocations (trace st0) ++ [fresh])
    as [Hstored Hinv1].
  { subst st1. rewrite doWithProject_refill by done.
    cbv zeta. fold key.
    rewrite afterLookup_fs, Hclone.
    destruct (invoke_spec a1 fresh (afterStore key p1 fresh fs1 (afterLookup key st0)))
      as (_ & _ & Hcache & Hinv & _).
    destruct (afterStore_spec key p1 fresh fs1 (afterLookup key st0))
      as (_ & Hinv' & _).
    destruct (housekeeping_lookup key st0) as (_ & Hi0 & _).
    rewrite Hcache, Hinv, Hinv', Hi0. split; [|done].
    apply afterStore_entryOf;
      [by rewrite afterLookup_maxEntries|by apply bounded_lookup]. }
  destruct (later_reclaiming _ _ Hlater) as (Hcache' & _ & _ & _ & _ & Hi' & _).
  split_and!; try done.
  - subst st2.
    rewrite (doWithProject_hit _ _ _ _ _ _ served)
      by (by rewrite ?Hkey, ?Hcache').
    match goal with |- context [invoke a2 served ?s] =>
      destruct (invoke_spec a2 served s) as (_ & _ & _ & Hinv & _)
    end.
    destruct (hit_is_housekeeping (cacheKeyForSha (id p2)) st1') as (_ & Hi0 & _).
    by rewrite Hinv, Hi0, Hi', Hinv1, <-(assoc_L (++)).
  - apply getProp_spread_params. by rewrite paramsProps_lookup.
  - apply getProp_spread_params. by rewrite paramsProps_lookup.
  - apply getProp_spread_cloneOptions.
  - apply getProp_spread_context.
  - intros k v Hk Hown. subst served. rewrite getProp_spread_own by done.
    unfold getProp. case_decide; [done|]. by rewrite Hown.
  - intros k Hb' Hk Hown. subst served. rewrite getProp_spread_own by done.
    rewrite decide_False by done. by rewrite Hown.
  - apply spread_unchanged_iff.
Qed.

End TwoRequests.


(** ** The bound on the store *)

Lemma runOp_run op st :
  ∃ st', runOp op st = (Ok tt, st') ∧
         maxEntries (cache st') = maxEntries (cache st) ∧
         fs st' = fs st ∧
         (bounded (cache st) → bounded (cache st')).
Proof.
  destruct op as [key|key entry|key]; simpl.
  - exists (afterGet key st). unfold_m. rewrite cache_get_run.
    split_and!; [done| |apply afterGet_fs|apply bounded_get].
    by destruct (housekeeping_get key st) as (_&_&_&_&_&?&_).
  - exists (afterPut key entry st). rewrite cache_put_run.
    split_and!; [done|apply afterPut_maxEntries|apply afterPut_fs|apply bounded_put].
  - exists (afterEvict key st). rewrite cache_evict_run.
    split_and!; [done|apply afterEvict_maxEntries|apply afterEvict_fs
                |apply bounded_evict].
Qed.

Lemma runOps_bounded ops st :
  bounded (cache st) →
  maxEntries (cache (runOps ops st)) = maxEntries (cache st) ∧
  fs (runOps ops st) = fs st ∧
  bounded (cache (runOps ops st)).
Proof.
  unfold runOps. revert st. induction ops as [|op ops IH]; intros st Hb; [done|].
  simpl. unfold_m.
  destruct (runOp_run op st) as (st' & -> & Hmax & Hfs & Hb').
  destruct (IH st') as (Hmax' & Hfs' & Hb''); [by apply Hb'|].
  split_and!; [congruence|congruence|done].
Qed.

Section Bound.

Variable delegate : Materializer.
Variable cacheKeyForSha : RemoteRepoRef → string.
Variable shaExact : string → bool.

Local Abbreviation serve := (doWithProject delegate cacheKeyForSha shaExact).

Context {T : Type}.

Lemma bypass_cache params (action : WithLoadedProject T) st :
  bypass shaExact params → cache (serve params action st).2 = cache st.
Proof.
  intros Hb. rewrite doWithProject_bypass, saveAndRunAction_run by done.
  cbv zeta. destruct (delegate params _) as [[p|e] fs1]; [|done].
  match goal with |- context [invoke action p ?s] =>
    destruct (invoke_spec action p s) as (_ & _ & -> & _)
  end.
  by rewrite registered_cache.
Qed.

Lemma doWithProject_bounded params (action : WithLoadedProject T) st :
  bounded (cache st) →
  maxEntries (cache (serve params action st).2) = maxEntries (cache st) ∧
  bounded (cache (serve params action st).2).
Proof.
  intros Hb.
  destruct (bypass_or_cacheable shaExact params) as [Hby|Hc].
  { by rewrite bypass_cache. }
  set (key := cacheKeyForSha (id params)).
  assert ((∀ entry', entryOf key (values (cache st)) = Some entry' →
                     isValid entry' params (fs st) = false) →
          maxEntries (cache (serve params action st).2) = maxEntries (cache st) ∧
          bounded (cache (serve params action st).2)) as Hrefill.
  { intros Hstale.
    rewrite doWithProject_refill by done. cbv zeta. fold key.
    pose proof (bounded_lookup key st Hb) as Hb1.
    pose proof (afterLookup_maxEntries key st) as Hmax.
    destruct (delegate params _) as [[fresh|e] fs1]; [|done].
    destruct (invoke_spec action fresh (afterStore key params fresh fs1 (afterLookup key st)))
      as (_ & _ & -> & _).
    destruct (housekeeping_store key params fresh fs1 (afterLookup key st))
      as (_&_&_&_&_&Hmax'&_).
    split; [by rewrite Hmax', <-Hmax|].
    by apply bounded_store. }
  destruct (entryOf key (values (cache st))) as [entry|] eqn:He;
    [destruct (isValid entry params (fs st)) eqn:Hv|].
  - rewrite (doWithProject_hit _ _ _ _ _ _ entry) by done.
    match goal with |- context [invoke action entry ?s] =>
      destruct (invoke_spec action entry s) as (_ & _ & -> & _)
    end.
    simpl. split; [|by apply bounded_get].
    by destruct (housekeeping_get key
      (emit (Log debug "Attempting to reuse clone for readonly use of '%j'") st))
      as (_&_&_&_&_&?&_).
  - apply Hrefill. by intros entry' [= <-].
  - by apply Hrefill.
Qed.

Lemma serveAll_bounded
    (requests : list (ProjectLoadingParameters * WithLoadedProject T)) st :
  bounded (cache st) →
  maxEntries (cache (serveAll delegate cacheKeyForSha shaExact requests st))
    = maxEntries (cache st) ∧
  bounded (cache (serveAll delegate cacheKeyForSha shaExact requests st)).
Proof.
  revert st. induction requests as [|[params action] rest IH];
    intros st Hb; [done|].
  simpl.
  destruct (doWithProject_bounded params action st Hb) as [Hmax Hb'].
  destruct (IH (serve params action st).2) as [Hmax' Hb'']; [done|].
  split; [congruence|done].
Qed.

End Bound.

(** ** Reclamations left in flight *)

Lemma due_leftInFlight dir r fsys :
  due (leftInFlight dir r fsys) = if pathExists fsys dir then [dir] else [].
Proof.
  unfold leftInFlight, pathExists. destruct (truthy dir); [|done].
  simpl. by destruct (bool_decide _).
Qed.

(** Once the runtime has resumed every call in flight, a directory whose
    reclamation was in flight is not on storage, unless its removal is
    rejected or it was put there again after the call had looked. *)
Lemma settle_reclaims st q dir r fsys :
  inflight st = q ++ leftInFlight dir r fsys →
  (pathExists fsys dir = false → pathExists (fs st) dir = false) →
  dir ∉ busy (fs st) →
  pathExists (fs (settle st).2) dir = false.
Proof.
  intros Hq Hsame Hbusy.
  destruct (settle_spec st) as (st' & Hrun & _ & _ & Hfs).
  rewrite Hrun. cbn [snd]. rewrite Hfs.
  rewrite Hq, due_app, removingAll_app, due_leftInFlight.
  destruct (pathExists fsys dir) eqn:Hex.
  - apply removingAll_gone; [by apply list_elem_of_singleton|].
    by rewrite removingAll_busy.
  - simpl. apply removingAll_stays_gone. by apply Hsame.
Qed.

(** ** Filling the store and overflowing it *)

Lemma afterPut_zero key entry st :
  maxEntries (cache st) = 0 →
  values (cache st) = [] →
  values (cache (afterPut key entry st)) = [] ∧
  inflight (afterPut key entry st)
    = inflight st ++ leftInFlight (baseDir entry) eviction (fs st).
Proof.
  intros Hmax Hvs. unfold afterPut. cbv zeta. rewrite Hvs.
  change (without key [] ++ [(key, entry)]) with [(key, entry)].
  cbn [values cache set_cache set_values maxEntries length].
  rewrite Hmax. rewrite decide_True by lia.
  unfold afterEvict. cbn [values cache set_cache set_values entryOf].
  rewrite decide_True by done.
  cbn [values cache set_cache set_values inflight set_inflight fs].
  split; [|done].
  unfold without. rewrite filter_cons_False by (simpl; tauto). done.
Qed.

Section Overflow.

Variable delegate : Materializer.
Variable cacheKeyForSha : RemoteRepoRef → string.
Variable shaExact : string → bool.

Local Abbreviation serve := (doWithProject delegate cacheKeyForSha shaExact).

Context {T : Type}.

Local Abbreviation keyOf :=
  (λ r : ProjectLoadingParameters * WithLoadedProject T, cacheKeyForSha (id r.1)).

Hypothesis delegate_reliable : reliable delegate.

(** A request that misses: up to the moment the merged entry is put. *)
Lemma miss_step params (action : WithLoadedProject T) st :
  cacheable shaExact params →
  readOnlyAction action →
  cacheKeyForSha (id params) ∉ (values (cache st)).*1 →
  ∃ fresh pre,
    values (cache pre) = values (cache st) ∧
    maxEntries (cache pre) = maxEntries (cache st) ∧
    inflight pre = inflight st ∧
    busy (fs pre) = busy (fs st) ∧
    let st' := (serve params action st).2 in
    let stored := afterPut (cacheKeyForSha (id params)) (spread fresh params) pre in
    cache st' = cache stored ∧
    inflight st' = inflight stored ∧
    fs st' = fs pre ∧
    invocations (trace st') = invocations (trace st) ++ [fresh].
Proof.
  intros Hc Hro Hkey.
  set (key := cacheKeyForSha (id params)) in *.
  apply entryOf_None in Hkey.
  rewrite doWithProject_refill by (done || by (intros entry; fold key; rewrite Hkey)).
  cbv zeta. fold key.
  destruct (afterLookup_miss key st Hkey) as [Hvs Hq].
  pose proof (afterLookup_fs key st) as Hfs.
  destruct (housekeeping_lookup key st) as (_ & Hi0 & _ & _ & _ & Hmax & _).
  destruct (delegate_reliable params (fs (afterLookup key st)))
    as (fresh & fs1 & -> & Hbusy).
  exists fresh,
    (emit (Log debug "Caching project '%j' at '%s'")
       (set_fs fs1 (emit (Materialize params) (afterLookup key st)))).
  destruct (invoke_spec action fresh (afterStore key params fresh fs1 (afterLookup key st)))
    as (_ & Hfs' & Hcache & Hinv & _).
  destruct (afterStore_spec key params fresh fs1 (afterLookup key st))
    as (_ & Hinv' & Hfs1).
  split_and!; simpl; try done.
  - by rewrite Hbusy, Hfs.
  - by rewrite invoke_inflight.
  - by rewrite Hfs', Hro, Hfs1.
  - by rewrite Hinv, Hinv', Hi0.
Qed.

Lemma fill requests st :
  Forall (λ r, cacheable shaExact r.1 ∧ readOnlyAction r.2) requests →
  NoDup ((values (cache st)).*1 ++ map keyOf requests) →
  length (values (cache st)) + length requests ≤ maxEntries (cache st) →
  let st' := serveAll delegate cacheKeyForSha shaExact requests st in
  ∃ news projects,
    values (cache st') = values (cache st) ++ news ∧
    news.*1 = map keyOf requests ∧
    invocations (trace st') = invocations (trace st) ++ projects ∧
    (baseDir ∘ snd) <$> news = baseDir <$> projects ∧
    busy (fs st') = busy (fs st) ∧
    inflight st' = inflight st ∧
    maxEntries (cache st') = maxEntries (cache st).
Proof.
  revert st. induction requests as [|[params action] rest IH];
    intros st Hreqs Hnodup Hlen; simpl.
  { exists [], []. by rewrite !app_nil_r. }
  apply Forall_cons in Hreqs as [[Hc Hro] Hreqs]. simpl in *.
  assert (cacheKeyForSha (id params) ∉ (values (cache st)).*1) as Hkey.
  { apply NoDup_app in Hnodup as (_ & Hdisj & _).
    intros Hin. apply (Hdisj _ Hin). apply elem_of_cons. by left. }
  destruct (miss_step params action st Hc Hro Hkey)
    as (fresh & pre & Hvs & Hmax & Hq & Hbusy & Hcache & Hq' & Hfs & Hinv).
  cbv zeta in Hcache, Hq', Hfs, Hinv.
  rewrite afterPut_room in Hcache, Hq'
    by (rewrite ?Hvs, ?Hmax; first [by apply entryOf_None|lia]).
  simpl in Hcache, Hq'. rewrite Hvs in Hcache.
  set (st1 := (serve params action st).2) in *.
  destruct (IH st1)
    as (news & projects & Hvs' & Hkeys & Hinv' & Hdirs & Hbusy' & Hq'' & Hmax').
  - done.
  - rewrite Hcache. simpl. rewrite fmap_app. simpl.
    by rewrite <-(assoc_L (++)).
  - rewrite Hcache. simpl. rewrite length_app. simpl. lia.
  - exists ((cacheKeyForSha (id params), spread fresh params) :: news),
           (fresh :: projects).
    rewrite Hvs', Hinv', Hbusy', Hmax', Hq'', Hcache, Hinv, Hfs, Hbusy, Hq', Hq.
    simpl. rewrite <-!(assoc_L (++)). simpl.
    split_and!; try done; by f_equal.
Qed.

Lemma serveAll_app
    (requests1 requests2 : list (ProjectLoadingParameters * WithLoadedProject T)) st :
  serveAll delegate cacheKeyForSha shaExact (requests1 ++ requests2) st =
  serveAll delegate cacheKeyForSha shaExact requests2
    (serveAll delegate cacheKeyForSha shaExact requests1 st).
Proof.
  revert st. induction requests1 as [|[params action] rest IH]; intros st; [done|].
  simpl. apply IH.
Qed.

(** One request more than the capacity. *)
Lemma overflow first others capacity storage :
  length others = capacity →
  Forall (λ r, cacheable shaExact r.1 ∧ readOnlyAction r.2) (first :: others) →
  NoDup (map keyOf (first :: others)) →
  busy storage = ∅ →
  let st := serveAll delegate cacheKeyForSha shaExact (first :: others)
              (newLoader (Some capacity) storage) in
  ∃ checkout,
    head (invocations (trace st)) = Some checkout ∧
    entryOf (keyOf first) (values (cache st)) = None ∧
    (values (cache st)).*1 = map keyOf others ∧
    inflight st = leftInFlight (baseDir checkout) eviction (fs st) ∧
    pathExists (fs (settle st).2) (baseDir checkout) = false.
Proof.
  intros Hlen Hreqs Hnodup Hbusy.
  assert (∀ st checkout,
            inflight st = leftInFlight (baseDir checkout) eviction (fs st) →
            busy (fs st) = ∅ →
            pathExists (fs (settle st).2) (baseDir checkout) = false) as Hsettled.
  { intros st checkout Hq Hb.
    apply (settle_reclaims st [] (baseDir checkout) eviction (fs st));
      [done|done|]. rewrite Hb. apply not_elem_of_empty. }
  destruct (last others) as [final|] eqn:Hlast.
  2:{ (* capacity 0: the entry put is the entry evicted *)
    apply last_None in Hlast. subst others. simpl in Hlen. subst capacity.
    destruct first as [params action].
    apply Forall_singleton in Hreqs as [Hc Hro]. cbn [fst snd] in *.
    cbv zeta. cbn [serveAll].
    set (st0 := newLoader (Some 0) storage).
    destruct (miss_step params action st0 Hc Hro)
      as (fresh & pre & Hvs & Hmax & Hq & Hbusy' & Hcache & Hq' & Hfs & Hinv).
    { apply not_elem_of_nil. }
    cbv zeta in Hcache, Hq', Hfs, Hinv.
    destruct (afterPut_zero (cacheKeyForSha (id params)) (spread fresh params) pre)
      as [Hput Hputq]; [by rewrite Hmax|by rewrite Hvs|].
    exists fresh.
    assert (inflight (serve params action st0).2
            = leftInFlight (baseDir fresh) eviction (fs (serve params action st0).2))
      as Hleft by (by rewrite Hq', Hputq, Hq, Hfs).
    split_and!.
    - by rewrite Hinv.
    - by rewrite Hcache, Hput.
    - by rewrite Hcache, Hput.
    - done.
    - apply Hsettled; [done|]. by rewrite Hfs, Hbusy'. }
  apply last_Some in Hlast as [middle ->].
  rewrite length_app in Hlen. simpl in Hlen.
  rewrite app_comm_cons in Hreqs, Hnodup |- *.
  rewrite serveAll_app. cbv zeta.
  apply Forall_app in Hreqs as [Hfirsts Hfinal].
  apply Forall_singleton in Hfinal as [Hc Hro].
  rewrite map_app in Hnodup.
  apply NoDup_app in Hnodup as (Hnd & Hdisj & _).
  destruct (fill (first :: middle) (newLoader (Some capacity) storage))
    as (news & projects & Hvs & Hkeys & Hinv & Hdirs & Hbusy' & Hq0 & Hmax).
  { done. }
  { done. }
  { simpl. lia. }
  set (st1 := serveAll delegate cacheKeyForSha shaExact (first :: middle)
                (newLoader (Some capacity) storage)) in *.
  simpl in Hvs, Hinv, Hbusy', Hmax, Hq0.
  destruct news as [|[lru victim] rest]; [done|].
  destruct projects as [|checkout projects]; [done|].
  rewrite fmap_cons in Hkeys, Hdirs. cbn [map fst snd compose] in Hkeys, Hdirs.
  injection Hkeys as Hlru Hrest.
  injection Hdirs as Hdir Hdirs.
  assert (cacheKeyForSha (id final.1) ∉ (values (cache st1)).*1) as Hkey.
  { rewrite Hvs, fmap_cons. cbn [fst]. rewrite Hlru, Hrest.
    intros Hin. apply (Hdisj _ Hin). apply list_elem_of_singleton. done. }
  destruct final as [params action]. cbn [fst snd map] in *.
  destruct (miss_step params action st1 Hc Hro Hkey)
    as (fresh & pre & Hvs' & Hmax' & Hq & Hbusy'' & Hcache & Hq' & Hfs & Hinv').
  cbv zeta in Hcache, Hq', Hfs, Hinv'.
  assert (lru ∉ rest.*1) as Hlru'.
  { rewrite Hlru, Hrest. by apply NoDup_cons in Hnd as [? _]. }
  destruct (afterPut_full (cacheKeyForSha (id params)) (spread fresh params)
              pre lru victim rest) as (Hput & Hputq).
  { by rewrite Hvs', Hvs. }
  { by rewrite Hvs'. }
  { done. }
  { rewrite Hvs', Hmax', Hmax, Hvs. simpl.
    assert (length rest = length middle) as ->; [|lia].
    by rewrite <-(length_fmap fst rest), Hrest, length_map. }
  change (serveAll delegate cacheKeyForSha shaExact [(params, action)] st1)
    with (serve params action st1).2.
  exists checkout.
  assert (inflight (serve params action st1).2
          = leftInFlight (baseDir checkout) eviction (fs (serve params action st1).2))
    as Hleft.
  { by rewrite Hq', Hputq, Hq, Hq0, Hfs, <- Hdir. }
  split_and!.
  - by rewrite Hinv', Hinv.
  - rewrite Hcache, Hput. apply entryOf_None.
    rewrite fmap_app. simpl. rewrite Hlru in Hlru'.
    rewrite not_elem_of_app. split; [exact Hlru'|].
    rewrite list_elem_of_singleton. intros Heq.
    apply (Hdisj (cacheKeyForSha (id first.1))).
    + apply elem_of_cons. by left.
    + apply list_elem_of_singleton. done.
  - rewrite Hcache, Hput, fmap_app, map_app. simpl. by rewrite Hrest.
  - done.
  - apply Hsettled; [done|]. by rewrite Hfs, Hbusy'', Hbusy', Hbusy.
Qed.

End Overflow.

(** ** The store keeps its entries in the order of their last use *)

Lemma lastUse_snoc key ops op :
  lastUse key (ops ++ [op]) =
  if touches key op then S (length ops) else lastUse key ops.
Proof.
  induction ops as [|op' ops IH]; simpl.
  - by destruct (touches key op).
  - rewrite IH. destruct (touches key op); [done|].
    by destruct (lastUse key ops).
Qed.

Lemma lastUse_le key ops : lastUse key ops ≤ length ops.
Proof.
  induction ops as [|op ops IH]; simpl; [done|].
  destruct (lastUse key ops); [destruct (touches key op)|]; lia.
Qed.

Lemma StronglySorted_filter_2 {A} (R : relation A) (P : A → Prop)
    `{!∀ x, Decision (P x)} (l : list A) :
  StronglySorted R l → StronglySorted R (filter P l).
Proof.
  induction 1 as [|x l Hl IH Hx]; [constructor|].
  rewrite filter_cons. case_decide; [|done].
  constructor; [done|].
  apply Forall_forall. intros y [_ Hy]%list_elem_of_filter.
  by eapply Forall_forall in Hx.
Qed.

Lemma StronglySorted_weaken {A} (R R' : relation A) (l : list A) :
  (∀ x y, x ∈ l → y ∈ l → R x y → R' x y) →
  StronglySorted R l → StronglySorted R' l.
Proof.
  intros Himpl Hsorted. induction Hsorted as [|x l Hl IH Hx]; [constructor|].
  constructor.
  - apply IH. intros y z Hy Hz. apply Himpl; by apply elem_of_cons; right.
  - apply Forall_forall. intros y Hy.
    apply Himpl; [by apply elem_of_cons; left|by apply elem_of_cons; right|].
    by eapply Forall_forall in Hx.
Qed.

Lemma elem_of_without kv key vs : kv ∈ without key vs → kv.1 ≠ key ∧ kv ∈ vs.
Proof. unfold without. by rewrite list_elem_of_filter. Qed.

(** The entries that an operation leaves in place keep their order; the
    entry it touches goes to the end. *)
Lemma order_kept ops op kept :
  (∀ kv, kv ∈ kept → touches kv.1 op = false) →
  StronglySorted (usedBefore ops) kept →
  StronglySorted (usedBefore (ops ++ [op])) kept.
Proof.
  intros Hkept Hsorted.
  eapply StronglySorted_weaken; [|exact Hsorted].
  intros x y Hx Hy. unfold usedBefore. rewrite !lastUse_snoc.
  by rewrite (Hkept x Hx), (Hkept y Hy).
Qed.

Lemma order_touched ops op kept key entry :
  touches key op = true →
  (∀ kv, kv ∈ kept → touches kv.1 op = false) →
  StronglySorted (usedBefore (ops ++ [op])) kept →
  StronglySorted (usedBefore (ops ++ [op])) (kept ++ [(key, entry)]).
Proof.
  intros Hkey Hkept Hsorted.
  apply StronglySorted_app_2; [|done|repeat constructor].
  intros x y Hx ->%list_elem_of_singleton.
  unfold usedBefore. rewrite !lastUse_snoc. simpl. rewrite Hkey, (Hkept x Hx).
  pose proof (lastUse_le x.1 ops). lia.
Qed.

Lemma runOp_values op st :
  values (cache (runOp op st).2) =
  let vs := values (cache st) in
  match op with
  | Get key =>
      without key vs ++
      match entryOf key vs with Some e => [(key, e)] | None => [] end
  | Put key entry =>
      let vs1 := without key vs ++ [(key, entry)] in
      if decide (maxEntries (cache st) < length vs1) then
        match vs1 with (lru, _) :: _ => without lru vs1 | [] => vs1 end
      else vs1
  | Evict key => without key vs
  end.
Proof.
  destruct op as [key|key entry|key]; simpl.
  - unfold_m. rewrite cache_get_run. simpl. unfold afterGet.
    destruct (entryOf key (values (cache st))) eqn:He; simpl; [done|].
    by rewrite without_absent, app_nil_r.
  - rewrite cache_put_run. cbn [snd]. unfold afterPut. cbv zeta.
    cbn [values cache set_cache set_values maxEntries].
    case_decide; [|done].
    destruct (without key (values (cache st)) ++ [(key, entry)])
      as [|[lru v] vs] eqn:Hvs; [done|].
    by rewrite afterEvict_values.
  - rewrite cache_evict_run. cbn [snd]. apply afterEvict_values.
Qed.

Lemma runOp_order ops op st :
  StronglySorted (usedBefore ops) (values (cache st)) →
  StronglySorted (usedBefore (ops ++ [op])) (values (cache (runOp op st).2)).
Proof.
  intros Hsorted. rewrite runOp_values. cbv zeta.
  destruct op as [key|key entry|key].
  - assert (StronglySorted (usedBefore (ops ++ [Get key]))
              (without key (values (cache st)))) as Hkept.
    { apply order_kept; [|by apply StronglySorted_filter_2].
      intros kv [Hne _]%elem_of_without. simpl. by apply bool_decide_eq_false_2. }
    destruct (entryOf key (values (cache st))); [|by rewrite app_nil_r].
    apply order_touched; [by apply bool_decide_eq_true_2| |done].
    intros kv [Hne _]%elem_of_without. simpl. by apply bool_decide_eq_false_2.
  - assert (StronglySorted (usedBefore (ops ++ [Put key entry]))
              (without key (values (cache st)) ++ [(key, entry)])) as Hput.
    { apply order_touched; [by apply bool_decide_eq_true_2| |].
      + intros kv [Hne _]%elem_of_without. simpl. by apply bool_decide_eq_false_2.
      + apply order_kept; [|by apply StronglySorted_filter_2].
        intros kv [Hne _]%elem_of_without. simpl. by apply bool_decide_eq_false_2. }
    case_decide; [|done].
    destruct (without key (values (cache st)) ++ [(key, entry)])
      as [|[lru v] vs]; [done|].
    by apply StronglySorted_filter_2.
  - apply order_kept; [done|by apply StronglySorted_filter_2].
Qed.

Lemma runOps_snoc ops op st :
  runOps (ops ++ [op]) st = (runOp op (runOps ops st)).2.
Proof.
  unfold runOps. revert st. induction ops as [|op' ops IH]; intros st; simpl.
  - unfold_m. by destruct (runOp_run op st) as (st' & -> & _).
  - unfold_m. destruct (runOp_run op' st) as (st' & -> & _). apply IH.
Qed.

Lemma runOps_order ops st :
  values (cache st) = [] →
  StronglySorted (usedBefore ops) (values (cache (runOps ops st))).
Proof.
  intros Hempty. induction ops as [|op ops IH] using rev_ind.
  - unfold runOps. simpl. rewrite Hempty. constructor.
  - rewrite runOps_snoc. by apply runOp_order.
Qed.

(** The entry at the head of the store was used before every other, so its
    key occurs once. *)
Lemma head_used_first ops st lru victim rest :
  values (cache st) = [] →
  values (cache (runOps ops st)) = (lru, victim) :: rest →
  Forall (λ kv, lastUse lru ops < lastUse kv.1 ops) rest ∧ lru ∉ rest.*1.
Proof.
  intros Hempty Hvs.
  pose proof (runOps_order ops st Hempty) as Hsorted.
  rewrite Hvs in Hsorted. apply StronglySorted_cons in Hsorted as [Hhead _].
  split; [exact Hhead|].
  intros ([k v] & -> & Hin)%list_elem_of_fmap.
  eapply Forall_forall in Hhead; [|exact Hin].
  unfold usedBefore in Hhead. simpl in Hhead. lia.
Qed.

(** C7: the store of a new loader has the capacity given to the
    constructor, 20 when none is given.  Whatever the capacity N, the store
    never holds more than N entries, whatever store operations or requests
    are run, with whatever delegate and actions.  The entry at the head of
    the store is the one whose last [get] or [put] lies furthest back.  A
    [put] of a new key into a full store evicts the entry at the head and
    hands it to the eviction callback, which starts [cleanUp] of its
    directory: once the runtime has resumed that call the directory is not
    on storage, unless storage rejects the removal.  When N+1 read-only
    requests with pairwise different keys are served by a new loader of
    capacity N (the delegate delivers each time, the actions leave storage
    alone, no removal is rejected), the entry of the first request is
    evicted, the entries of the N later requests are kept, and the
    reclamation of the directory of the first checkout is in flight: the
    directory is gone once that call has been resumed. *)
Theorem store_is_bounded_and_evicts_least_recently_used
    (delegate : Materializer) (cacheKeyForSha : RemoteRepoRef → string)
    (shaExact : string → bool) {T} (capacity : nat) (storage : FileSys) :
  maxEntries (cache (newLoader None storage)) = 20 ∧
  maxEntries (cache (newLoader (Some capacity) storage)) = capacity ∧
  (∀ ops,
     length (values (cache (runOps ops (newLoader (Some capacity) storage))))
       ≤ capacity) ∧
  (∀ requests : list (ProjectLoadingParameters * WithLoadedProject T),
     length (values (cache (serveAll delegate cacheKeyForSha shaExact requests
                              (newLoader (Some capacity) storage))))
       ≤ capacity) ∧
  (∀ ops lru victim rest,
     values (cache (runOps ops (newLoader (Some capacity) storage)))
       = (lru, victim) :: rest →
     Forall (λ kv, lastUse lru ops < lastUse kv.1 ops) rest) ∧
  (∀ ops key entry lru victim rest,
     let st := runOps ops (newLoader (Some capacity) storage) in
     values (cache st) = (lru, victim) :: rest →
     length (values (cache st)) = capacity →
     entryOf key (values (cache st)) = None →
     let st' := (cache_put evictCallback key entry st).2 in
     values (cache st') = rest ++ [(key, entry)] ∧
     inflight st'
       = inflight st ++ leftInFlight (baseDir victim) eviction storage ∧
     (baseDir victim ∉ busy storage →
      pathExists (fs (settle st').2) (baseDir victim) = false)) ∧
  (∀ (first : ProjectLoadingParameters * WithLoadedProject T) others,
     length others = capacity →
     Forall (λ r, cacheable shaExact r.1 ∧ readOnlyAction r.2) (first :: others) →
     NoDup (map (λ r, cacheKeyForSha (id r.1)) (first :: others)) →
     reliable delegate →
     busy storage = ∅ →
     let st := serveAll delegate cacheKeyForSha shaExact (first :: others)
                 (newLoader (Some capacity) storage) in
     ∃ checkout,
       head (invocations (trace st)) = Some checkout ∧
       entryOf (cacheKeyForSha (id first.1)) (values (cache st)) = None ∧
       (values (cache st)).*1 = map (λ r, cacheKeyForSha (id r.1)) others ∧
       inflight st = leftInFlight (baseDir checkout) eviction (fs st) ∧
       pathExists (fs (settle st).2) (baseDir checkout) = false).
Proof.
  assert (bounded (cache (newLoader (Some capacity) storage))) as Hb0
    by (unfold bounded; simpl; lia).
  split_and!; try done.
  - intros ops.
    destruct (runOps_bounded ops (newLoader (Some capacity) storage) Hb0)
      as (Hmax & _ & Hb).
    unfold bounded in Hb. by rewrite Hmax in Hb.
  - intros requests.
    destruct (serveAll_bounded delegate cacheKeyForSha shaExact requests
                (newLoader (Some capacity) storage) Hb0) as [Hmax Hb].
    unfold bounded in Hb. by rewrite Hmax in Hb.
  - intros ops lru victim rest Hvs.
    by destruct (head_used_first ops (newLoader (Some capacity) storage) lru victim rest
                eq_refl Hvs).
  - intros ops key entry lru victim rest st Hvs Hfull Hnone st'.
    destruct (head_used_first ops (newLoader (Some capacity) storage) lru victim rest
                eq_refl Hvs) as [_ Hlru].
    destruct (runOps_bounded ops (newLoader (Some capacity) storage) Hb0)
      as (Hmax & Hfs & _).
    fold st in Hmax, Hfs. simpl in Hmax, Hfs.
    subst st'. rewrite cache_put_run. cbn [snd].
    destruct (afterPut_full key entry st lru victim rest) as [Hput Hq];
      [done|by apply entryOf_None|done|by rewrite Hmax, Hfull|].
    rewrite Hfs in Hq. split_and!; [done|done|].
    intros Hbusy.
    apply (settle_reclaims _ (inflight st) (baseDir victim) eviction storage).
    + done.
    + by rewrite afterPut_fs, Hfs.
    + by rewrite afterPut_fs, Hfs.
  - intros first others Hlen Hreqs Hnodup Hreliable Hbusy.
    by apply overflow.
Qed.


(** * Runs on concrete collaborators *)

Module Runs.

Import Sample.

(** C5: what [cleanUp] does to [deleteOnExit].  A branch request without a
    lifecycle handle records its checkout directory in [deleteOnExit] and
    sets the idle timer.  When the timer fires, [cleanUp] removes the
    directory from storage, and the path is still in [deleteOnExit]
    afterwards: [this.deleteOnExit.slice(ix, 1)] builds a copy and leaves
    the array as it is. *)
Theorem cleanUp_leaves_path_in_deleteOnExit :
  let st1 := (load main whereAmI started).2 in
  let st2 := (fireTimers st1).2 in
  deleteOnExit st1 = ["/tmp/r-main"] ∧
  pathExists (fs st1) "/tmp/r-main" = true ∧
  removeCalls "/tmp/r-main" (trace st2) = [true] ∧
  pathExists (fs st2) "/tmp/r-main" = false ∧
  indexOf "/tmp/r-main" (deleteOnExit st1) = 0%Z ∧
  deleteOnExit st2 = ["/tmp/r-main"].
Proof. vm_compute. by split_and!. Qed.

(** C1, as stated, fails: two read-only requests for the same repository
    and the same exact commit hash, the second with other clone options,
    make the delegate materialize twice. *)
Lemma other_clone_options_materialize_again :
  ¬ (∀ (p1 p2 : ProjectLoadingParameters) (a1 a2 : WithLoadedProject string)
       (st0 : State),
       cacheable shaExact p1 → readOnly p2 = true → id p2 = id p1 →
       let st1 := (load p1 a1 st0).2 in
       let st2 := (load p2 a2 st1).2 in
       length (materializations (trace st2))
         ≤ length (materializations (trace st0)) + 1).
Proof.
  intros Hclaim.
  specialize (Hclaim pinned (shallow pinned) whereAmI whereAmI started).
  assert (cacheable shaExact pinned) as Hc by (by split).
  specialize (Hclaim Hc eq_refl eq_refl).
  vm_compute in Hclaim. lia.
Qed.

(** The same request twice can make the delegate materialize twice as
    well: when the request leaves out [cloneOptions] and the checkout
    owns a [cloneOptions] property, the spread keeps the property of the
    checkout, and the entry fails the validity check of the very request
    it was stored for. *)
Lemma omitted_clone_options_materialize_again :
  let serve := @doWithProject remembering cacheKeyForSha shaExact string in
  let st1 := (serve pinned whereAmI started).2 in
  let st2 := (serve pinned whereAmI st1).2 in
  cloneOptionsKey pinned = None ∧
  ownCloneOptions (clonedShallow pinned) = VCloneOptions {[ "depth" := PNum 1 ]} ∧
  isValid (spread (clonedShallow pinned) pinned) pinned (fs st1) = false ∧
  access (fs st1) (baseDir (clonedShallow pinned)) = true ∧
  materializations (trace st2) = [pinned; pinned].
Proof. vm_compute. by split_and!. Qed.

(** The delegate is asked while the directory of the stale entry is
    still on storage: the reclamation started by the eviction has not
    removed anything yet.  A delegate that refuses to clone into a
    directory that is there fails, and its error is the result. *)
Lemma stale_directory_is_there_when_the_delegate_clones :
  let serve := @doWithProject picky cacheKeyForSha shaExact string in
  let st1 := (serve pinned whereAmI started).2 in
  let out := serve (shallow pinned) whereAmI st1 in
  pathExists (fs st1) (cloneDir (id pinned)) = true ∧
  out.1 = Throw "destination exists" ∧
  entryOf (cacheKeyForSha (id pinned)) (values (cache out.2)) = None ∧
  inflight out.2 = [AtPathExists (cloneDir (id pinned)) eviction true] ∧
  removeCalls (cloneDir (id pinned)) (trace out.2) = [] ∧
  pathExists (fs (settle out.2).2) (cloneDir (id pinned)) = false.
Proof. vm_compute. by split_and!. Qed.

(** C8, as stated, fails: a storage failure in the validity check is
    absorbed but not logged.  The only call of the file that logs an
    error is [logger.warn(err)] in [cleanUp]; the [catch] around
    [fs.access] logs nothing.  A request that finds the directory of its
    entry deleted behind its back succeeds and no warning is logged. *)
Lemma rejected_access_is_not_logged :
  ¬ (∀ (params : ProjectLoadingParameters) (action : WithLoadedProject string)
       (st : State) (entry : JsObject),
       cacheable shaExact params →
       entryOf (cacheKeyForSha (id params)) (values (cache st)) = Some entry →
       getProp entry "cloneOptions" = cloneOptionsValue params →
       access (fs st) (baseDir entry) = false →
       warnings (trace (load params action st).2) ≠ warnings (trace st)).
Proof.
  intros Hclaim.
  apply (Hclaim pinned whereAmI deletedOutOfBand (spread (cloned pinned) pinned)).
  - by split.
  - by vm_compute.
  - by vm_compute.
  - by vm_compute.
  - by vm_compute.
Qed.

(** What such a request adds to the trace, event by event: the lines of
    the lookup, of the eviction and of the refill, none of which carries
    an error.  A request whose entry is stale because the clone options
    differ, with its directory accessible, adds the same lines. *)
Lemma rejected_access_logs_what_a_mismatch_logs :
  let cached := (load pinned whereAmI started).2 in
  access (fs deletedOutOfBand) (cloneDir (id pinned)) = false ∧
  trace (load pinned whereAmI deletedOutOfBand).2 =
    trace deletedOutOfBand
    ++ [Log debug "Attempting to reuse clone for readonly use of '%j'";
        Log debug "Evicting project '%j' from cache";
        Materialize pinned;
        Log debug "Caching project '%j' at '%s'";
        Log debug "About to invoke action. Cache stats: %j";
        Invoke (cloned pinned)] ∧
  access (fs cached) (cloneDir (id pinned)) = true ∧
  logLines (trace (load (shallow pinned) whereAmI cached).2) =
    logLines (trace cached)
    ++ ["Attempting to reuse clone for readonly use of '%j'";
        "Evicting project '%j' from cache";
        "Caching project '%j' at '%s'";
        "About to invoke action. Cache stats: %j"].
Proof. vm_compute. by split_and!. Qed.

(** C9, as stated, fails: a checkout that stays in the cache is on no
    list the shutdown hook goes through and has no timer.  After a request
    pinned to a commit, the timers have fired and the shutdown hook has
    run, [fs.remove] was never called on the directory of the checkout
    and the directory is still on storage. *)
Lemma cached_checkout_outlives_shutdown :
  ¬ (∀ (params : ProjectLoadingParameters) (action : WithLoadedProject string)
       (st0 : State) (checkout : JsObject),
       let st1 := (load params action st0).2 in
       invocations (trace st1) = invocations (trace st0) ++ [checkout] →
       let st2 := (shutdownHook (fireTimers st1).2).2 in
       removeCalls (baseDir checkout) (trace st2)
         = removeCalls (baseDir checkout) (trace st0) ++ [true] ∧
       pathExists (fs st2) (baseDir checkout) = false).
Proof.
  intros Hclaim.
  destruct (Hclaim pinned whereAmI started (cloned pinned)) as [_ Hgone].
  - by vm_compute.
  - vm_compute in Hgone. discriminate Hgone.
Qed.

(** When [fs.remove] is rejected, the idle timer and the shutdown flush
    each call it for the same path, and the path stays on storage. *)
Lemma rejected_removal_is_repeated :
  let st := (load main whereAmI (newLoader None stuckStorage)).2 in
  let st' := (inTurn fire
                [TimerFires {| captured := cloned main; reason := timeout |};
                 ShutdownFlush "/tmp/r-main"] st).2 in
  pathExists (fs st) "/tmp/r-main" = true ∧
  removeCalls "/tmp/r-main" (trace st') = [false; false] ∧
  warnings (trace st') = ["EBUSY"; "EBUSY"] ∧
  pathExists (fs st') "/tmp/r-main" = true.
Proof. vm_compute. by split_and!. Qed.

(** A path that is listed twice is removed twice by the shutdown hook:
    both calls of [cleanUp] have seen the directory before either of them
    removes it. *)
Lemma listed_twice_is_removed_twice :
  let st := (load main whereAmI (load main whereAmI started).2).2 in
  deleteOnExit st = ["/tmp/r-main"; "/tmp/r-main"] ∧
  (shutdownHook st).1 = Ok 0%Z ∧
  removeCalls "/tmp/r-main" (trace (shutdownHook st).2) = [true; true] ∧
  pathExists (fs (shutdownHook st).2) "/tmp/r-main" = false.
Proof. vm_compute. by split_and!. Qed.

(** *** The theorems at work *)

Local Abbreviation cached := (load pinned whereAmI started).2.
Local Abbreviation branched := (load main whereAmI started).2.
Local Abbreviation timer :=
  (TimerFires {| captured := cloned main; reason := timeout |}).
Local Abbreviation overflowed :=
  (serveAll delegate cacheKeyForSha shaExact queue (newLoader (Some 2) emptyStorage)).

Lemma bypass_request_is_served_fresh_witness :
  bypass shaExact main ∧
  cache (load main whereAmI started).2 = cache started.
Proof.
  assert (bypass shaExact main) as Hbypass by (right; reflexivity).
  split; [exact Hbypass|].
  exact (proj1 (bypass_request_is_served_fresh delegate cacheKeyForSha shaExact
                  main whereAmI started Hbypass)).
Defined.

Lemma bypass_checkout_registered_once_witness :
  bypass shaExact main ∧
  delegate main (fs started) = (Ok (cloned main), withDir "/tmp/r-main" emptyStorage) ∧
  ∃ cb,
    timers (load main whereAmI started).2
      = timers started ++ [{| callback := cb; delay := 10000; unrefd := true |}] ∧
    reclaimsDir cb (baseDir (cloned main)) ∧
    deleteOnExit (load main whereAmI started).2
      = deleteOnExit started ++ [baseDir (cloned main)] ∧
    disposables (load main whereAmI started).2 = disposables started.
Proof.
  assert (bypass shaExact main) as Hbypass by (right; reflexivity).
  assert (delegate main (fs started)
          = (Ok (cloned main), withDir "/tmp/r-main" emptyStorage)) as Hclone
    by reflexivity.
  split_and!; [exact Hbypass|exact Hclone|].
  exact (proj1
    (bypass_checkout_registered_once delegate cacheKeyForSha shaExact
       main whereAmI started _ _ Hbypass Hclone)).
Defined.


Lemma second_request_served_from_cache_witness :
  0 < maxEntries (cache started) ∧
  bounded (cache started) ∧
  later cached cached ∧
  access (fs cached) (baseDir (cloned pinned)) = true ∧
  ∃ entry,
    entryOf (cacheKeyForSha (id pinned)) (values (cache cached)) = Some entry ∧
    baseDir entry = baseDir (cloned pinned) ∧
    invocations (trace (load pinned whereAmI cached).2)
      = invocations (trace started) ++ [cloned pinned; entry] ∧
    materializations (trace (load pinned whereAmI cached).2)
      = materializations (trace cached) ∧
    length (materializations (trace (load pinned whereAmI cached).2))
      ≤ length (materializations (trace started)) + 1.
Proof.
  assert (cacheable shaExact pinned) as Hc by (split; reflexivity).
  assert (0 < maxEntries (cache started)) as Hpos by (vm_compute; lia).
  assert (bounded (cache started)) as Hb by (vm_compute; lia).
  assert (cloneOptionsKey pinned = None →
          ownCloneOptions (cloned pinned) = undefined) as Hopt
    by (intros _; vm_compute; reflexivity).
  assert (invocations (trace cached) = invocations (trace started) ++ [cloned pinned])
    as Hran by (vm_compute; reflexivity).
  assert (later cached cached) as Hlater by apply later_now.
  assert (access (fs cached) (baseDir (cloned pinned)) = true)
    as Hacc by (vm_compute; reflexivity).
  split_and!; [exact Hpos|exact Hb|exact Hlater|exact Hacc|].
  exact (second_request_served_from_cache delegate cacheKeyForSha shaExact
           pinned pinned whereAmI whereAmI started cached (cloned pinned)
           Hc eq_refl eq_refl eq_refl Hpos Hb Hopt Hran Hlater Hacc).
Defined.

Lemma hit_serves_merged_entry_witness :
  0 < maxEntries (cache started) ∧
  bounded (cache started) ∧
  later cached cached ∧
  isValid (spread (cloned pinned) pinned) pinned (fs cached) = true ∧
  invocations (trace (load pinned whereAmI cached).2)
    = invocations (trace started) ++ [cloned pinned; spread (cloned pinned) pinned].
Proof.
  assert (cacheable shaExact pinned) as Hc by (split; reflexivity).
  assert (0 < maxEntries (cache started)) as Hpos by (vm_compute; lia).
  assert (bounded (cache started)) as Hb by (vm_compute; lia).
  assert (entryOf (cacheKeyForSha (id pinned)) (values (cache started)) = None)
    as Hmiss by reflexivity.
  assert (delegate pinned (fs started)
          = (Ok (cloned pinned), withDir (cloneDir (id pinned)) emptyStorage))
    as Hclone by reflexivity.
  assert (later cached cached) as Hlater by apply later_now.
  assert (isValid (spread (cloned pinned) pinned) pinned (fs cached) = true)
    as Hvalid by (vm_compute; reflexivity).
  split_and!; [exact Hpos|exact Hb|exact Hlater|exact Hvalid|].
  exact (proj1 (proj2
    (hit_serves_merged_entry delegate cacheKeyForSha shaExact
       pinned pinned whereAmI whereAmI started cached _ _
       Hc Hc eq_refl Hpos Hb Hmiss Hclone Hlater Hvalid))).
Defined.

Lemma only_delegate_and_action_errors_surface_witness :
  (doWithProject offline cacheKeyForSha shaExact pinned whereAmI started).1
    = Throw "clone failed" ∧
  ((∃ fs0 fs1, offline pinned fs0 = (Throw "clone failed", fs1) ∧
      invocations (trace (doWithProject offline cacheKeyForSha shaExact
                            pinned whereAmI started).2)
        = invocations (trace started))
   ∨ (∃ p fs0 fs1, whereAmI p fs0 = (Throw "clone failed", fs1) ∧
        invocations (trace (doWithProject offline cacheKeyForSha shaExact
                              pinned whereAmI started).2)
          = invocations (trace started) ++ [p])).
Proof.
  assert ((doWithProject offline cacheKeyForSha shaExact pinned whereAmI started).1
          = Throw "clone failed") as Hthrow by (vm_compute; reflexivity).
  split; [exact Hthrow|].
  exact (proj1 (only_delegate_and_action_errors_surface offline cacheKeyForSha
                  shaExact pinned whereAmI started) "clone failed" Hthrow).
Defined.

Lemma removed_once_by_first_trigger_witness :
  pathExists (fs branched) "/tmp/r-main" = true ∧
  busy (fs branched) = ∅ ∧
  inTurn fire [timer; ShutdownFlush "/tmp/r-main"] branched = fire timer branched ∧
  removeCalls "/tmp/r-main"
    (trace (awaitAll (map start [timer; ShutdownFlush "/tmp/r-main"]) branched).2)
    = removeCalls "/tmp/r-main" (trace branched) ++ [true; true].
Proof.
  assert (pathExists (fs branched) "/tmp/r-main" = true)
    as Hex by (vm_compute; reflexivity).
  assert (busy (fs branched) = ∅) as Hnone by (vm_compute; reflexivity).
  assert ("/tmp/r-main" ∉ busy (fs branched)) as Hbusy
    by (rewrite Hnone; apply not_elem_of_empty).
  assert (Forall (λ t', pathOf t' = "/tmp/r-main") [ShutdownFlush "/tmp/r-main"])
    as Hsame by (repeat constructor).
  pose proof (removed_once_by_first_trigger "/tmp/r-main" timer
                [ShutdownFlush "/tmp/r-main"] branched eq_refl Hsame Hex Hbusy) as Hthm.
  split_and!; [exact Hex|exact Hnone| |].
  - exact (proj1 Hthm).
  - exact (proj1 (proj2 (proj2 (proj2 Hthm)))).
Defined.

Lemma store_is_bounded_and_evicts_least_recently_used_witness :
  reliable delegate ∧
  busy emptyStorage = ∅ ∧
  ∃ checkout,
    head (invocations (trace overflowed)) = Some checkout ∧
    entryOf (cacheKeyForSha (id (request hashA true))) (values (cache overflowed)) = None ∧
    (values (cache overflowed)).*1 = map (λ r, cacheKeyForSha (id r.1)) (tail queue) ∧
    inflight overflowed = leftInFlight (baseDir checkout) eviction (fs overflowed) ∧
    pathExists (fs (settle overflowed).2) (baseDir checkout) = false.
Proof.
  assert (busy emptyStorage = ∅) as Hbusy by reflexivity.
  assert (Forall (λ r : ProjectLoadingParameters * WithLoadedProject string,
                    cacheable shaExact r.1 ∧ readOnlyAction r.2) queue) as Hreqs.
  { repeat constructor. }
  assert (NoDup (map (λ r : ProjectLoadingParameters * WithLoadedProject string,
                        cacheKeyForSha (id r.1)) queue)) as Hnodup.
  { apply (bool_decide_unpack _). vm_compute. exact I. }
  assert (reliable delegate) as Hreliable.
  { intros params fs0. eexists _, _. split; reflexivity. }
  split_and!; [exact Hreliable|exact Hbusy|].
  destruct (store_is_bounded_and_evicts_least_recently_used
              delegate cacheKeyForSha shaExact (T := string) 2 emptyStorage)
    as (_ & _ & _ & _ & _ & _ & Hscenario).
  exact (Hscenario (request hashA true, whereAmI) (tail queue)
           eq_refl Hreqs Hnodup Hreliable Hbusy).
Defined.

End Runs.

(** * Further properties of the loader *)

Lemma invoke_frame {T} (action : WithLoadedProject T) p st :
  deleteOnExit (invoke action p st).2 = deleteOnExit st ∧
  timers (invoke action p st).2 = timers st ∧
  disposables (invoke action p st).2 = disposables st ∧
  (∀ dir, removeCalls dir (trace (invoke action p st).2) = removeCalls dir (trace st)) ∧
  warnings (trace (invoke action p st).2) = warnings (trace st).
Proof.
  unfold invoke. simpl. destruct (action p (fs st)) as [r fs']. simpl.
  unfold removeCalls, warnings. split_and!; try done.
  - intros dir. rewrite omap_app. simpl. by rewrite app_nil_r.
  - rewrite omap_app. simpl. by rewrite app_nil_r.
Qed.

Section Outcome.

Variable delegate : Materializer.
Variable cacheKeyForSha : RemoteRepoRef → string.
Variable shaExact : string → bool.

Local Abbreviation serve := (doWithProject delegate cacheKeyForSha shaExact).

Context {T : Type}.
Implicit Types (params : ProjectLoadingParameters) (action : WithLoadedProject T).

(** The three ways a call can go, with the state in which the delegate
    ([asked]) or the action ([ready]) is called. *)
Lemma doWithProject_cases params action st :
  (∃ entry ready,
     cacheable shaExact params ∧
     entryOf (cacheKeyForSha (id params)) (values (cache st)) = Some entry ∧
     isValid entry params (fs st) = true ∧
     housekeeping st ready ∧ fs ready = fs st ∧
     cache ready = cache (afterGet (cacheKeyForSha (id params)) st) ∧
     serve params action st = invoke action entry ready)
  ∨ (∃ asked fresh fs1 ready,
       housekeeping st asked ∧
       delegate params (fs asked) = (Ok fresh, fs1) ∧
       materializations (trace ready) = materializations (trace st) ++ [params] ∧
       invocations (trace ready) = invocations (trace st) ∧
       serve params action st = invoke action fresh ready)
  ∨ (∃ asked e fs1,
       housekeeping st asked ∧
       delegate params (fs asked) = (Throw e, fs1) ∧
       serve params action st
         = (Throw e, set_fs fs1 (emit (Materialize params) asked))).
Proof.
  destruct (bypass_or_cacheable shaExact params) as [Hb|Hc].
  - rewrite doWithProject_bypass, saveAndRunAction_run by done. cbv zeta.
    set (asked := emit (Log debug (bypassMessage params)) st).
    assert (housekeeping st asked) as Hask by apply housekeeping_log.
    change (fs asked) with (fs st) at 1.
    change (fs st) with (fs asked).
    destruct (delegate params (fs asked)) as [[p|e] fs1] eqn:Hclone.
    + right; left. exists asked, p, fs1, (registered params p (set_fs fs1 (emit (Materialize params) asked))).
      pose proof Hask as (Hm & Hi & _).
      split_and!; try done.
      * rewrite registered_trace.
        change (trace (set_fs fs1 (emit (Materialize params) asked)))
          with (trace asked ++ [Materialize params]).
        by rewrite materializations_app, Hm.
      * rewrite registered_trace.
        change (trace (set_fs fs1 (emit (Materialize params) asked)))
          with (trace asked ++ [Materialize params]).
        rewrite invocations_app, Hi. apply app_nil_r.
    + right; right. by exists asked, e, fs1.
  - set (key := cacheKeyForSha (id params)).
    destruct (entryOf key (values (cache st))) as [entry|] eqn:He;
      [destruct (isValid entry params (fs st)) eqn:Hv|].
    all: try assert (∀ entry', entryOf key (values (cache st)) = Some entry' →
                               isValid entry' params (fs st) = false) as Hstale
           by (intros entry'; rewrite He; intros [= <-]; done).
    + left.
      exists entry,
        (emit (Log debug "About to invoke action. Cache stats: %j")
           (afterGet key
              (emit (Log debug "Attempting to reuse clone for readonly use of '%j'") st))).
      split_and!; [done|done|done| | | |].
      * eapply housekeeping_trans; [apply housekeeping_log|].
        eapply housekeeping_trans; [apply housekeeping_get|].
        apply housekeeping_log.
      * simpl. by rewrite afterGet_fs.
      * unfold afterGet. simpl. by rewrite He.
      * by apply doWithProject_hit.
    + right. rewrite doWithProject_refill by done. cbv zeta. fold key.
      pose proof (housekeeping_lookup key st) as Hask.
      destruct (delegate params (fs (afterLookup key st))) as [[fresh|e] fs1] eqn:Hclone.
      * left. exists (afterLookup key st), fresh, fs1,
          (afterStore key params fresh fs1 (afterLookup key st)).
        destruct (afterStore_spec key params fresh fs1 (afterLookup key st))
          as (Hm & Hi & _).
        pose proof Hask as (Hm0 & Hi0 & _).
        split_and!; try done; [by rewrite Hm, Hm0|by rewrite Hi, Hi0].
      * right. by exists (afterLookup key st), e, fs1.
    + right. rewrite doWithProject_refill by done. cbv zeta. fold key.
      pose proof (housekeeping_lookup key st) as Hask.
      destruct (delegate params (fs (afterLookup key st))) as [[fresh|e] fs1] eqn:Hclone.
      * left. exists (afterLookup key st), fresh, fs1,
          (afterStore key params fresh fs1 (afterLookup key st)).
        destruct (afterStore_spec key params fresh fs1 (afterLookup key st))
          as (Hm & Hi & _).
        pose proof Hask as (Hm0 & Hi0 & _).
        split_and!; try done; [by rewrite Hm, Hm0|by rewrite Hi, Hi0].
      * right. by exists (afterLookup key st), e, fs1.
Qed.

(** X1: every call goes one of three ways.  Either a valid cached entry
    is served: the delegate is not called and the action runs once, on the
    entry and on storage as the call found it.  Or the delegate is called
    once and delivers: the action runs once, on that checkout.  Or the
    delegate is called once and fails: the action does not run and the
    error of the delegate is the result.  In no case is the delegate or
    the action called twice. *)
Theorem call_clones_once_and_runs_once_at_most params action st :
  let out := serve params action st in
  (∃ entry,
     cacheable shaExact params ∧
     entryOf (cacheKeyForSha (id params)) (values (cache st)) = Some entry ∧
     isValid entry params (fs st) = true ∧
     materializations (trace out.2) = materializations (trace st) ∧
     invocations (trace out.2) = invocations (trace st) ++ [entry] ∧
     out.1 = (action entry (fs st)).1 ∧
     fs out.2 = (action entry (fs st)).2)
  ∨ (∃ fs0 fresh fs1 fs2,
       delegate params fs0 = (Ok fresh, fs1) ∧
       materializations (trace out.2) = materializations (trace st) ++ [params] ∧
       invocations (trace out.2) = invocations (trace st) ++ [fresh] ∧
       out.1 = (action fresh fs2).1 ∧
       fs out.2 = (action fresh fs2).2)
  ∨ (∃ fs0 e fs1,
       delegate params fs0 = (Throw e, fs1) ∧
       materializations (trace out.2) = materializations (trace st) ++ [params] ∧
       invocations (trace out.2) = invocations (trace st) ∧
       out.1 = Throw e ∧
       fs out.2 = fs1).
Proof.
  cbv zeta.
  destruct (doWithProject_cases params action st)
    as [(entry & ready & Hc & He & Hv & Hk & Hfs & _ & ->)
       |[(asked & fresh & fs1 & ready & Hk & Hclone & Hm & Hi & ->)
        |(asked & e & fs1 & Hk & Hclone & ->)]].
  - left. exists entry.
    destruct (invoke_spec action entry ready) as (Hr & Hfs' & _ & Hinv & Hmat & _).
    destruct Hk as (Hm0 & Hi0 & _).
    rewrite Hr, Hfs', Hinv, Hmat, Hfs, Hm0, Hi0. by split_and!.
  - right; left. exists (fs asked), fresh, fs1, (fs ready).
    destruct (invoke_spec action fresh ready) as (Hr & Hfs' & _ & Hinv & Hmat & _).
    rewrite Hr, Hfs', Hinv, Hmat, Hm, Hi. by split_and!.
  - right; right. exists (fs asked), e, fs1.
    destruct Hk as (Hm0 & Hi0 & _). simpl.
    rewrite materializations_app, invocations_app, Hm0, Hi0. simpl.
    rewrite app_nil_r. by split_and!.
Qed.

(** X2: for a read-only request pinned to an exact commit hash, the
    delegate is left out exactly when the store holds an entry under the
    key of the request and that entry passes the validity check. *)
Theorem delegate_skipped_iff_valid_entry params action st :
  cacheable shaExact params →
  materializations (trace (serve params action st).2)
    = materializations (trace st)
  ↔ ∃ entry,
      entryOf (cacheKeyForSha (id params)) (values (cache st)) = Some entry ∧
      isValid entry params (fs st) = true.
Proof.
  intros Hc. split.
  - intros Hsame.
    destruct (doWithProject_cases params action st)
      as [(entry & ready & _ & He & Hv & _)
         |[(asked & fresh & fs1 & ready & Hk & Hclone & Hm & Hi & Heq)
          |(asked & e & fs1 & Hk & Hclone & Heq)]].
    + by exists entry.
    + rewrite Heq in Hsame.
      destruct (invoke_spec action fresh ready) as (_ & _ & _ & _ & Hmat & _).
      rewrite Hmat, Hm in Hsame. apply (f_equal length) in Hsame.
      rewrite length_app in Hsame. simpl in Hsame. lia.
    + rewrite Heq in Hsame. simpl in Hsame.
      destruct Hk as (Hm0 & _).
      rewrite materializations_app, Hm0 in Hsame.
      apply (f_equal length) in Hsame.
      rewrite length_app in Hsame. simpl in Hsame. lia.
  - intros (entry & He & Hv).
    rewrite (doWithProject_hit _ _ _ _ _ _ entry) by done.
    match goal with |- context [invoke action entry ?s] =>
      destruct (invoke_spec action entry s) as (_ & _ & _ & _ & -> & _);
      assert (housekeeping st s) as (-> & _)
    end; [|done].
    eapply housekeeping_trans; [apply housekeeping_log|].
    eapply housekeeping_trans; [apply housekeeping_get|].
    apply housekeeping_log.
Qed.

Lemma cacheable_frame params action st :
  cacheable shaExact params →
  deleteOnExit (serve params action st).2 = deleteOnExit st ∧
  timers (serve params action st).2 = timers st ∧
  disposables (serve params action st).2 = disposables st.
Proof.
  intros Hc.
  set (key := cacheKeyForSha (id params)).
  destruct (entryOf key (values (cache st))) as [entry|] eqn:He;
    [destruct (isValid entry params (fs st)) eqn:Hv|].
  all: try assert (∀ entry', entryOf key (values (cache st)) = Some entry' →
                             isValid entry' params (fs st) = false) as Hstale
         by (intros entry'; rewrite He; intros [= <-]; done).
  - rewrite (doWithProject_hit _ _ _ _ _ _ entry) by done.
    match goal with |- context [invoke action entry ?s] =>
      destruct (invoke_frame action entry s) as (-> & -> & -> & _);
      assert (housekeeping st s) as (_ & _ & -> & -> & -> & _)
    end; [|done].
    eapply housekeeping_trans; [apply housekeeping_log|].
    eapply housekeeping_trans; [apply housekeeping_get|].
    apply housekeeping_log.
  - rewrite doWithProject_refill by done. cbv zeta. fold key.
    destruct (housekeeping_lookup key st) as (_ & _ & Hd & Ht & Hp & _).
    destruct (delegate params (fs (afterLookup key st))) as [[fresh|e] fs1];
      [|done].
    destruct (invoke_frame action fresh
                (afterStore key params fresh fs1 (afterLookup key st)))
      as (-> & -> & -> & _).
    destruct (housekeeping_store key params fresh fs1 (afterLookup key st))
      as (_ & _ & -> & -> & -> & _).
    done.
  - rewrite doWithProject_refill by done. cbv zeta. fold key.
    destruct (housekeeping_lookup key st) as (_ & _ & Hd & Ht & Hp & _).
    destruct (delegate params (fs (afterLookup key st))) as [[fresh|e] fs1];
      [|done].
    destruct (invoke_frame action fresh
                (afterStore key params fresh fs1 (afterLookup key st)))
      as (-> & -> & -> & _).
    destruct (housekeeping_store key params fresh fs1 (afterLookup key st))
      as (_ & _ & -> & -> & -> & _).
    done.
Qed.

(** X3: a read-only request pinned to an exact commit hash registers
    nothing for later reclamation, whether it is served from the cache or
    from the delegate and whether or not its parameters carry a lifecycle
    handle: no timer is set, nothing is appended to [deleteOnExit], no
    disposal is registered. *)
Theorem cacheable_request_registers_nothing params action st :
  cacheable shaExact params →
  deleteOnExit (serve params action st).2 = deleteOnExit st ∧
  timers (serve params action st).2 = timers st ∧
  disposables (serve params action st).2 = disposables st.
Proof. apply cacheable_frame. Qed.



End Outcome.

(** X6: an entry that the loader stored for one request passes the validity
    check of another request exactly when the clone options of the asking
    request equal the options kept with the entry and the directory of the
    checkout is accessible.  The options kept with the entry are those the
    storing request names under [cloneOptions]; when that request leaves the
    key out, they are what the checkout owns under [cloneOptions].  So when
    the storing request names its options, or the checkout owns none, the
    entry is valid exactly for the requests that give the same clone
    options (no options and an empty options object are different).  The
    reference, the context and the read-only flag of the asking request
    play no part. *)
Theorem stored_entry_valid_iff_same_options
    (fresh : JsObject) (p1 p2 : ProjectLoadingParameters) (st : State) :
  (cachedProjectIsValid (spread fresh p1) p2 st = (Ok true, st)
   ↔ cloneOptionsValue p2 =
       match cloneOptionsKey p1 with
       | Some v => from_option VCloneOptions undefined v
       | None => ownCloneOptions fresh
       end
     ∧ access (fs st) (baseDir fresh) = true) ∧
  (is_Some (cloneOptionsKey p1) ∨ ownCloneOptions fresh = undefined →
   (cachedProjectIsValid (spread fresh p1) p2 st = (Ok true, st)
    ↔ cloneOptions p2 = cloneOptions p1 ∧ access (fs st) (baseDir fresh) = true)).
Proof.
  assert (cachedProjectIsValid (spread fresh p1) p2 st = (Ok true, st)
          ↔ cloneOptionsValue p2 =
              match cloneOptionsKey p1 with
              | Some v => from_option VCloneOptions undefined v
              | None => ownCloneOptions fresh
              end
            ∧ access (fs st) (baseDir fresh) = true) as Hiff.
  { rewrite cachedProjectIsValid_run. unfold isValid, isEqual.
    rewrite getProp_spread_cloneOptions.
    change (baseDir (spread fresh p1)) with (baseDir fresh).
    split.
    - intros [= Hv]. apply andb_true_iff in Hv as [Heq Hacc].
      by apply bool_decide_eq_true in Heq.
    - intros [Hopts ->]. by rewrite bool_decide_eq_true_2. }
  split; [exact Hiff|].
  intros Hnamed. rewrite Hiff.
  assert (match cloneOptionsKey p1 with
          | Some v => from_option VCloneOptions undefined v
          | None => ownCloneOptions fresh
          end = cloneOptionsValue p1) as ->.
  { unfold cloneOptionsValue, cloneOptions.
    destruct (cloneOptionsKey p1) as [v|]; [done|].
    by destruct Hnamed as [[? ?]| ->]. }
  unfold cloneOptionsValue, undefined.
  split; intros [Hopts Hacc]; (split; [|done]).
  - destruct (cloneOptions p1), (cloneOptions p2); simpl in Hopts; congruence.
  - by rewrite Hopts.
Qed.

(** ** What the store can hold *)

Section Provenance.

Variable delegate : Materializer.
Variable cacheKeyForSha : RemoteRepoRef → string.
Variable shaExact : string → bool.

Local Abbreviation serve := (doWithProject delegate cacheKeyForSha shaExact).
Local Abbreviation wellFounded :=
  (Forall (fromCacheableRequest cacheKeyForSha shaExact)).

Context {T : Type}.

Lemma provenance_without key vs : wellFounded vs → wellFounded (without key vs).
Proof.
  intros Hvs. apply Forall_forall. intros kv [_ Hin]%elem_of_without.
  by eapply Forall_forall in Hvs.
Qed.

Lemma provenance_get key st :
  wellFounded (values (cache st)) → wellFounded (values (cache (afterGet key st))).
Proof.
  intros Hvs. unfold afterGet.
  destruct (entryOf key (values (cache st))) as [e|] eqn:He; simpl; [|done].
  apply Forall_app. split; [by apply provenance_without|].
  apply Forall_singleton. eapply Forall_forall in Hvs; [exact Hvs|].
  by apply entryOf_elem.
Qed.

Lemma provenance_evict key st :
  wellFounded (values (cache st)) → wellFounded (values (cache (afterEvict key st))).
Proof.
  intros Hvs. rewrite afterEvict_values. by apply provenance_without.
Qed.

Lemma provenance_put params fresh st :
  cacheable shaExact params →
  wellFounded (values (cache st)) →
  wellFounded (values (cache (afterPut (cacheKeyForSha (id params))
                                       (spread fresh params) st))).
Proof.
  intros [Hro Hsha] Hvs. unfold afterPut. cbv zeta.
  set (st1 := set_cache _ st).
  assert (wellFounded (values (cache st1))) as Hvs1.
  { subst st1. cbn [values cache set_cache set_values].
    apply Forall_app. split; [by apply provenance_without|].
    apply Forall_singleton. exists (id params).
    cbn [fst snd]. split_and!; [|done|done| |done].
    + apply getProp_spread_params. by rewrite paramsProps_lookup.
    + rewrite (getProp_spread_params fresh params "readOnly"
                 (VPrim (PBool (readOnly params))));
        [by rewrite Hro|by rewrite paramsProps_lookup]. }
  destruct (decide (maxEntries (cache st1) < length (values (cache st1))));
    [|done].
  pose proof (λ k, provenance_evict k st1 Hvs1) as Hev.
  destruct (values (cache st1)) as [|[lru v] vs] eqn:Hvs'; [by rewrite Hvs'|].
  apply Hev.
Qed.

Lemma provenance_request params (action : WithLoadedProject T) st :
  wellFounded (values (cache st)) →
  wellFounded (values (cache (serve params action st).2)).
Proof.
  intros Hvs.
  destruct (bypass_or_cacheable shaExact params) as [Hby|Hc].
  { by rewrite bypass_cache. }
  set (key := cacheKeyForSha (id params)).
  assert (wellFounded (values (cache (afterLookup key st)))) as Hlook.
  { unfold afterLookup. case_match.
    - apply provenance_evict. simpl. by apply provenance_get.
    - by apply provenance_get. }
  destruct (entryOf key (values (cache st))) as [entry|] eqn:He;
    [destruct (isValid entry params (fs st)) eqn:Hv|].
  all: try assert (∀ entry', entryOf key (values (cache st)) = Some entry' →
                             isValid entry' params (fs st) = false) as Hstale
         by (intros entry'; rewrite He; intros [= <-]; done).
  - rewrite (doWithProject_hit _ _ _ _ _ _ entry) by done.
    match goal with |- context [invoke action entry ?s] =>
      destruct (invoke_spec action entry s) as (_ & _ & -> & _)
    end.
    simpl. by apply provenance_get.
  - rewrite doWithProject_refill by done. cbv zeta. fold key.
    destruct (delegate params _) as [[fresh|e] fs1]; [|done].
    destruct (invoke_spec action fresh (afterStore key params fresh fs1 (afterLookup key st)))
      as (_ & _ & -> & _).
    unfold afterStore. simpl.
    exact (provenance_put params fresh
             (emit (Log debug "Caching project '%j' at '%s'")
                (set_fs fs1 (emit (Materialize params) (afterLookup key st))))
             Hc Hlook).
  - rewrite doWithProject_refill by done. cbv zeta. fold key.
    destruct (delegate params _) as [[fresh|e] fs1]; [|done].
    destruct (invoke_spec action fresh (afterStore key params fresh fs1 (afterLookup key st)))
      as (_ & _ & -> & _).
    unfold afterStore. simpl.
    exact (provenance_put params fresh
             (emit (Log debug "Caching project '%j' at '%s'")
                (set_fs fs1 (emit (Materialize params) (afterLookup key st))))
             Hc Hlook).
Qed.

(** X7: whatever requests a new loader serves, every entry in its store
    was put there for a read-only request pinned to an exact commit hash:
    the entry carries the reference of such a request and sits under the
    key of that reference, it reads [readOnly = true], and it is a plain
    object without inherited properties.  Requests that are not read-only
    or name a branch never leave an entry. *)
Theorem store_holds_only_cacheable_requests
    (requests : list (ProjectLoadingParameters * WithLoadedProject T))
    (capacity : option nat) (storage : FileSys) :
  Forall (fromCacheableRequest cacheKeyForSha shaExact)
    (values (cache (serveAll delegate cacheKeyForSha shaExact requests
                      (newLoader capacity storage)))).
Proof.
  assert (∀ st, wellFounded (values (cache st)) →
                wellFounded (values (cache (serveAll delegate cacheKeyForSha
                                              shaExact requests st)))) as Hall.
  { induction requests as [|[params action] rest IH]; intros st Hvs; [done|].
    simpl. apply IH. by apply provenance_request. }
  apply Hall. simpl. constructor.
Qed.

Lemma bypass_materializes params (action : WithLoadedProject T) st :
  bypass shaExact params →
  materializations (trace (serve params action st).2)
    = materializations (trace st) ++ [params].
Proof.
  intros Hb. rewrite doWithProject_bypass, saveAndRunAction_run by done.
  cbv zeta. destruct (delegate params _) as [[p|e] fs1].
  - match goal with |- context [invoke action p ?s] =>
      destruct (invoke_spec action p s) as (_ & _ & _ & _ & -> & _)
    end.
    rewrite registered_trace. simpl.
    rewrite !materializations_app. simpl. by rewrite app_nil_r.
  - simpl. rewrite !materializations_app. simpl. by rewrite app_nil_r.
Qed.

(** X8: requests that are not read-only or that name a branch are never
    answered from the cache, however often they are repeated: a sequence
    of such requests calls the delegate once per request, in order, and
    leaves the store exactly as it was. *)
Theorem bypass_requests_clone_every_time
    (requests : list (ProjectLoadingParameters * WithLoadedProject T)) st :
  Forall (λ r, bypass shaExact r.1) requests →
  let st' := serveAll delegate cacheKeyForSha shaExact requests st in
  materializations (trace st') = materializations (trace st) ++ requests.*1 ∧
  cache st' = cache st.
Proof.
  revert st. induction requests as [|[params action] rest IH];
    intros st Hreqs; simpl.
  { by rewrite app_nil_r. }
  apply Forall_cons in Hreqs as [Hb Hreqs]. simpl in Hb.
  destruct (IH (serve params action st).2 Hreqs) as [Hm Hcache].
  cbv zeta in Hm. rewrite Hm, Hcache, bypass_materializes, bypass_cache by done.
  by rewrite <-(assoc_L (++)).
Qed.

End Provenance.

(** ** One request, repeated *)

Section Repeated.

Variable delegate : Materializer.
Variable cacheKeyForSha : RemoteRepoRef → string.
Variable shaExact : string → bool.

Local Abbreviation serve := (doWithProject delegate cacheKeyForSha shaExact).

Context {T : Type}.

Lemma hits_in_a_row params (actions : list (WithLoadedProject T)) st entry :
  cacheable shaExact params →
  Forall readOnlyAction actions →
  entryOf (cacheKeyForSha (id params)) (values (cache st)) = Some entry →
  isValid entry params (fs st) = true →
  let st' := serveAll delegate cacheKeyForSha shaExact
               (map (λ a, (params, a)) actions) st in
  materializations (trace st') = materializations (trace st) ∧
  invocations (trace st') = invocations (trace st) ++ replicate (length actions) entry ∧
  fs st' = fs st.
Proof.
  intros Hc Hro. revert st. induction Hro as [|action actions Hact _ IH];
    intros st He Hv; simpl.
  { by rewrite app_nil_r. }
  set (st1 := (serve params action st).2).
  assert (entryOf (cacheKeyForSha (id params)) (values (cache st1)) = Some entry
          ∧ fs st1 = fs st
          ∧ materializations (trace st1) = materializations (trace st)
          ∧ invocations (trace st1) = invocations (trace st) ++ [entry])
    as (He1 & Hfs1 & Hm1 & Hi1).
  { subst st1. rewrite (doWithProject_hit _ _ _ _ _ _ entry) by done.
    match goal with |- context [invoke action entry ?s] =>
      destruct (invoke_spec action entry s) as (_ & -> & -> & -> & -> & _);
      assert (housekeeping st s) as (-> & -> & _)
    end.
    { eapply housekeeping_trans; [apply housekeeping_log|].
      eapply housekeeping_trans; [apply housekeeping_get|].
      apply housekeeping_log. }
    rewrite Hact. simpl. rewrite afterGet_entryOf, afterGet_fs. by split_and!. }
  destruct (IH st1) as (Hm & Hi & Hfs); [done|by rewrite Hfs1|].
  cbv zeta in Hm, Hi, Hfs. rewrite Hm, Hi, Hfs, Hm1, Hi1.
  by rewrite <-(assoc_L (++)).
Qed.

(** X9: when a new loader whose store can hold at least one entry is
    asked for the same read-only, pinned request again and again, by
    actions that leave storage alone, the delegate delivers an accessible
    checkout for the first of them, and the request names its clone
    options or the checkout owns none, then the delegate is called for
    that first request only, every action runs, and all of them are handed
    the path of that one checkout. *)
Theorem repeated_request_clones_once params
    (first : WithLoadedProject T) (others : list (WithLoadedProject T))
    (capacity : option nat) (storage : FileSys) fresh fs1 :
  cacheable shaExact params →
  capacity ≠ Some 0 →
  delegate params storage = (Ok fresh, fs1) →
  access fs1 (baseDir fresh) = true →
  (cloneOptionsKey params = None → ownCloneOptions fresh = undefined) →
  Forall readOnlyAction (first :: others) →
  let st := serveAll delegate cacheKeyForSha shaExact
              (map (λ a, (params, a)) (first :: others))
              (newLoader capacity storage) in
  materializations (trace st) = [params] ∧
  length (invocations (trace st)) = S (length others) ∧
  head (invocations (trace st)) = Some fresh ∧
  Forall (λ x, baseDir x = baseDir fresh) (invocations (trace st)) ∧
  fs st = fs1.
Proof.
  intros Hc Hcap Hclone Hacc Hopt Hro. apply Forall_cons in Hro as [Hfirst Hothers].
  simpl.
  set (key := cacheKeyForSha (id params)).
  set (st0 := newLoader capacity storage).
  set (st1 := (serve params first st0).2).
  assert (0 < maxEntries (cache st0)) as Hpos.
  { subst st0. simpl. destruct capacity as [[|n]|]; simpl;
      [done|lia|unfold defaultMaxEntries; lia]. }
  assert (bounded (cache st0)) as Hb by (unfold bounded; simpl; lia).
  assert (entryOf key (values (cache st1)) = Some (spread fresh params)
          ∧ fs st1 = fs1
          ∧ materializations (trace st1) = [params]
          ∧ invocations (trace st1) = [fresh])
    as (He1 & Hfs1 & Hm1 & Hi1).
  { subst st1. rewrite doWithProject_refill by done. cbv zeta. fold key.
    destruct (housekeeping_lookup key st0) as (Hm0 & Hi0 & _).
    rewrite afterLookup_fs. simpl fs. rewrite Hclone.
    destruct (invoke_spec first fresh
                (afterStore key params fresh fs1 (afterLookup key st0)))
      as (_ & -> & -> & -> & -> & _).
    destruct (afterStore_spec key params fresh fs1 (afterLookup key st0))
      as (-> & -> & ->).
    rewrite Hfirst, Hm0, Hi0. split_and!; try done.
    apply afterStore_entryOf;
      [by rewrite afterLookup_maxEntries|by apply bounded_lookup]. }
  assert (isValid (spread fresh params) params (fs st1) = true) as Hv.
  { unfold isValid, isEqual. rewrite Hfs1.
    rewrite getProp_spread_cloneOptions.
    change (baseDir (spread fresh params)) with (baseDir fresh). rewrite Hacc.
    rewrite andb_true_r. apply bool_decide_eq_true_2.
    unfold cloneOptionsValue, cloneOptions.
    destruct (cloneOptionsKey params); [done|]. by apply Hopt. }
  destruct (hits_in_a_row params others st1 (spread fresh params)
              Hc Hothers He1 Hv) as (Hm & Hi & Hfs).
  cbv zeta in Hm, Hi, Hfs. rewrite Hm, Hi, Hfs, Hm1, Hi1.
  split_and!; [done|by simpl; rewrite length_replicate|done| |done].
  simpl. constructor; [done|].
  apply Forall_replicate. done.
Qed.

End Repeated.

(** ** Reclamation, seen from storage *)

Lemma reclaim_gone fsys dir :
  dir ∉ busy fsys → pathExists (reclaim fsys dir) dir = false.
Proof.
  intros Hbusy. unfold reclaim.
  destruct (pathExists fsys dir) eqn:Hex.
  - rewrite (pathExists_truthy _ _ Hex). simpl.
    destruct (remove_not_busy _ _ Hbusy) as [fs' Hrm]. rewrite Hrm. simpl.
    by eapply remove_gone.
  - by rewrite andb_false_r.
Qed.

Lemma reclaim_busy fsys dir : busy (reclaim fsys dir) = busy fsys.
Proof.
  unfold reclaim. case_match; [|done].
  unfold remove. by case_bool_decide.
Qed.

Lemma reclaim_exact fsys dir q :
  pathExists fsys dir = true → dir ∉ busy fsys →
  q ∈ dirs (reclaim fsys dir) ↔ q ∈ dirs fsys ∧ within dir q = false.
Proof.
  intros Hex Hbusy. unfold reclaim.
  assert (truthy dir = true) as ->.
  { unfold pathExists in Hex. by apply andb_true_iff in Hex as [? _]. }
  rewrite Hex. simpl. unfold remove. rewrite bool_decide_eq_false_2 by done.
  simpl. rewrite elem_of_filter. tauto.
Qed.

Lemma reclaim_subset fsys dir q :
  q ∈ dirs (reclaim fsys dir) → q ∈ dirs fsys.
Proof.
  unfold reclaim. case_match; [|done].
  unfold remove. case_bool_decide; [done|]. simpl.
  rewrite elem_of_filter. tauto.
Qed.

Lemma reclaim_keeps fsys dir q :
  within dir q = false → q ∈ dirs (reclaim fsys dir) ↔ q ∈ dirs fsys.
Proof.
  intros Hq. unfold reclaim. case_match; [|done].
  unfold remove. case_bool_decide; [done|]. simpl.
  rewrite elem_of_filter. tauto.
Qed.

Lemma reclaim_denied fsys dir : denied (reclaim fsys dir) = denied fsys.
Proof.
  unfold reclaim. case_match; [|done].
  unfold remove. by case_bool_decide.
Qed.

Lemma reclaim_stays_gone fsys dir q :
  pathExists fsys q = false → pathExists (reclaim fsys dir) q = false.
Proof.
  unfold pathExists. intros H.
  apply andb_false_iff in H as [->|H]; [done|].
  apply bool_decide_eq_false in H.
  rewrite (bool_decide_eq_false_2 (q ∈ dirs (reclaim fsys dir))).
  - by rewrite andb_false_r.
  - intros Hin. by apply H, (reclaim_subset _ dir).
Qed.

(** X10: when the directory is on storage and its removal is not rejected,
    [cleanUp] succeeds and removes exactly the directory and what lies
    below it: every other path stays, and the sets of inaccessible and of
    undeletable paths are the same.  The removal is attempted once and no
    warning is logged. *)
Theorem cleanUp_removes_exactly_the_subtree dir r st :
  pathExists (fs st) dir = true →
  dir ∉ busy (fs st) →
  let out := cleanUp dir r st in
  out.1 = Ok tt ∧
  (∀ q, q ∈ dirs (fs out.2) ↔ q ∈ dirs (fs st) ∧ within dir q = false) ∧
  denied (fs out.2) = denied (fs st) ∧
  busy (fs out.2) = busy (fs st) ∧
  removeCalls dir (trace out.2) = removeCalls dir (trace st) ++ [true] ∧
  warnings (trace out.2) = warnings (trace st).
Proof.
  intros Hex Hbusy. cbv zeta. rewrite cleanUp_run. cbn [fst snd].
  rewrite afterCleanUp_fs, reclaim_denied, reclaim_busy.
  split_and!; try done.
  - intros q. by apply reclaim_exact.
  - by apply afterCleanUp_removed.
  - unfold afterCleanUp.
    assert (truthy dir = true) as ->.
    { unfold pathExists in Hex. by apply andb_true_iff in Hex as [? _]. }
    rewrite Hex. simpl.
    destruct (remove_not_busy _ _ Hbusy) as [fs' ->]. simpl.
    unfold warnings. rewrite !omap_app. simpl. by rewrite !app_nil_r.
Qed.

(** X11: [cleanUp] of the empty path, or of a path that is not on storage,
    succeeds and changes nothing at all: no removal is attempted and
    nothing is logged. *)
Theorem cleanUp_without_target_changes_nothing dir r st :
  dir = "" ∨ dir ∉ dirs (fs st) →
  cleanUp dir r st = (Ok tt, st).
Proof.
  intros H. rewrite cleanUp_run. f_equal. apply afterCleanUp_gone.
  unfold pathExists, truthy. destruct H as [->|H].
  - done.
  - rewrite (bool_decide_eq_false_2 (dir ∈ dirs (fs st))) by done.
    by rewrite andb_false_r.
Qed.

(** X12: when storage rejects the removal, [cleanUp] still succeeds; it
    leaves storage, the cache and every registration as they were, and adds
    to the log exactly the announcement, the failed removal and one warning
    carrying the error. *)
Theorem cleanUp_rejected_removal_only_logs dir r st :
  pathExists (fs st) dir = true →
  dir ∈ busy (fs st) →
  cleanUp dir r st =
    (Ok tt,
     emit (Log warn "EBUSY")
       (emit (FsRemove dir false)
          (emit (Log debug (if decide (r = timeout)
                            then "Deleting project '%s' because a timeout passed"
                            else "Deleting project '%s' because %s was triggered"))
             st))).
Proof.
  intros Hex Hbusy. rewrite cleanUp_run. f_equal. unfold afterCleanUp.
  assert (truthy dir = true) as ->.
  { unfold pathExists in Hex. by apply andb_true_iff in Hex as [? _]. }
  rewrite Hex. simpl. unfold remove. by rewrite bool_decide_eq_true_2.
Qed.

(** X13: whatever the path and the reason, [cleanUp] never calls the
    delegate or an action, never touches the cache, the pending-deletion
    list, the timers or the disposal registrations, never adds a path to
    storage and never changes which paths are inaccessible or undeletable;
    what was logged before is still there. *)
Theorem cleanUp_only_shrinks_storage dir r st :
  let st' := (cleanUp dir r st).2 in
  cache st' = cache st ∧
  deleteOnExit st' = deleteOnExit st ∧
  timers st' = timers st ∧
  disposables st' = disposables st ∧
  materializations (trace st') = materializations (trace st) ∧
  invocations (trace st') = invocations (trace st) ∧
  dirs (fs st') ⊆ dirs (fs st) ∧
  denied (fs st') = denied (fs st) ∧
  busy (fs st') = busy (fs st) ∧
  trace st `prefix_of` trace st'.
Proof.
  cbv zeta. rewrite cleanUp_run. cbn [snd].
  destruct (housekeeping_cleanUp dir r st) as (Hm & Hi & Hd & Ht & Hdi & _ & Hp).
  rewrite afterCleanUp_cache, afterCleanUp_fs, reclaim_denied, reclaim_busy.
  split_and!; try done.
  intros q. apply reclaim_subset.
Qed.

(** ** The shutdown hook *)

Lemma flushing_cons fsys p l :
  flushing fsys (p :: l) =
  (if truthy p then [AtPathExists p shutdown (pathExists fsys p)] else [])
  ++ flushing fsys l.
Proof. unfold flushing. simpl. by destruct (truthy p). Qed.

Lemma startAll_flushing l st :
  startAll (map (λ p, cleanUpStart p shutdown) l) st = (Ok (flushing (fs st) l), st).
Proof.
  induction l as [|p l IH]; [done|].
  cbn [map startAll]. unfold_m. rewrite cleanUpStart_run, IH, flushing_cons.
  by destruct (truthy p).
Qed.

Lemma due_flushing fsys l : due (flushing fsys l) = found fsys l.
Proof.
  induction l as [|p l IH]; [done|].
  rewrite flushing_cons, due_app, IH. unfold found. rewrite filter_cons.
  destruct (truthy p) eqn:Ht.
  - destruct (pathExists fsys p) eqn:Hex.
    + by rewrite decide_True.
    + by rewrite decide_False.
  - rewrite decide_False; [done|].
    unfold pathExists. by rewrite Ht.
Qed.

Lemma announced_reclaiming st : reclaiming st (announced st).
Proof.
  unfold announced. case_decide; [apply reclaiming_log|apply reclaiming_refl].
Qed.

Lemma announced_fs st : fs (announced st) = fs st.
Proof. unfold announced. by case_match. Qed.

(** What the shutdown hook does: it resolves to 0, storage loses the
    listed paths that were found on it and what lies below them, and
    nothing else changes but the log. *)
Lemma shutdownHook_spec st :
  ∃ st',
    shutdownHook st = (Ok 0%Z, st') ∧
    reclaiming st st' ∧
    inflight st' = inflight st ∧
    fs st' = removingAll (found (fs st) (deleteOnExit st)) (fs st).
Proof.
  unfold shutdownHook, awaitAll. unfold_m.
  assert ((let (r, st') :=
             if decide (0 < length (deleteOnExit st))
             then (Ok (), emit (Log debug "Deleting cached projects") st)
             else (Ok (), st) in
           match r with
           | Ok a => (Ok a, st')
           | Throw e => (Throw e, st')
           end) = (Ok tt, announced st)) as Hann.
  { unfold announced. by case_decide. }
  destruct (decide (0 < length (deleteOnExit st))) as [Hlen|Hlen].
  all: unfold announced in Hann;
    rewrite ?(decide_True _ _ Hlen), ?(decide_False _ _ Hlen) in Hann.
  all: match goal with |- context [startAll ?calls ?s] =>
         rewrite (startAll_flushing (deleteOnExit st) s)
       end.
  all: match goal with |- context [resumeAll ?q ?s] =>
         destruct (resumeAll_spec q s) as (l1 & st1 & -> & Hrec & Hq & Hfs & Hdue)
       end.
  all: destruct (resumeAll_spec l1 st1) as (l2 & st2 & -> & Hrec' & Hq' & Hfs' & _).
  all: exists st2; split; [done|].
  all: rewrite Hdue in Hfs'; rewrite due_flushing in Hfs.
  all: split_and!; [|by rewrite Hq', Hq|by rewrite Hfs', Hfs].
  - eapply reclaiming_trans; [apply reclaiming_log|].
    by eapply reclaiming_trans.
  - by eapply reclaiming_trans.
Qed.

Lemma found_elem fsys l p : p ∈ found fsys l ↔ p ∈ l ∧ pathExists fsys p = true.
Proof. unfold found. rewrite list_elem_of_filter. tauto. Qed.

Lemma shutdownHook_gone st p :
  p ∈ deleteOnExit st →
  p ∉ busy (fs st) →
  pathExists (fs (shutdownHook st).2) p = false.
Proof.
  intros Hin Hbusy.
  destruct (shutdownHook_spec st) as (st' & Hrun & _ & _ & Hfs).
  rewrite Hrun. cbn [snd]. rewrite Hfs.
  destruct (pathExists (fs st) p) eqn:Hex.
  - apply removingAll_gone; [by apply found_elem|done].
  - by apply removingAll_stays_gone.
Qed.

(** X14: the shutdown hook always resolves to 0, and afterwards no path of
    the pending-deletion list exists on storage, unless storage rejects its
    removal. *)
Theorem shutdownHook_reclaims_every_listed_path st p :
  p ∈ deleteOnExit st →
  p ∉ busy (fs st) →
  (shutdownHook st).1 = Ok 0%Z ∧
  pathExists (fs (shutdownHook st).2) p = false.
Proof.
  intros Hin Hbusy. split; [|by apply shutdownHook_gone].
  by destruct (shutdownHook_spec st) as (st' & -> & _).
Qed.

(** X15: the shutdown hook deletes nothing but the listed paths and what
    lies below them: a path outside all of them is on storage afterwards
    iff it was before, and is accessible iff it was. *)
Theorem shutdownHook_spares_unlisted_paths st q :
  Forall (λ p, within p q = false) (deleteOnExit st) →
  let st' := (shutdownHook st).2 in
  (q ∈ dirs (fs st') ↔ q ∈ dirs (fs st)) ∧
  access (fs st') q = access (fs st) q.
Proof.
  intros Hq. cbv zeta.
  destruct (shutdownHook_spec st) as (st' & -> & _ & _ & Hfs). cbn [snd].
  assert (q ∈ dirs (fs st') ↔ q ∈ dirs (fs st)) as Hiff.
  { rewrite Hfs. apply removingAll_keeps.
    apply Forall_forall. intros p [Hp _]%found_elem.
    by eapply Forall_forall in Hq. }
  split; [done|].
  unfold access, pathExists.
  assert (denied (fs st') = denied (fs st)) as ->
    by (by rewrite Hfs, removingAll_denied).
  by rewrite (bool_decide_ext _ _ Hiff).
Qed.

(** X16: the shutdown hook leaves the cache, the pending-deletion list, the
    timers and the disposal registrations as they were, and calls neither
    the delegate nor an action: in particular the list is not emptied, and
    cached entries stay in the store. *)
Theorem shutdownHook_keeps_cache_and_registrations st :
  let st' := (shutdownHook st).2 in
  cache st' = cache st ∧
  deleteOnExit st' = deleteOnExit st ∧
  timers st' = timers st ∧
  disposables st' = disposables st ∧
  materializations (trace st') = materializations (trace st) ∧
  invocations (trace st') = invocations (trace st).
Proof.
  cbv zeta.
  destruct (shutdownHook_spec st) as (st' & -> & Hrec & _). cbn [snd].
  destruct Hrec as (? & ? & ? & ? & ? & ? & _). by split_and!.
Qed.

Section Shutdown.

Variable delegate : Materializer.
Variable cacheKeyForSha : RemoteRepoRef → string.
Variable shaExact : string → bool.

Local Abbreviation serve := (doWithProject delegate cacheKeyForSha shaExact).

Context {T : Type}.

Lemma handled_bypass_registers_no_path params (action : WithLoadedProject T) st :
  is_Some (context params ≫= lifecycle) →
  deleteOnExit (serve params action st).2 = deleteOnExit st.
Proof.
  intros [handle Hctx].
  destruct (bypass_or_cacheable shaExact params) as [Hb|Hc].
  - rewrite doWithProject_bypass by done. rewrite saveAndRunAction_run.
    cbv zeta. cbn [fs emit]. destruct (delegate params (fs st)) as [[p|e] fs1].
    + unfold invoke, registered. rewrite Hctx. by destruct (action p _).
    + done.
  - by destruct (cacheable_frame delegate cacheKeyForSha shaExact
                   params action st Hc) as (-> & _).
Qed.

Lemma scoped_requests_register_no_path
    (requests : list (ProjectLoadingParameters * WithLoadedProject T)) st :
  Forall (λ r, cacheable shaExact r.1 ∨ is_Some (context r.1 ≫= lifecycle))
         requests →
  deleteOnExit (serveAll delegate cacheKeyForSha shaExact requests st)
    = deleteOnExit st.
Proof.
  intros Hall. revert st.
  induction Hall as [|[params action] requests Hr _ IH]; intros st; [done|].
  simpl. rewrite IH. destruct Hr as [Hc|Hh].
  - by destruct (cacheable_frame delegate cacheKeyForSha shaExact
                   params action st Hc).
  - by apply handled_bypass_registers_no_path.
Qed.

(** X17: a loader that has only served requests that are cacheable
    (read-only and pinned to an exact hash) or carry a lifecycle handle has
    an empty pending-deletion list, so its shutdown hook resolves to 0
    without deleting or logging anything: cached checkouts, and checkouts
    whose handle was never disposed, stay on storage. *)
Theorem shutdown_spares_cached_and_scoped_checkouts
    (requests : list (ProjectLoadingParameters * WithLoadedProject T))
    (capacity : option nat) (storage : FileSys) :
  Forall (λ r, cacheable shaExact r.1 ∨ is_Some (context r.1 ≫= lifecycle))
         requests →
  let st := serveAll delegate cacheKeyForSha shaExact requests
              (newLoader capacity storage) in
  shutdownHook st = (Ok 0%Z, st).
Proof.
  intros Hall. cbv zeta. unfold shutdownHook, awaitAll. unfold_m.
  by rewrite (scoped_requests_register_no_path requests _ Hall).
Qed.

Lemma pending_deletions_grow params (action : WithLoadedProject T) st :
  deleteOnExit st `prefix_of` deleteOnExit (serve params action st).2.
Proof.
  destruct (bypass_or_cacheable shaExact params) as [Hb|Hc].
  - rewrite doWithProject_bypass by done. rewrite saveAndRunAction_run.
    cbv zeta. cbn [fs emit]. destruct (delegate params (fs st)) as [[p|e] fs1].
    + unfold invoke, registered.
      destruct (context params ≫= lifecycle); destruct (action p _); simpl;
        [done|by apply prefix_app_r].
    + done.
  - by destruct (cacheable_frame delegate cacheKeyForSha shaExact
                   params action st Hc) as (-> & _).
Qed.

Lemma pending_deletions_grow_all
    (requests : list (ProjectLoadingParameters * WithLoadedProject T)) st x :
  x ∈ deleteOnExit st →
  x ∈ deleteOnExit (serveAll delegate cacheKeyForSha shaExact requests st).
Proof.
  revert st. induction requests as [|[params action] requests IH];
    intros st Hx; [done|].
  simpl. apply IH.
  destruct (pending_deletions_grow params action st) as [k ->].
  apply elem_of_app. by left.
Qed.

(** X18: no request ever takes a path off the pending-deletion list: the
    list before a call is a prefix of the list after it, and the call adds
    at most one path. *)
Theorem request_never_shortens_pending_deletions params
    (action : WithLoadedProject T) st :
  let st' := (serve params action st).2 in
  deleteOnExit st `prefix_of` deleteOnExit st' ∧
  length (deleteOnExit st') ≤ S (length (deleteOnExit st)).
Proof.
  cbv zeta. split; [apply pending_deletions_grow|].
  destruct (bypass_or_cacheable shaExact params) as [Hb|Hc].
  - rewrite doWithProject_bypass by done. rewrite saveAndRunAction_run.
    cbv zeta. cbn [fs emit]. destruct (delegate params (fs st)) as [[p|e] fs1].
    + unfold invoke, registered.
      destruct (context params ≫= lifecycle); destruct (action p _); simpl;
        [lia|rewrite length_app; simpl; lia].
    + simpl. lia.
  - destruct (cacheable_frame delegate cacheKeyForSha shaExact
                params action st Hc) as (-> & _). lia.
Qed.

Lemma bypass_without_handle_is_listed params (action : WithLoadedProject T)
    st p fs1 :
  bypass shaExact params →
  context params ≫= lifecycle = None →
  delegate params (fs st) = (Ok p, fs1) →
  deleteOnExit (serve params action st).2 = deleteOnExit st ++ [baseDir p].
Proof.
  intros Hb Hctx Hclone.
  rewrite doWithProject_bypass by done. rewrite saveAndRunAction_run.
  cbv zeta. cbn [fs emit]. rewrite Hclone.
  unfold invoke, registered. rewrite Hctx.
  by destruct (action p _).
Qed.

(** X19: a checkout made for a request that bypasses the cache and carries
    no lifecycle handle does not survive the shutdown hook: unless storage
    rejects the removal, its directory is absent once the hook has run,
    however many requests were served in between. *)
Theorem bypass_checkout_is_gone_after_shutdown params
    (action : WithLoadedProject T) st p fs1
    (later : list (ProjectLoadingParameters * WithLoadedProject T)) :
  bypass shaExact params →
  context params ≫= lifecycle = None →
  delegate params (fs st) = (Ok p, fs1) →
  let st1 := serveAll delegate cacheKeyForSha shaExact later
               (serve params action st).2 in
  baseDir p ∉ busy (fs st1) →
  pathExists (fs (shutdownHook st1).2) (baseDir p) = false.
Proof.
  intros Hb Hctx Hclone st1 Hbusy.
  apply shutdownHook_gone; [|done].
  subst st1. eapply pending_deletions_grow_all.
  rewrite (bypass_without_handle_is_listed _ _ _ _ _ Hb Hctx Hclone).
  apply elem_of_app. right. by apply list_elem_of_singleton.
Qed.

End Shutdown.

(** ** One request among others *)

Lemma afterLookup_values key st :
  values (cache (afterLookup key st)) = without key (values (cache st)) ∧
  maxEntries (cache (afterLookup key st)) = maxEntries (cache st).
Proof.
  split; [|apply afterLookup_maxEntries].
  destruct (entryOf key (values (cache st))) as [entry|] eqn:He.
  - unfold afterLookup. rewrite He. rewrite afterEvict_values.
    cbn [cache emit]. unfold afterGet. cbn [cache emit]. rewrite He.
    cbn [values cache set_cache set_values count_get].
    unfold without. rewrite filter_app, list_filter_filter. simpl.
    rewrite filter_cons_False by (simpl; tauto).
    rewrite filter_nil, app_nil_r.
    apply list_filter_iff. simpl. tauto.
  - destruct (afterLookup_miss key st He) as [-> _].
    by rewrite without_absent.
Qed.

Section Neighbours.

Variable delegate : Materializer.
Variable cacheKeyForSha : RemoteRepoRef → string.
Variable shaExact : string → bool.

Local Abbreviation serve := (doWithProject delegate cacheKeyForSha shaExact).

Context {T : Type}.

Lemma refill_leaves_other_keys_alone params (action : WithLoadedProject T)
    st other :
  cacheable shaExact params →
  (∀ entry, entryOf (cacheKeyForSha (id params)) (values (cache st)) = Some entry →
            isValid entry params (fs st) = false) →
  other ≠ cacheKeyForSha (id params) →
  length (without (cacheKeyForSha (id params)) (values (cache st)))
    < maxEntries (cache st) →
  entryOf other (values (cache (serve params action st).2))
    = entryOf other (values (cache st)).
Proof.
  intros Hc Hstale Hne Hroom.
  rewrite doWithProject_refill by done. cbv zeta.
  set (key := cacheKeyForSha (id params)) in *.
  destruct (afterLookup_values key st) as [Hvs Hmax].
  assert (entryOf other (values (cache (afterLookup key st)))
          = entryOf other (values (cache st))) as Hsame.
  { rewrite Hvs. by apply entryOf_without_ne. }
  destruct (delegate params (fs (afterLookup key st))) as [[fresh|e] fs1].
  - match goal with |- context [invoke action fresh ?s] =>
      destruct (invoke_spec action fresh s) as (_ & _ & -> & _)
    end.
    unfold afterStore. cbn [cache emit].
    rewrite afterPut_entryOf_ne; [exact Hsame|done|].
    cbn [values cache set_cache set_values set_fs emit maxEntries].
    rewrite Hvs, Hmax.
    pose proof (without_length key (without key (values (cache st)))). lia.
  - by cbn [snd cache set_fs emit].
Qed.

(** X20: as long as the store is within its capacity and the request's own
    key is present or there is room for one more entry, a cacheable
    request changes nothing under any other key: what is stored there
    before the call is stored there after it. *)
Theorem request_leaves_other_keys_alone params (action : WithLoadedProject T)
    st other :
  cacheable shaExact params →
  bounded (cache st) →
  is_Some (entryOf (cacheKeyForSha (id params)) (values (cache st)))
    ∨ length (values (cache st)) < maxEntries (cache st) →
  other ≠ cacheKeyForSha (id params) →
  entryOf other (values (cache (serve params action st).2))
    = entryOf other (values (cache st)).
Proof.
  intros Hc Hb Hroom Hne.
  set (key := cacheKeyForSha (id params)) in *.
  destruct (entryOf key (values (cache st))) as [entry|] eqn:He.
  - destruct (isValid entry params (fs st)) eqn:Hv.
    + rewrite (doWithProject_hit _ _ _ _ _ _ entry) by done. fold key.
      match goal with |- context [invoke action entry ?s] =>
        destruct (invoke_spec action entry s) as (_ & _ & -> & _)
      end.
      cbn [cache emit]. by rewrite afterGet_entryOf.
    + apply (refill_leaves_other_keys_alone params action st other); try done.
      * intros entry' He'. fold key in He'. by simplify_eq.
      * fold key. unfold bounded in Hb.
        pose proof (without_length_present key _ _ He). lia.
  - destruct Hroom as [[? ?]|Hroom]; [done|].
    apply (refill_leaves_other_keys_alone params action st other); try done.
    + intros entry' He'. fold key in He'. by simplify_eq.
    + fold key. by rewrite without_absent.
Qed.

(** X21: an action that fails does not cost the checkout its place in the
    cache.  When a cacheable request misses, the store has room, the
    delegate delivers an accessible checkout, the request names its clone
    options or the checkout owns none, and the action then fails without
    touching storage, the caller gets the action's error, the merged
    entry is stored all the same, and the next request with the same
    parameters is served from it without a second call of the delegate. *)
Theorem failed_action_keeps_checkout_cached {U} params
    (action : WithLoadedProject T) (next : WithLoadedProject U)
    st fresh fs1 e :
  cacheable shaExact params →
  entryOf (cacheKeyForSha (id params)) (values (cache st)) = None →
  length (values (cache st)) < maxEntries (cache st) →
  delegate params (fs st) = (Ok fresh, fs1) →
  access fs1 (baseDir fresh) = true →
  (cloneOptionsKey params = None → ownCloneOptions fresh = undefined) →
  action fresh fs1 = (Throw e, fs1) →
  let out := serve params action st in
  let again := doWithProject delegate cacheKeyForSha shaExact params next out.2 in
  out.1 = Throw e ∧
  entryOf (cacheKeyForSha (id params)) (values (cache out.2))
    = Some (spread fresh params) ∧
  materializations (trace again.2) = materializations (trace st) ++ [params] ∧
  invocations (trace again.2)
    = invocations (trace st) ++ [fresh; spread fresh params] ∧
  again.1 = (next (spread fresh params) fs1).1.
Proof.
  intros Hc He Hroom Hclone Hacc Hopt Hfail.
  set (key := cacheKeyForSha (id params)) in *.
  destruct (afterLookup_miss key st He) as [Hvs _].
  pose proof (afterLookup_fs key st) as Hfs.
  destruct (housekeeping_lookup key st) as (Hm0 & Hi0 & _ & _ & _ & Hmax & _).
  set (stored := afterStore key params fresh fs1 (afterLookup key st)).
  destruct (afterStore_spec key params fresh fs1 (afterLookup key st))
    as (Hms & His & Hfs1).
  fold stored in Hms, His, Hfs1.
  assert (entryOf key (values (cache stored)) = Some (spread fresh params))
    as Hentry.
  { apply afterStore_entryOf; [rewrite Hmax; lia|].
    unfold bounded. rewrite Hvs, Hmax. lia. }
  assert (serve params action st = invoke action fresh stored) as Hout.
  { rewrite doWithProject_refill; [|done|by intros entry; fold key; rewrite He].
    cbv zeta. fold key. by rewrite Hfs, Hclone. }
  destruct (invoke_spec action fresh stored) as (Hr & Hf & Hca & Hi & Hm & _).
  rewrite Hfs1, Hfail in Hr, Hf. cbn [fst snd] in Hr, Hf.
  cbv zeta. rewrite Hout.
  set (st1 := (invoke action fresh stored).2) in *.
  assert (isValid (spread fresh params) params (fs st1) = true) as Hv.
  { unfold isValid, isEqual. rewrite Hf.
    rewrite getProp_spread_cloneOptions.
    change (baseDir (spread fresh params)) with (baseDir fresh). rewrite Hacc.
    rewrite andb_true_r. apply bool_decide_eq_true_2.
    unfold cloneOptionsValue, cloneOptions.
    destruct (cloneOptionsKey params); [done|]. by apply Hopt. }
  assert (entryOf key (values (cache st1)) = Some (spread fresh params)) as He1.
  { by rewrite Hca. }
  rewrite (doWithProject_hit _ _ _ _ _ _ (spread fresh params)) by done.
  fold key.
  match goal with |- context [invoke next _ ?s] =>
    destruct (invoke_spec next (spread fresh params) s) as (-> & _ & _ & -> & -> & _);
    assert (housekeeping st1 s) as (-> & -> & _);
    [|assert (fs s = fs st1) as ->]
  end.
  { apply hit_is_housekeeping. }
  { cbn [fs emit]. by rewrite afterGet_fs. }
  rewrite Hm, Hi, Hms, His, Hm0, Hi0, Hf.
  split_and!; try done. by rewrite <-(assoc_L (++)).
Qed.

End Neighbours.

(** ** The properties above at work on the sample collaborators *)

Module Coverage.

Import Sample.

Local Abbreviation served := (load main whereAmI started).2.
Local Abbreviation cached := (load pinned whereAmI started).2.
Local Abbreviation stuck := (load main whereAmI (newLoader None stuckStorage)).2.

Lemma delegate_skipped_iff_valid_entry_witness :
  cacheable shaExact pinned ∧
  (materializations (trace (load pinned whereAmI cached).2)
     = materializations (trace cached)
   ↔ ∃ entry,
       entryOf (cacheKeyForSha (id pinned)) (values (cache cached)) = Some entry ∧
       isValid entry pinned (fs cached) = true).
Proof.
  assert (cacheable shaExact pinned) as Hc by (split; reflexivity).
  split; [exact Hc|].
  exact (delegate_skipped_iff_valid_entry delegate cacheKeyForSha shaExact
           pinned whereAmI cached Hc).
Defined.

Lemma cacheable_request_registers_nothing_witness :
  cacheable shaExact pinned ∧
  deleteOnExit (load pinned whereAmI served).2 = deleteOnExit served.
Proof.
  assert (cacheable shaExact pinned) as Hc by (split; reflexivity).
  split; [exact Hc|].
  exact (proj1 (cacheable_request_registers_nothing delegate cacheKeyForSha
                  shaExact pinned whereAmI served Hc)).
Defined.



Lemma bypass_requests_clone_every_time_witness :
  Forall (λ r : ProjectLoadingParameters * WithLoadedProject string,
            bypass shaExact r.1)
    [(main, whereAmI); (request hashA false, whereAmI); (main, whereAmI)] ∧
  materializations
    (trace (serveAll delegate cacheKeyForSha shaExact
              [(main, whereAmI); (request hashA false, whereAmI); (main, whereAmI)]
              cached))
  = materializations (trace cached) ++ [main; request hashA false; main].
Proof.
  assert (Forall (λ r : ProjectLoadingParameters * WithLoadedProject string,
                    bypass shaExact r.1)
            [(main, whereAmI); (request hashA false, whereAmI); (main, whereAmI)])
    as Hall.
  { repeat constructor; first [by right|by left]. }
  split; [exact Hall|].
  exact (proj1 (bypass_requests_clone_every_time delegate cacheKeyForSha
                  shaExact _ cached Hall)).
Defined.

Lemma repeated_request_clones_once_witness :
  cacheable shaExact pinned ∧
  @None nat ≠ Some 0 ∧
  access (withDir (cloneDir (id pinned)) emptyStorage) (baseDir (cloned pinned))
    = true ∧
  Forall (@readOnlyAction string) [whereAmI; whereAmI; whereAmI] ∧
  materializations
    (trace (serveAll delegate cacheKeyForSha shaExact
              (map (λ a, (pinned, a)) [whereAmI; whereAmI; whereAmI])
              (newLoader None emptyStorage)))
  = [pinned].
Proof.
  assert (cacheable shaExact pinned) as Hc by (split; reflexivity).
  assert (delegate pinned emptyStorage
          = (Ok (cloned pinned), withDir (cloneDir (id pinned)) emptyStorage))
    as Hclone by reflexivity.
  assert (access (withDir (cloneDir (id pinned)) emptyStorage)
            (baseDir (cloned pinned)) = true) as Hacc
    by (vm_compute; reflexivity).
  assert (Forall (@readOnlyAction string) [whereAmI; whereAmI; whereAmI]) as Hro.
  { repeat constructor. }
  assert (@None nat ≠ Some 0) as Hcap by discriminate.
  assert (cloneOptionsKey pinned = None →
          ownCloneOptions (cloned pinned) = undefined) as Hopt
    by (intros _; vm_compute; reflexivity).
  split_and!; [exact Hc|exact Hcap|exact Hacc|exact Hro|].
  exact (proj1 (repeated_request_clones_once delegate cacheKeyForSha shaExact
                  pinned whereAmI [whereAmI; whereAmI] None emptyStorage _ _
                  Hc Hcap Hclone Hacc Hopt Hro)).
Defined.

Lemma cleanUp_removes_exactly_the_subtree_witness :
  pathExists (fs served) "/tmp/r-main" = true ∧
  removeCalls "/tmp/r-main" (trace (cleanUp "/tmp/r-main" eviction served).2)
    = removeCalls "/tmp/r-main" (trace served) ++ [true].
Proof.
  assert (pathExists (fs served) "/tmp/r-main" = true) as Hex
    by (vm_compute; reflexivity).
  assert (busy (fs served) = ∅) as Hnone by (vm_compute; reflexivity).
  assert ("/tmp/r-main" ∉ busy (fs served)) as Hbusy
    by (rewrite Hnone; apply not_elem_of_empty).
  split; [exact Hex|].
  exact (proj1 (proj2 (proj2 (proj2 (proj2
    (cleanUp_removes_exactly_the_subtree "/tmp/r-main" eviction served
       Hex Hbusy)))))).
Defined.

Lemma cleanUp_without_target_changes_nothing_witness :
  ("" = "" ∨ "" ∉ dirs (fs served)) ∧
  cleanUp "" shutdown served = (Ok tt, served).
Proof.
  assert ("" = "" ∨ "" ∉ dirs (fs served)) as Hnone by (left; reflexivity).
  split; [exact Hnone|].
  exact (cleanUp_without_target_changes_nothing "" shutdown served Hnone).
Defined.

Lemma cleanUp_rejected_removal_only_logs_witness :
  pathExists (fs stuck) "/tmp/r-main" = true ∧
  fs (cleanUp "/tmp/r-main" timeout stuck).2 = fs stuck.
Proof.
  assert (pathExists (fs stuck) "/tmp/r-main" = true) as Hex
    by (vm_compute; reflexivity).
  assert (busy (fs stuck) = {[ "/tmp/r-main" ]}) as Hone
    by (vm_compute; reflexivity).
  assert ("/tmp/r-main" ∈ busy (fs stuck)) as Hbusy
    by (rewrite Hone; by apply elem_of_singleton).
  split; [exact Hex|].
  exact (f_equal (λ out : Result unit * State, fs out.2)
           (cleanUp_rejected_removal_only_logs "/tmp/r-main" timeout stuck
              Hex Hbusy)).
Defined.

Lemma shutdownHook_reclaims_every_listed_path_witness :
  pathExists (fs served) "/tmp/r-main" = true ∧
  pathExists (fs (shutdownHook served).2) "/tmp/r-main" = false.
Proof.
  assert (deleteOnExit served = ["/tmp/r-main"]) as Hlist
    by (vm_compute; reflexivity).
  assert ("/tmp/r-main" ∈ deleteOnExit served) as Hin
    by (rewrite Hlist; by apply list_elem_of_singleton).
  assert (busy (fs served) = ∅) as Hnone by (vm_compute; reflexivity).
  assert ("/tmp/r-main" ∉ busy (fs served)) as Hbusy
    by (rewrite Hnone; apply not_elem_of_empty).
  split; [vm_compute; reflexivity|].
  exact (proj2 (shutdownHook_reclaims_every_listed_path served "/tmp/r-main"
                  Hin Hbusy)).
Defined.

Lemma shutdownHook_spares_unlisted_paths_witness :
  Forall (λ p, within p (cloneDir (id pinned)) = false)
    (deleteOnExit (load main whereAmI cached).2) ∧
  access (fs (shutdownHook (load main whereAmI cached).2).2) (cloneDir (id pinned))
    = access (fs (load main whereAmI cached).2) (cloneDir (id pinned)).
Proof.
  assert (deleteOnExit (load main whereAmI cached).2 = ["/tmp/r-main"]) as Hlist
    by (vm_compute; reflexivity).
  assert (Forall (λ p, within p (cloneDir (id pinned)) = false)
            (deleteOnExit (load main whereAmI cached).2)) as Hout.
  { rewrite Hlist. repeat constructor. }
  split; [exact Hout|].
  exact (proj2 (shutdownHook_spares_unlisted_paths
                  (load main whereAmI cached).2 (cloneDir (id pinned)) Hout)).
Defined.

Lemma shutdown_spares_cached_and_scoped_checkouts_witness :
  Forall (λ r : ProjectLoadingParameters * WithLoadedProject string,
            cacheable shaExact r.1 ∨ is_Some (context r.1 ≫= lifecycle))
    queue ∧
  shutdownHook (serveAll delegate cacheKeyForSha shaExact queue
                  (newLoader None emptyStorage))
  = (Ok 0%Z, serveAll delegate cacheKeyForSha shaExact queue
               (newLoader None emptyStorage)).
Proof.
  assert (Forall (λ r : ProjectLoadingParameters * WithLoadedProject string,
                    cacheable shaExact r.1 ∨ is_Some (context r.1 ≫= lifecycle))
            queue) as Hall.
  { repeat constructor; left; split; reflexivity. }
  split; [exact Hall|].
  exact (shutdown_spares_cached_and_scoped_checkouts delegate cacheKeyForSha
           shaExact queue None emptyStorage Hall).
Defined.

Lemma bypass_checkout_is_gone_after_shutdown_witness :
  bypass shaExact main ∧
  context main ≫= lifecycle = None ∧
  pathExists (fs (serveAll delegate cacheKeyForSha shaExact queue served))
    (baseDir (cloned main)) = true ∧
  pathExists
    (fs (shutdownHook (serveAll delegate cacheKeyForSha shaExact queue served)).2)
    (baseDir (cloned main)) = false.
Proof.
  assert (bypass shaExact main) as Hb by (right; reflexivity).
  assert (context main ≫= lifecycle = None) as Hctx by reflexivity.
  assert (delegate main (fs started)
          = (Ok (cloned main), withDir (cloneDir (id main)) emptyStorage))
    as Hclone by reflexivity.
  assert (busy (fs (serveAll delegate cacheKeyForSha shaExact queue served)) = ∅)
    as Hnone by (vm_compute; reflexivity).
  assert (baseDir (cloned main)
            ∉ busy (fs (serveAll delegate cacheKeyForSha shaExact queue served)))
    as Hbusy by (rewrite Hnone; apply not_elem_of_empty).
  split_and!; [exact Hb|exact Hctx|vm_compute; reflexivity|].
  exact (bypass_checkout_is_gone_after_shutdown delegate cacheKeyForSha shaExact
           main whereAmI started _ _ queue Hb Hctx Hclone Hbusy).
Defined.

Lemma request_leaves_other_keys_alone_witness :
  cacheable shaExact (request hashB true) ∧
  bounded (cache cached) ∧
  length (values (cache cached)) < maxEntries (cache cached) ∧
  entryOf (cacheKeyForSha (id pinned))
    (values (cache (load (request hashB true) whereAmI cached).2))
  = entryOf (cacheKeyForSha (id pinned)) (values (cache cached)).
Proof.
  assert (cacheable shaExact (request hashB true)) as Hc by (split; reflexivity).
  assert (bounded (cache cached)) as Hb by (vm_compute; lia).
  assert (length (values (cache cached)) < maxEntries (cache cached)) as Hroom
    by (vm_compute; lia).
  assert (cacheKeyForSha (id pinned) ≠ cacheKeyForSha (id (request hashB true)))
    as Hne by (vm_compute; discriminate).
  split_and!; [exact Hc|exact Hb|exact Hroom|].
  exact (request_leaves_other_keys_alone delegate cacheKeyForSha shaExact
           (request hashB true) whereAmI cached _ Hc Hb (or_intror Hroom) Hne).
Defined.

Lemma failed_action_keeps_checkout_cached_witness :
  cacheable shaExact pinned ∧
  access (withDir (cloneDir (id pinned)) emptyStorage) (baseDir (cloned pinned))
    = true ∧
  (load pinned (λ _ storage, (Throw "boom", storage)) started).1
    = @Throw string "boom" ∧
  materializations
    (trace (load pinned whereAmI
              (load pinned (λ _ storage, (@Throw string "boom", storage))
                 started).2).2)
  = materializations (trace started) ++ [pinned].
Proof.
  assert (cacheable shaExact pinned) as Hc by (split; reflexivity).
  assert (entryOf (cacheKeyForSha (id pinned)) (values (cache started)) = None)
    as Hmiss by reflexivity.
  assert (length (values (cache started)) < maxEntries (cache started)) as Hroom
    by (vm_compute; lia).
  assert (delegate pinned (fs started)
          = (Ok (cloned pinned), withDir (cloneDir (id pinned)) emptyStorage))
    as Hclone by reflexivity.
  assert (access (withDir (cloneDir (id pinned)) emptyStorage)
            (baseDir (cloned pinned)) = true) as Hacc
    by (vm_compute; reflexivity).
  assert (cloneOptionsKey pinned = None →
          ownCloneOptions (cloned pinned) = undefined) as Hopt
    by (intros _; vm_compute; reflexivity).
  split_and!; [exact Hc|exact Hacc| |].
  - exact (proj1 (failed_action_keeps_checkout_cached delegate cacheKeyForSha
                    shaExact pinned (λ _ storage, (@Throw string "boom", storage))
                    whereAmI started _ _ "boom"
                    Hc Hmiss Hroom Hclone Hacc Hopt eq_refl)).
  - exact (proj1 (proj2 (proj2
             (failed_action_keeps_checkout_cached delegate cacheKeyForSha
                shaExact pinned (λ _ storage, (@Throw string "boom", storage))
                whereAmI started _ _ "boom"
                Hc Hmiss Hroom Hclone Hacc Hopt eq_refl)))).
Defined.

End Coverage.

